(** * llmse-photo-watermark2: the watermark core, embedded and verified

    A shallow embedding of the watermark application's core
    ([watermark_app/utils.py], [watermark_settings.py], [export_settings.py],
    [watermark_renderer.py], [template_manager.py], the export part of
    [main_window.py] and the drag handler of [widgets/preview_widget.py]).

    Conventions.
    - A Python [float] is a binary64 value: Rocq's primitive [float], whose
      operations are the IEEE ones the interpreter uses.
    - A Python [int] is a [Z].
    - A Python [str] is a [string]; each [ascii] is one character with code
      point 0..255.  A file holds bytes, a [string] too; text goes in and out
      of it through UTF-8.
    - A Python exception is a value of [exn]; a function that can raise
      returns a [result].
    - Qt's rasters, painters and codecs are collaborators: they are the
      variables of the sections below, never defined here. *)

From Stdlib Require Import ZArith Floats Lia Bool Ascii String.
From stdpp Require Import gmap strings list pretty sorting.

Set Warnings "-inexact-float,-register-all".
Local Open Scope string_scope.
Local Open Scope Z_scope.

(** ** Python basics *)

Inductive exn :=
| ValueError | TypeError | KeyError | IndexError | AttributeError
| ZeroDivisionError | OverflowError
| FileNotFoundError | FileExistsError | IsADirectoryError | JSONDecodeError
| UnicodeDecodeError
| Unsupported.
(** [Unsupported] is no Python exception: it marks the boundary of the
    embedding, an input on which the code's behaviour is not modelled. *)

Inductive result (A : Type) :=
| Ok (a : A)
| Raise (e : exn).
Arguments Ok {A} a.
Arguments Raise {A} e.

#[global] Instance result_ret : MRet result := @Ok.
#[global] Instance result_bind : MBind result := fun A B k r =>
  match r with
  | Ok a => k a
  | Raise e => Raise e
  end.

(** [max(a, b)] and [min(a, b)] on floats: the builtins keep their first
    argument unless the second one compares strictly greater (smaller). *)
Definition py_max (a b : float) : float := if (a <? b)%float then b else a.
Definition py_min (a b : float) : float := if (b <? a)%float then b else a.

(** The binary64 value nearest to an integer, ties to even. *)
Definition Z2F (n : Z) : float := SF2Prim (binary_normalize prec emax n 0 false).

(** [float(n)] for an int object: [OverflowError] when [n] is too large.
    The sizes Qt returns are C ints and always convert: for them the
    embedding uses [Z2F]. *)
Definition float_of_int (n : Z) : result float :=
  if PrimFloat.is_infinity (Z2F n) then Raise OverflowError else Ok (Z2F n).

(** A float as a condition ([if rotation:]): false on a zero only. *)
Definition float_truth (x : float) : bool := negb (x =? 0)%float.

(** [int(x)] for a float: truncation toward zero; [ValueError] on a NaN,
    [OverflowError] on an infinity. *)
Definition int_of_float (x : float) : result Z :=
  match Prim2SF x with
  | S754_zero _ => Ok 0
  | S754_nan => Raise ValueError
  | S754_infinity _ => Raise OverflowError
  | S754_finite s m e =>
      let a := if (0 <=? e) then Z.shiftl (Z.pos m) e else Z.shiftr (Z.pos m) (- e) in
      Ok (if s then - a else a)
  end.

(** [x / y] on floats raises on a zero divisor. *)
Definition float_truediv (x y : float) : result float :=
  if (y =? 0)%float then Raise ZeroDivisionError else Ok (x / y)%float.

(** [a / b] on ints (true division): the correctly rounded quotient.  For
    operands below 2^53 in absolute value, as pixel sizes and spin-box values
    are, both convert exactly and the quotient of the conversions is that
    value; larger operands are outside the embedding. *)
Definition int_truediv (a b : Z) : result float :=
  if b =? 0 then Raise ZeroDivisionError
  else if (Z.abs a <? 2 ^ 53) && (Z.abs b <? 2 ^ 53) then Ok (Z2F a / Z2F b)%float
  else Raise Unsupported.

(** *** Strings *)

(** The characters [str.strip] removes, among the code points below 256. *)
Definition is_space (c : ascii) : bool :=
  let n := N_of_ascii c in
  ((9 <=? n) && (n <=? 13) || (28 <=? n) && (n <=? 32) || (n =? 133) || (n =? 160))%N.

Fixpoint lstrip (s : string) : string :=
  match s with
  | "" => ""
  | String c rest => if is_space c then lstrip rest else s
  end.

Definition rstrip (s : string) : string := String.rev (lstrip (String.rev s)).

Definition strip (s : string) : string := rstrip (lstrip s).

Fixpoint whitespace_only (s : string) : bool :=
  match s with
  | "" => true
  | String c rest => is_space c && whitespace_only rest
  end.

(** [str.lower], on the code points below 256. *)
Definition lower_char (c : ascii) : ascii :=
  let n := N_of_ascii c in
  if ((65 <=? n) && (n <=? 90) || (192 <=? n) && (n <=? 222) && negb (n =? 215))%N
  then ascii_of_N (n + 32) else c.

Fixpoint lower (s : string) : string :=
  match s with
  | "" => ""
  | String c rest => String (lower_char c) (lower rest)
  end.

(** [str.upper], on the code points below 256: the sharp s becomes two
    letters, and the capitals of the micro sign and of the y with diaeresis
    lie beyond 255, outside the strings of this embedding. *)
Definition upper_char (c : ascii) : result string :=
  let n := N_of_ascii c in
  if ((97 <=? n) && (n <=? 122) || (224 <=? n) && (n <=? 254) && negb (n =? 247))%N
  then Ok (String (ascii_of_N (n - 32)) "")
  else if (n =? 223)%N then Ok "SS"
  else if ((n =? 181) || (n =? 255))%N then Raise Unsupported
  else Ok (String c "").

Fixpoint upper (s : string) : result string :=
  match s with
  | "" => Ok ""
  | String c rest =>
      first ← upper_char c;
      others ← upper rest;
      Ok (first +:+ others)
  end.

(** *** UTF-8

    [bytes.decode("utf-8")] and [str.encode("utf-8")]. *)

Definition continuation (b : ascii) : bool :=
  let n := N_of_ascii b in ((128 <=? n) && (n <=? 191))%N.

(** The second byte of a sequence of three or four has a narrower range
    after some first bytes: no overlong forms, no surrogates, nothing above
    U+10FFFF. *)
Definition second_byte (n0 : N) (b1 : ascii) : bool :=
  let n1 := N_of_ascii b1 in
  (if n0 =? 224 then (160 <=? n1) && (n1 <=? 191)
   else if n0 =? 237 then (128 <=? n1) && (n1 <=? 159)
   else if n0 =? 240 then (144 <=? n1) && (n1 <=? 191)
   else if n0 =? 244 then (128 <=? n1) && (n1 <=? 143)
   else continuation b1)%N.

(** The code points of a well-formed UTF-8 text; [None] where the decoder
    raises. *)
Fixpoint utf8_points (bytes : string) : option (list N) :=
  match bytes with
  | "" => Some []
  | String b0 rest =>
      let n0 := N_of_ascii b0 in
      if (n0 <? 128)%N then cons n0 <$> utf8_points rest
      else
        match rest with
        | "" => None
        | String b1 rest1 =>
            let n1 := (N_of_ascii b1 - 128)%N in
            if ((194 <=? n0) && (n0 <=? 223))%N then
              if continuation b1
              then cons ((n0 - 192) * 64 + n1)%N <$> utf8_points rest1
              else None
            else
              match rest1 with
              | "" => None
              | String b2 rest2 =>
                  let n2 := (N_of_ascii b2 - 128)%N in
                  if ((224 <=? n0) && (n0 <=? 239))%N then
                    if second_byte n0 b1 && continuation b2
                    then cons (((n0 - 224) * 64 + n1) * 64 + n2)%N <$> utf8_points rest2
                    else None
                  else
                    match rest2 with
                    | "" => None
                    | String b3 rest3 =>
                        let n3 := (N_of_ascii b3 - 128)%N in
                        if ((240 <=? n0) && (n0 <=? 244))%N && second_byte n0 b1
                           && continuation b2 && continuation b3
                        then cons ((((n0 - 240) * 64 + n1) * 64 + n2) * 64 + n3)%N
                               <$> utf8_points rest3
                        else None
                    end
              end
        end
  end.

(** A text with a code point beyond 255 is outside the strings of this
    embedding. *)
Definition utf8_decode (bytes : string) : result string :=
  match utf8_points bytes with
  | None => Raise UnicodeDecodeError
  | Some points =>
      if forallb (fun n => n <? 256)%N points
      then Ok (string_of_list_ascii (map ascii_of_N points))
      else Raise Unsupported
  end.

Fixpoint utf8_encode (s : string) : string :=
  match s with
  | "" => ""
  | String c rest =>
      let n := N_of_ascii c in
      if (n <? 128)%N then String c (utf8_encode rest)
      else String (ascii_of_N (192 + n / 64))
             (String (ascii_of_N (128 + n mod 64)) (utf8_encode rest))
  end.

(** Universal newlines, as a file opened for reading in text mode has
    them: a carriage return becomes a line feed, and a line feed that
    follows one is dropped. *)
Fixpoint newlines (after_return : bool) (s : string) : string :=
  match s with
  | "" => ""
  | String c rest =>
      if Ascii.eqb c "013" then String "010" (newlines true rest)
      else if Ascii.eqb c "010" && after_return then newlines false rest
      else String c (newlines false rest)
  end.

Definition universal_newlines (s : string) : string := newlines false s.

(** Split at the last occurrence of a character. *)
Fixpoint rsplit (c : ascii) (s : string) : option (string * string) :=
  match s with
  | "" => None
  | String a rest =>
      match rsplit c rest with
      | Some (l, r) => Some (String a l, r)
      | None => if Ascii.eqb a c then Some ("", rest) else None
      end
  end.

(** Does the character occur in the text? *)
Fixpoint occurs (c : ascii) (s : string) : bool :=
  match s with
  | "" => false
  | String a rest => Ascii.eqb a c || occurs c rest
  end.

(** *** Paths and the file system

    A [Path] object is its text, [str(path)], which is in [pathlib]'s
    normal form on POSIX.  [Path(s)] parses a text into that form and
    [dir / name] joins and parses; both are modelled in full, through the
    parser of [pathlib].  The file system is a finite map from the texts the
    code hands to the operating system to the nodes found there; a directory
    carries the identity ([st_dev], [st_ino]) that [samefile] compares. *)

Definition starts_slash (s : string) : bool :=
  match s with
  | String c _ => Ascii.eqb c "/"
  | "" => false
  end.

Fixpoint ends_slash (s : string) : bool :=
  match s with
  | "" => false
  | String c "" => Ascii.eqb c "/"
  | String _ rest => ends_slash rest
  end.

Definition behead (s : string) : string :=
  match s with
  | String _ rest => rest
  | "" => ""
  end.

(** [posixpath.splitroot]: the root is a slash, or two when the text
    starts with exactly two. *)
Definition path_root (s : string) : string :=
  if starts_slash s then
    if starts_slash (behead s) && negb (starts_slash (behead (behead s))) then "//"
    else "/"
  else "".

(** [s.split("/")] *)
Fixpoint split_slash (s : string) : list string :=
  match s with
  | "" => [""]
  | String c rest =>
      if Ascii.eqb c "/" then "" :: split_slash rest
      else
        match split_slash rest with
        | first :: others => String c first :: others
        | [] => [String c ""]
        end
  end.

(** The parts [pathlib] keeps: neither empty nor a single dot. *)
Definition path_parts (s : string) : list string :=
  filter (fun part => part <> "" /\ part <> ".") (split_slash s).

(** ["/".join(parts)] *)
Fixpoint join_slash (parts : list string) : string :=
  match parts with
  | [] => ""
  | [part] => part
  | part :: others => part +:+ "/" +:+ join_slash others
  end.

(** [str(path)] of a path with this root and these parts. *)
Definition path_str (root : string) (parts : list string) : string :=
  if bool_decide (root = "") && bool_decide (parts = []) then "."
  else root +:+ join_slash parts.

(** [str(Path(s))]: the normal form of a text. *)
Definition Path (s : string) : string := path_str (path_root s) (path_parts s).

(** [posixpath.join(a, b)] *)
Definition posix_join (a b : string) : string :=
  if starts_slash b then b
  else if bool_decide (a = "") || ends_slash a then a +:+ b
  else a +:+ "/" +:+ b.

(** [dir / name]: the two are joined, and the text is parsed. *)
Definition joinpath (dir name : string) : string := Path (posix_join dir name).

(** The text after the last slash. *)
Definition tail_of (s : string) : string :=
  match rsplit "/" s with
  | Some (_, name) => name
  | None => s
  end.

(** A single name: what [pathlib] keeps as one part. *)
Definition single_name (name : string) : Prop :=
  occurs "/" name = false /\ name <> "" /\ name <> ".".

(** [path.name]: the last part; the path [.] has none. *)
Definition path_name (p : string) : string :=
  if bool_decide (p = ".") then ""
  else
    match rsplit "/" p with
    | Some (_, name) => name
    | None => p
    end.

(** [path.parent] *)
Definition path_parent (p : string) : string :=
  match rsplit "/" p with
  | Some (dir, _) =>
      if bool_decide (dir = "") then "/"
      else if bool_decide (dir = "/") then "//"
      else dir
  | None => "."
  end.

(** [Path.stem]: the final component without its last suffix; a leading or
    a trailing dot starts no suffix. *)
Definition path_stem (p : string) : string :=
  let name := path_name p in
  match rsplit "." name with
  | Some (l, r) => if bool_decide (l = "") || bool_decide (r = "") then name else l
  | None => name
  end.

Inductive node :=
| Directory (ident : N)
| RegularFile (bytes : string).

Abbreviation FileSystem := (gmap string node).

Definition path_exists (fs : FileSystem) (p : string) : bool :=
  bool_decide (is_Some (fs !! p)).

(** [a.samefile(b)]: both paths are looked up, a missing one raises.  Two
    directories are the same location when their identities agree; a regular
    file is only the same as itself. *)
Definition samefile (fs : FileSystem) (a b : string) : result bool :=
  match fs !! a, fs !! b with
  | Some (Directory i), Some (Directory j) => Ok (i =? j)%N
  | Some (RegularFile _), Some (RegularFile _) => Ok (bool_decide (a = b))
  | Some _, Some _ => Ok false
  | _, _ => Raise FileNotFoundError
  end.

(** [path.read_text(encoding="utf-8")]: the bytes are decoded, and the
    text mode of [open] translates the newlines. *)
Definition read_text (fs : FileSystem) (p : string) : result string :=
  match fs !! p with
  | Some (RegularFile bytes) =>
      text ← utf8_decode bytes;
      Ok (universal_newlines text)
  | Some (Directory _) => Raise IsADirectoryError
  | None => Raise FileNotFoundError
  end.

(** [path.write_text(content, encoding="utf-8")] into a directory that
    exists: the store and the template manager make theirs when they are
    constructed.  On POSIX a line feed is written as it is. *)
Definition write_text (fs : FileSystem) (p content : string) : result FileSystem :=
  match fs !! p with
  | Some (Directory _) => Raise IsADirectoryError
  | _ => Ok (<[p := RegularFile (utf8_encode content)]> fs)
  end.

Definition unlink (fs : FileSystem) (p : string) : result FileSystem :=
  match fs !! p with
  | Some (RegularFile _) => Ok (delete p fs)
  | Some (Directory _) => Raise IsADirectoryError
  | None => Raise FileNotFoundError
  end.

(** *** Dynamically typed values: what a [Dict[str, Any]] holds *)

Inductive pyval :=
| PyNone
| PyBool (b : bool)
| PyInt (n : Z)
| PyFloat (x : float)
| PyStr (s : string)
| PyList (items : list pyval)
| PyTuple (items : list pyval)
| PyDict (d : gmap string pyval).

(** [d.get(key, default)] *)
Definition dict_get (d : gmap string pyval) (key : string) (default : pyval) : pyval :=
  match d !! key with
  | Some v => v
  | None => default
  end.

(** [bool(v)]: the truth value of an object. *)
Definition py_bool (v : pyval) : bool :=
  match v with
  | PyNone => false
  | PyBool b => b
  | PyInt n => negb (n =? 0)
  | PyFloat x => negb (x =? 0)%float
  | PyStr s => negb (bool_decide (s = ""))
  | PyList items | PyTuple items => negb (bool_decide (items = []))
  | PyDict d => negb (bool_decide (d = ∅))
  end.

(** [float(v)] *)
Definition py_float (v : pyval) : result float :=
  match v with
  | PyFloat x => Ok x
  | PyInt n => float_of_int n
  | PyBool b => Ok (if b then 1 else 0)%float
  | PyStr _ => Raise Unsupported
  | _ => Raise TypeError
  end.

(** [int(v)] *)
Definition py_int (v : pyval) : result Z :=
  match v with
  | PyInt n => Ok n
  | PyBool b => Ok (if b then 1 else 0)
  | PyFloat x => int_of_float x
  | PyStr _ => Raise Unsupported
  | _ => Raise TypeError
  end.

(** [seq[i]] on a list *)
Definition py_index (items : list pyval) (i : nat) : result pyval :=
  match items !! i with
  | Some v => Ok v
  | None => Raise IndexError
  end.

(** A field annotated as a tuple holds the sequence it was given: a tuple,
    or the list that a dictionary which went through JSON has in its place.
    The two compare unequal. *)
Inductive pyseq (A : Type) :=
| AsTuple (items : A)
| AsList (items : A).
Arguments AsTuple {A} items.
Arguments AsList {A} items.

Definition seq_items {A} (s : pyseq A) : A :=
  match s with AsTuple items | AsList items => items end.

Definition seq_value {A} (values : A -> list pyval) (s : pyseq A) : pyval :=
  match s with
  | AsTuple items => PyTuple (values items)
  | AsList items => PyList (values items)
  end.

(** The dataclasses below are typed records.  [cls] called on the keywords
    of a dictionary stores whatever the dictionary holds; a value whose
    dynamic type is not the annotated type of its field (a list for a tuple
    apart) has no counterpart in the record, and the casts report it as
    [Unsupported]. *)
Definition as_str (v : pyval) : result string :=
  match v with PyStr s => Ok s | _ => Raise Unsupported end.
Definition as_opt_str (v : pyval) : result (option string) :=
  match v with PyNone => Ok None | PyStr s => Ok (Some s) | _ => Raise Unsupported end.
Definition as_int (v : pyval) : result Z :=
  match v with PyInt n => Ok n | _ => Raise Unsupported end.
Definition as_opt_int (v : pyval) : result (option Z) :=
  match v with PyNone => Ok None | PyInt n => Ok (Some n) | _ => Raise Unsupported end.
Definition as_bool (v : pyval) : result bool :=
  match v with PyBool b => Ok b | _ => Raise Unsupported end.
Definition as_float (v : pyval) : result float :=
  match v with PyFloat x => Ok x | _ => Raise Unsupported end.
Definition as_int2 (v : pyval) : result (pyseq (Z * Z)) :=
  match v with
  | PyTuple [PyInt a; PyInt b] => Ok (AsTuple (a, b))
  | PyList [PyInt a; PyInt b] => Ok (AsList (a, b))
  | _ => Raise Unsupported
  end.
Definition as_int4 (v : pyval) : result (pyseq (Z * Z * Z * Z)) :=
  match v with
  | PyTuple [PyInt a; PyInt b; PyInt c; PyInt d] => Ok (AsTuple (a, b, c, d))
  | PyList [PyInt a; PyInt b; PyInt c; PyInt d] => Ok (AsList (a, b, c, d))
  | _ => Raise Unsupported
  end.

(** One keyword argument of the call of [cls]: the value under [key], or
    the field's default. *)
Definition kwarg {A} (data : gmap string pyval) (key : string)
    (cast : pyval -> result A) (default : A) : result A :=
  match data !! key with
  | Some v => cast v
  | None => Ok default
  end.

(** The call of [cls] raises [TypeError] on a keyword that is no field. *)
Definition only_fields (fields : list string) (data : gmap string pyval) : bool :=
  forallb (fun k => bool_decide (k ∈ fields)) (map fst (map_to_list data)).

(** A nested state passed to a [from_dict] has to be a dictionary: keyword
    unpacking raises [TypeError] on anything else, [data.get] raises
    [AttributeError]. *)
Definition nested {A} (e : exn) (from : gmap string pyval -> result A) (v : pyval)
    : result A :=
  match v with
  | PyDict d => from d
  | _ => Raise e
  end.

(** ** [watermark_settings.py]: the anchor enumeration *)

Inductive WatermarkAnchor :=
| TOP_LEFT | TOP_CENTER | TOP_RIGHT
| CENTER_LEFT | CENTER | CENTER_RIGHT
| BOTTOM_LEFT | BOTTOM_CENTER | BOTTOM_RIGHT.

Definition all_anchors : list WatermarkAnchor :=
  [TOP_LEFT; TOP_CENTER; TOP_RIGHT; CENTER_LEFT; CENTER; CENTER_RIGHT;
   BOTTOM_LEFT; BOTTOM_CENTER; BOTTOM_RIGHT].

#[global] Instance WatermarkAnchor_eq_dec : EqDecision WatermarkAnchor.
Proof. solve_decision. Defined.

(** The [str] value of each member. *)
Definition anchor_value (a : WatermarkAnchor) : string :=
  match a with
  | TOP_LEFT => "top_left" | TOP_CENTER => "top_center" | TOP_RIGHT => "top_right"
  | CENTER_LEFT => "center_left" | CENTER => "center" | CENTER_RIGHT => "center_right"
  | BOTTOM_LEFT => "bottom_left" | BOTTOM_CENTER => "bottom_center"
  | BOTTOM_RIGHT => "bottom_right"
  end.

(** [WatermarkAnchor(value)]: the member with that value, else [ValueError]. *)
Definition anchor_of_value (s : string) : result WatermarkAnchor :=
  match find (fun a => bool_decide (anchor_value a = s)) all_anchors with
  | Some a => Ok a
  | None => Raise ValueError
  end.

Inductive WatermarkType := TEXT | IMAGE.

#[global] Instance WatermarkType_eq_dec : EqDecision WatermarkType.
Proof. solve_decision. Defined.

Definition type_value (t : WatermarkType) : string :=
  match t with TEXT => "text" | IMAGE => "image" end.

Definition type_of_value (s : string) : result WatermarkType :=
  match find (fun t => bool_decide (type_value t = s)) [TEXT; IMAGE] with
  | Some t => Ok t
  | None => Raise ValueError
  end.

(** [Enum(value)] on a dynamically typed value: only a [str] can be the
    value of a member. *)
Definition enum_lookup {A} (of_value : string -> result A) (v : pyval) : result A :=
  match v with
  | PyStr s => of_value s
  | _ => Raise ValueError
  end.

Definition Color : Type := Z * Z * Z * Z.

Module TextWatermarkSettings.
Record t := mk {
  text : string;
  font_family : string;
  font_size : Z;
  bold : bool;
  italic : bool;
  color : pyseq Color;
  opacity : Z;
  shadow_enabled : bool;
  outline_enabled : bool;
  outline_width : Z;
  shadow_offset : pyseq (Z * Z);
}.

Definition default : t :=
  mk "Watermark" "Arial" 32 false false (AsTuple (255, 255, 255, 255)) 80 false false 2
     (AsTuple (2, 2)).

Definition fields : list string :=
  ["text"; "font_family"; "font_size"; "bold"; "italic"; "color"; "opacity";
   "shadow_enabled"; "outline_enabled"; "outline_width"; "shadow_offset"].

Definition color_items (c : Color) : list pyval :=
  let '(r, g, b, a) := c in [PyInt r; PyInt g; PyInt b; PyInt a].

Definition offset_items (o : Z * Z) : list pyval := [PyInt (fst o); PyInt (snd o)].

(** [asdict(self)]: a tuple is copied as a tuple, a list as a list. *)
Definition to_dict (self : t) : gmap string pyval :=
  list_to_map
    [("text", PyStr (text self));
     ("font_family", PyStr (font_family self));
     ("font_size", PyInt (font_size self));
     ("bold", PyBool (bold self));
     ("italic", PyBool (italic self));
     ("color", seq_value color_items (color self));
     ("opacity", PyInt (opacity self));
     ("shadow_enabled", PyBool (shadow_enabled self));
     ("outline_enabled", PyBool (outline_enabled self));
     ("outline_width", PyInt (outline_width self));
     ("shadow_offset", seq_value offset_items (shadow_offset self))].

(** [cls] called with the items of [data] as keywords *)
Definition from_dict (data : gmap string pyval) : result t :=
  if only_fields fields data then
    text ← kwarg data "text" as_str (text default);
    font_family ← kwarg data "font_family" as_str (font_family default);
    font_size ← kwarg data "font_size" as_int (font_size default);
    bold ← kwarg data "bold" as_bool (bold default);
    italic ← kwarg data "italic" as_bool (italic default);
    color ← kwarg data "color" as_int4 (color default);
    opacity ← kwarg data "opacity" as_int (opacity default);
    shadow_enabled ← kwarg data "shadow_enabled" as_bool (shadow_enabled default);
    outline_enabled ← kwarg data "outline_enabled" as_bool (outline_enabled default);
    outline_width ← kwarg data "outline_width" as_int (outline_width default);
    shadow_offset ← kwarg data "shadow_offset" as_int2 (shadow_offset default);
    Ok (mk text font_family font_size bold italic color opacity shadow_enabled
           outline_enabled outline_width shadow_offset)
  else Raise TypeError.
End TextWatermarkSettings.

Module ImageWatermarkSettings.
Record t := mk {
  image_path : option string;
  scale : float;
  opacity : Z;
}.

Definition default : t := mk None 0.25%float 70.

Definition fields : list string := ["image_path"; "scale"; "opacity"].

(** [asdict(self)] *)
Definition to_dict (self : t) : gmap string pyval :=
  list_to_map
    [("image_path", match image_path self with Some p => PyStr p | None => PyNone end);
     ("scale", PyFloat (scale self));
     ("opacity", PyInt (opacity self))].

(** [cls] called with the items of [data] as keywords *)
Definition from_dict (data : gmap string pyval) : result t :=
  if only_fields fields data then
    image_path ← kwarg data "image_path" as_opt_str (image_path default);
    scale ← kwarg data "scale" as_float (scale default);
    opacity ← kwarg data "opacity" as_int (opacity default);
    Ok (mk image_path scale opacity)
  else Raise TypeError.
End ImageWatermarkSettings.

Module WatermarkLayout.
Record t := mk {
  position : float * float;
  anchor : WatermarkAnchor;
}.

Definition default : t := mk (0.5, 0.5)%float CENTER.

Definition to_dict (self : t) : gmap string pyval :=
  list_to_map
    [("position", PyList [PyFloat (fst (position self)); PyFloat (snd (position self))]);
     ("anchor", PyStr (anchor_value (anchor self)))].

Definition from_dict (data : gmap string pyval) : result t :=
  let position_data := dict_get data "position" (PyTuple [PyFloat 0.5; PyFloat 0.5]) in
  position ←
    match position_data with
    | PyList items =>
        v0 ← py_index items 0; x ← py_float v0;
        v1 ← py_index items 1; y ← py_float v1;
        Ok (x, y)
    | PyTuple [PyFloat x; PyFloat y] => Ok (x, y)
    | _ => Raise Unsupported
    end;
  let anchor_value := dict_get data "anchor" (PyStr (anchor_value CENTER)) in
  anchor ← enum_lookup anchor_of_value anchor_value;
  Ok (mk position anchor).
End WatermarkLayout.

Module WatermarkSettings.
Record t := mk {
  watermark_type : WatermarkType;
  text_settings : TextWatermarkSettings.t;
  image_settings : ImageWatermarkSettings.t;
  rotation : float;
  layout : WatermarkLayout.t;
}.

Definition default : t :=
  mk TEXT TextWatermarkSettings.default ImageWatermarkSettings.default 0%float
     WatermarkLayout.default.

Definition to_dict (self : t) : gmap string pyval :=
  list_to_map
    [("watermark_type", PyStr (type_value (watermark_type self)));
     ("text_settings", PyDict (TextWatermarkSettings.to_dict (text_settings self)));
     ("image_settings", PyDict (ImageWatermarkSettings.to_dict (image_settings self)));
     ("rotation", PyFloat (rotation self));
     ("layout", PyDict (WatermarkLayout.to_dict (layout self)))].

Definition from_dict (data : gmap string pyval) : result t :=
  watermark_type ←
    enum_lookup type_of_value (dict_get data "watermark_type" (PyStr (type_value TEXT)));
  text_settings ←
    nested TypeError TextWatermarkSettings.from_dict
    (dict_get data "text_settings" (PyDict ∅));
  image_settings ←
    nested TypeError ImageWatermarkSettings.from_dict
    (dict_get data "image_settings" (PyDict ∅));
  rotation ← py_float (dict_get data "rotation" (PyFloat 0));
  layout ← nested AttributeError WatermarkLayout.from_dict
            (dict_get data "layout" (PyDict ∅));
  Ok (mk watermark_type text_settings image_settings rotation layout).
End WatermarkSettings.

(** ** [export_settings.py] *)

Inductive ExportNamingMode := KEEP_ORIGINAL | PREFIX | SUFFIX.

Inductive ResizeMode := NONE | WIDTH | HEIGHT | PERCENT.

#[global] Instance ExportNamingMode_eq_dec : EqDecision ExportNamingMode.
Proof. solve_decision. Defined.

#[global] Instance ResizeMode_eq_dec : EqDecision ResizeMode.
Proof. solve_decision. Defined.

Definition naming_value (m : ExportNamingMode) : string :=
  match m with KEEP_ORIGINAL => "keep" | PREFIX => "prefix" | SUFFIX => "suffix" end.

Definition naming_of_value (s : string) : result ExportNamingMode :=
  match find (fun m => bool_decide (naming_value m = s)) [KEEP_ORIGINAL; PREFIX; SUFFIX] with
  | Some m => Ok m
  | None => Raise ValueError
  end.

Definition resize_value_of (m : ResizeMode) : string :=
  match m with
  | NONE => "none" | WIDTH => "width" | HEIGHT => "height" | PERCENT => "percent"
  end.

Definition resize_of_value (s : string) : result ResizeMode :=
  match find (fun m => bool_decide (resize_value_of m = s)) [NONE; WIDTH; HEIGHT; PERCENT] with
  | Some m => Ok m
  | None => Raise ValueError
  end.

Module ExportSettings.
Record t := mk {
  output_format : string;
  output_dir : option string;
  naming_mode : ExportNamingMode;
  custom_prefix : string;
  custom_suffix : string;
  prevent_overwrite : bool;
  jpeg_quality : Z;
  resize_mode : ResizeMode;
  resize_value : option Z;
}.

Definition default : t := mk "png" None SUFFIX "wm_" "_watermarked" true 90 NONE None.

Definition to_dict (self : t) : gmap string pyval :=
  list_to_map
    [("output_format", PyStr (output_format self));
     ("output_dir", match output_dir self with Some d => PyStr d | None => PyNone end);
     ("naming_mode", PyStr (naming_value (naming_mode self)));
     ("custom_prefix", PyStr (custom_prefix self));
     ("custom_suffix", PyStr (custom_suffix self));
     ("prevent_overwrite", PyBool (prevent_overwrite self));
     ("jpeg_quality", PyInt (jpeg_quality self));
     ("resize_mode", PyStr (resize_value_of (resize_mode self)));
     ("resize_value", match resize_value self with Some v => PyInt v | None => PyNone end)].

Definition from_dict (data : gmap string pyval) : result t :=
  output_format ← as_str (dict_get data "output_format" (PyStr "png"));
  output_dir ← as_opt_str (dict_get data "output_dir" PyNone);
  naming_mode ←
    enum_lookup naming_of_value (dict_get data "naming_mode" (PyStr (naming_value SUFFIX)));
  custom_prefix ← as_str (dict_get data "custom_prefix" (PyStr "wm_"));
  custom_suffix ← as_str (dict_get data "custom_suffix" (PyStr "_watermarked"));
  let prevent_overwrite := py_bool (dict_get data "prevent_overwrite" (PyBool true)) in
  jpeg_quality ← py_int (dict_get data "jpeg_quality" (PyInt 90));
  resize_mode ←
    enum_lookup resize_of_value (dict_get data "resize_mode" (PyStr (resize_value_of NONE)));
  resize_value ← as_opt_int (dict_get data "resize_value" PyNone);
  Ok (mk output_format output_dir naming_mode custom_prefix custom_suffix
         prevent_overwrite jpeg_quality resize_mode resize_value).
End ExportSettings.

(** ** [image_manager.py] *)

Record ImageItem := { path : string }.

(** ** [utils.py] *)

Definition clamp (value min_value max_value : float) : float :=
  py_max min_value (py_min max_value value).

Definition anchor_to_position (anchor : WatermarkAnchor) : float * float :=
  match anchor with
  | TOP_LEFT => (0.0, 0.0)
  | TOP_CENTER => (0.5, 0.0)
  | TOP_RIGHT => (1.0, 0.0)
  | CENTER_LEFT => (0.0, 0.5)
  | CENTER => (0.5, 0.5)
  | CENTER_RIGHT => (1.0, 0.5)
  | BOTTOM_LEFT => (0.0, 1.0)
  | BOTTOM_CENTER => (0.5, 1.0)
  | BOTTOM_RIGHT => (1.0, 1.0)
  end%float.

(** The [grid] dictionary of [nearest_anchor], keyed by the two buckets. *)
Definition grid : gmap (Z * Z) WatermarkAnchor :=
  <[(0, 0) := TOP_LEFT]> (<[(1, 0) := TOP_CENTER]> (<[(2, 0) := TOP_RIGHT]> (
  <[(0, 1) := CENTER_LEFT]> (<[(1, 1) := CENTER]> (<[(2, 1) := CENTER_RIGHT]> (
  <[(0, 2) := BOTTOM_LEFT]> (<[(1, 2) := BOTTOM_CENTER]> (<[(2, 2) := BOTTOM_RIGHT]>
  ∅)))))))).

Definition bucket (x : float) : Z :=
  if (x <? 0.33)%float then 0 else if (x <=? 0.66)%float then 1 else 2.

Definition nearest_anchor (position : float * float) : result WatermarkAnchor :=
  let '(x, y) := position in
  let x_bucket := bucket x in
  let y_bucket := bucket y in
  match grid !! (x_bucket, y_bucket) with
  | Some a => Ok a
  | None => Raise KeyError
  end.

(** ** Qt

    The rasters and what Qt does with them are collaborators of the core:
    they are the variables of this section, which runs to the end of the
    development. *)

Section Core.

Set Default Proof Using "Type".

Context {QPixmap QImage : Type}.

(** The truth value of a [QPixmap] object, as the binding defines it. *)
Variable pixmap_truth : QPixmap -> bool.
Variable pixmap_width pixmap_height : QPixmap -> Z.
Variable image_width image_height : QImage -> Z.

(** [QPixmap(path)] on the bytes of a file; [None] is the null pixmap. *)
Variable decode : string -> option QPixmap.
(** [QImageReader.read] with auto-transform, then [QPixmap.fromImage]. *)
Variable read_image : string -> option QPixmap.
(** Lines 39 to 72 of [_build_text_watermark]: font, metrics, the
    transparent image and the painted path (shadow, fill, outline). *)
Variable paint_text : TextWatermarkSettings.t -> QPixmap.
(** [pixmap.transformed(transform, Qt.SmoothTransformation)] for the
    rotation by the given angle. *)
Variable transformed : QPixmap -> float -> QPixmap.
Variable scaledToWidth : QPixmap -> Z -> QPixmap.
(** [toImage], a [DestinationIn] fill with [QColor(0, 0, 0, alpha)],
    [fromImage]. *)
Variable fade : QPixmap -> Z -> QPixmap.
(** [painter.drawPixmap(point, pixmap)] on an image, antialiasing on. *)
Variable drawPixmap : QImage -> float * float -> QPixmap -> QImage.
Variable toImage : QPixmap -> QImage.
(** [image.scaled(w, h, Qt.KeepAspectRatio, Qt.SmoothTransformation)] *)
Variable scaled : QImage -> Z -> Z -> QImage.
(** The bytes [QImage.save] writes for a format name and a quality;
    [None] when the encoder refuses. *)
Variable encode : QImage -> string -> option Z -> option string.

(** ** [watermark_renderer.py] *)

Record WatermarkRenderResult := {
  pixmap : option QPixmap;
  size : Z * Z;
}.

(** [QSize()], the invalid size. *)
Definition QSize_null : Z * Z := (-1, -1).

Definition _build_text_watermark (base_size : Z * Z)
    (settings : TextWatermarkSettings.t) (rotation : float) : option QPixmap :=
  if bool_decide (strip (TextWatermarkSettings.text settings) = "") then None
  else
    let pixmap := paint_text settings in
    Some (if float_truth rotation then transformed pixmap rotation else pixmap).

Definition _build_image_watermark (fs : FileSystem) (base_size : Z * Z)
    (settings : ImageWatermarkSettings.t) (rotation : float)
    : result (option QPixmap) :=
  match ImageWatermarkSettings.image_path settings with
  | None => Ok None
  | Some image_path =>
      if bool_decide (image_path = "") then Ok None
      else
        let path := Path image_path in
        if negb (path_exists fs path) then Ok None
        else
          match (match fs !! path with
                 | Some (RegularFile bytes) => decode bytes
                 | _ => None
                 end) with
          | None => Ok None
          | Some pixmap =>
              n ← int_of_float
                    (Z2F (fst base_size) * ImageWatermarkSettings.scale settings)%float;
              let target_width := Z.max 1 n in
              let scaled := scaledToWidth pixmap target_width in
              let scaled :=
                if float_truth rotation then transformed scaled rotation else scaled in
              if ImageWatermarkSettings.opacity settings <? 100 then
                opacity ← float_of_int (ImageWatermarkSettings.opacity settings);
                alpha ← int_of_float (255 * (opacity / 100))%float;
                Ok (Some (fade scaled alpha))
              else Ok (Some scaled)
          end
  end.

Definition build_watermark (fs : FileSystem) (base_size : Z * Z)
    (settings : WatermarkSettings.t) : result WatermarkRenderResult :=
  pixmap ←
    (if bool_decide (WatermarkSettings.watermark_type settings = TEXT) then
       Ok (_build_text_watermark base_size (WatermarkSettings.text_settings settings)
             (WatermarkSettings.rotation settings))
     else
       _build_image_watermark fs base_size (WatermarkSettings.image_settings settings)
         (WatermarkSettings.rotation settings));
  match pixmap with
  | None => Ok {| pixmap := None; size := QSize_null |}
  | Some pm => Ok {| pixmap := Some pm; size := (pixmap_width pm, pixmap_height pm) |}
  end.

(** [QImage] objects live in a store, keyed by identity.  [apply_watermark]
    receives the identity of the base image and returns the identity of a
    new object together with the store it leaves. *)
Definition apply_watermark (fs : FileSystem) (images : gmap positive QImage)
    (base_image : positive) (settings : WatermarkSettings.t)
    (position anchor_ratio : float * float)
    : result (positive * gmap positive QImage) :=
  match images !! base_image with
  | None => Raise Unsupported
  | Some pixels =>
      let result := fresh (dom images) in
      let images := <[result := pixels]> images in
      render_result ← build_watermark fs (image_width pixels, image_height pixels) settings;
      match pixmap render_result with
      | Some watermark =>
          if pixmap_truth watermark then
            let offset_x := (Z2F (pixmap_width watermark) * fst anchor_ratio)%float in
            let offset_y := (Z2F (pixmap_height watermark) * snd anchor_ratio)%float in
            let draw_point :=
              (fst position - offset_x, snd position - offset_y)%float in
            Ok (result,
                alter (fun painted => drawPixmap painted draw_point watermark) result images)
          else Ok (result, images)
      | None => Ok (result, images)
      end
  end.

(** The image a call leaves, for a caller that holds the base image alone. *)
Definition watermarked (fs : FileSystem) (image : QImage)
    (settings : WatermarkSettings.t) (position anchor_ratio : float * float)
    : result QImage :=
  '(result, images) ← apply_watermark fs {[1%positive := image]} 1%positive settings
                         position anchor_ratio;
  match images !! result with
  | Some out => Ok out
  | None => Raise Unsupported
  end.

(** ** [image_manager.py]: loading *)

Definition load_pixmap (fs : FileSystem) (p : string) : option QPixmap :=
  match fs !! p with
  | Some (RegularFile bytes) => read_image bytes
  | _ => None
  end.

(** ** [main_window.py]: export *)

(** What the window shows. *)
Inductive message :=
| WarnMissingOutputDir
| WarnInvalidOutputDir
| StatusExportDone (success_count : Z).

Definition _resize_image (export_settings : ExportSettings.t) (image : QImage)
    : result QImage :=
  let mode := ExportSettings.resize_mode export_settings in
  let value :=
    match ExportSettings.resize_value export_settings with
    | Some v => if v =? 0 then 0 else v
    | None => 0
    end in
  if bool_decide (mode = NONE) || (value <=? 0) then Ok image
  else
    let width := image_width image in
    let height := image_height image in
    new_size ←
      match mode with
      | WIDTH =>
          let new_width := value in
          ratio ← int_truediv new_width width;
          new_height ← int_of_float (Z2F height * ratio)%float;
          Ok (Some (new_width, new_height))
      | HEIGHT =>
          let new_height := value in
          ratio ← int_truediv new_height height;
          new_width ← int_of_float (Z2F width * ratio)%float;
          Ok (Some (new_width, new_height))
      | PERCENT =>
          value_f ← float_of_int value;
          let scale := (value_f / 100)%float in
          new_width ← int_of_float (Z2F width * scale)%float;
          new_height ← int_of_float (Z2F height * scale)%float;
          Ok (Some (new_width, new_height))
      | NONE => Ok None
      end;
    match new_size with
    | None => Ok image
    | Some (new_width, new_height) =>
        let new_width := Z.max 1 new_width in
        let new_height := Z.max 1 new_height in
        Ok (scaled image new_width new_height)
    end.

(** The [while target.exists()] loop.  [fuel] bounds the number of times
    the body runs; [None] stands for a loop that has not stopped by then. *)
Fixpoint next_free (fs : FileSystem) (candidate : Z -> string) (fuel : nat)
    (target : string) (counter : Z) : option string :=
  if path_exists fs target then
    match fuel with
    | O => None
    | S fuel => next_free fs candidate fuel (candidate counter) (counter + 1)
    end
  else Some target.

Definition output_stem (export_settings : ExportSettings.t) (source : string) : string :=
  let stem := path_stem source in
  match ExportSettings.naming_mode export_settings with
  | PREFIX => ExportSettings.custom_prefix export_settings +:+ stem
  | SUFFIX => stem +:+ ExportSettings.custom_suffix export_settings
  | KEEP_ORIGINAL => stem
  end.

Definition output_extension (export_settings : ExportSettings.t) : string :=
  if bool_decide (lower (ExportSettings.output_format export_settings) = "png")
  then ".png" else ".jpg".

(** The body of the loop runs once per existing path it meets, and the
    numbered candidates are distinct: one more than the number of nodes of
    the file system is fuel enough (see [next_free_enough]). *)
Definition _determine_output_path (export_settings : ExportSettings.t)
    (fs : FileSystem) (source output_dir : string) : option string :=
  let stem := output_stem export_settings source in
  let extension := output_extension export_settings in
  let target := joinpath output_dir (stem +:+ extension) in
  next_free fs
    (fun counter => joinpath output_dir (stem +:+ "_" +:+ pretty counter +:+ extension))
    (S (base.size fs)) target 1.

(** [QImage.save(path, format, quality)]: nothing is written when the
    encoder refuses or the path is a directory; the caller does not look at
    the returned flag. *)
Definition save (fs : FileSystem) (image : QImage) (p format : string)
    (quality : option Z) : FileSystem :=
  match encode image format quality, fs !! p with
  | Some bytes, Some (RegularFile _) | Some bytes, None => <[p := RegularFile bytes]> fs
  | _, _ => fs
  end.

(** The first loop of [_export_images]: does the output directory collide
    with the directory of an item? *)
Fixpoint colliding (fs : FileSystem) (output_dir : string) (items : list ImageItem)
    : result bool :=
  match items with
  | [] => Ok false
  | item :: rest =>
      same ← samefile fs output_dir (path_parent (path item));
      if same : bool then Ok true else colliding fs output_dir rest
  end.

(** One turn of the second loop: the file system it leaves and the path it
    called [save] on, if it got that far. *)
Definition export_item (watermark_settings : WatermarkSettings.t)
    (export_settings : ExportSettings.t) (fs : FileSystem) (output_dir : string)
    (item : ImageItem) : result (FileSystem * option string) :=
  match _determine_output_path export_settings fs (path item) output_dir with
  | None => Ok (fs, None)
  | Some result_path =>
      match load_pixmap fs (path item) with
      | None => Ok (fs, None)
      | Some base_image =>
          if negb (pixmap_truth base_image) then Ok (fs, None)
          else
            let image := toImage base_image in
            image ← _resize_image export_settings image;
            let layout := WatermarkSettings.layout watermark_settings in
            let position :=
              (fst (WatermarkLayout.position layout) * Z2F (image_width image),
               snd (WatermarkLayout.position layout) * Z2F (image_height image))%float in
            let anchor := anchor_to_position (WatermarkLayout.anchor layout) in
            result_image ← watermarked fs image watermark_settings position anchor;
            format_name ← upper (ExportSettings.output_format export_settings);
            if bool_decide (format_name ∈ ["JPG"; "JPEG"]) then
              let quality :=
                Z.max 0 (Z.min 100 (ExportSettings.jpeg_quality export_settings)) in
              Ok (save fs result_image result_path format_name (Some quality),
                  Some result_path)
            else Ok (save fs result_image result_path format_name None, Some result_path)
      end
  end.

Fixpoint export_loop (watermark_settings : WatermarkSettings.t)
    (export_settings : ExportSettings.t) (output_dir : string)
    (items : list ImageItem) (fs : FileSystem) (saves : list string)
    : result (FileSystem * list string) :=
  match items with
  | [] => Ok (fs, saves)
  | item :: rest =>
      '(fs, saved) ← export_item watermark_settings export_settings fs output_dir item;
      export_loop watermark_settings export_settings output_dir rest fs
        (saves ++ option_list saved)
  end.

(** What a call of [_export_images] leaves: the file system, the paths
    [QImage.save] was called on, in order (the success count is their
    number), and what the window showed. *)
Record ExportOutcome := {
  fs_after : FileSystem;
  saves : list string;
  shown : list message;
}.

(** [output_dir.mkdir(parents=True, exist_ok=True)] *)
Variable mkdir : FileSystem -> string -> result FileSystem.

Definition _export_images (watermark_settings : WatermarkSettings.t)
    (export_settings : ExportSettings.t) (fs : FileSystem) (items : list ImageItem)
    : result ExportOutcome :=
  match ExportSettings.output_dir export_settings with
  | None => Ok {| fs_after := fs; saves := []; shown := [WarnMissingOutputDir] |}
  | Some dir =>
      if bool_decide (dir = "") then
        Ok {| fs_after := fs; saves := []; shown := [WarnMissingOutputDir] |}
      else
        let output_dir := Path dir in
        fs ← mkdir fs output_dir;
        collision ←
          (if ExportSettings.prevent_overwrite export_settings
           then colliding fs output_dir items else Ok false);
        if collision : bool then
          Ok {| fs_after := fs; saves := []; shown := [WarnInvalidOutputDir] |}
        else
          '(fs, saves) ←
            export_loop watermark_settings export_settings output_dir items fs [];
          Ok {| fs_after := fs; saves := saves;
                shown := [StatusExportDone (Z.of_nat (length saves))] |}
  end.

(** ** [template_manager.py] *)

Definition TEMPLATE_SUFFIX : string := ".json".

(** A character outside [INVALID_CHARS_RE]'s class. *)
Definition valid_char (c : ascii) : bool :=
  let n := N_of_ascii c in
  ((65 <=? n) && (n <=? 90) || (97 <=? n) && (n <=? 122) || (48 <=? n) && (n <=? 57)
   || (n =? 95) || (n =? 45))%N.

(** [INVALID_CHARS_RE.sub("_", s)]: each maximal run of invalid characters
    becomes one underscore. *)
Fixpoint sub_invalid (in_run : bool) (s : string) : string :=
  match s with
  | "" => ""
  | String c rest =>
      if valid_char c then String c (sub_invalid false rest)
      else if in_run then sub_invalid true rest
      else String "_" (sub_invalid true rest)
  end.

Definition _sanitize_name (name : string) : result string :=
  let cleaned := strip name in
  if bool_decide (cleaned = "") then Raise ValueError
  else Ok (sub_invalid false cleaned).

Definition _template_path (templates_dir name : string) : result string :=
  sanitized ← _sanitize_name name;
  Ok (joinpath templates_dir (sanitized +:+ TEMPLATE_SUFFIX)).

Variable json_dumps : pyval -> string.
(** [json.loads]; [None] is a [JSONDecodeError]. *)
Variable json_loads : string -> option pyval.

Definition save_template (templates_dir : string) (fs : FileSystem) (name : string)
    (watermark : WatermarkSettings.t) (export : ExportSettings.t)
    : result (string * FileSystem) :=
  p ← _template_path templates_dir name;
  let payload :=
    PyDict (list_to_map
      [("name", PyStr name);
       ("watermark", PyDict (WatermarkSettings.to_dict watermark));
       ("export", PyDict (ExportSettings.to_dict export))]) in
  fs ← write_text fs p (json_dumps payload);
  Ok (p, fs).

Definition load_template (templates_dir : string) (fs : FileSystem) (name : string)
    : result (WatermarkSettings.t * ExportSettings.t) :=
  p ← _template_path templates_dir name;
  if negb (path_exists fs p) then Raise FileNotFoundError
  else
    text ← read_text fs p;
    match json_loads text with
    | None => Raise JSONDecodeError
    | Some (PyDict raw) =>
        let watermark_state := dict_get raw "watermark" (PyDict ∅) in
        let export_state := dict_get raw "export" (PyDict ∅) in
        watermark ← nested AttributeError WatermarkSettings.from_dict watermark_state;
        export ← nested AttributeError ExportSettings.from_dict export_state;
        Ok (watermark, export)
    | Some _ => Raise AttributeError
    end.

Definition delete_template (templates_dir : string) (fs : FileSystem) (name : string)
    : result FileSystem :=
  p ← _template_path templates_dir name;
  if path_exists fs p then unlink fs p else Ok fs.

(** ** [widgets/preview_widget.py]: dragging *)

(** A [QRectF]: x, y, width, height. *)
Definition QRectF : Type := float * float * float * float.

(** The truth value of a [QRectF] object, as the binding defines it. *)
Variable rect_truth : QRectF -> bool.

Record PreviewWidget := {
  _base_pixmap : option QPixmap;
  _watermark_pixmap : option QPixmap;
  _layout : WatermarkLayout.t;
  _scale_factor : float;
  _draw_rect : QRectF;
  _dragging : bool;
  _drag_delta : float * float;
}.

Definition opt_truth (o : option QPixmap) : bool :=
  match o with
  | Some pm => pixmap_truth pm
  | None => false
  end.

Definition _watermark_rect_base (self : PreviewWidget) : option QRectF :=
  match _base_pixmap self, _watermark_pixmap self with
  | Some base, Some wm =>
      if negb (pixmap_truth base) || negb (pixmap_truth wm) then None
      else
        let anchor_ratio := anchor_to_position (WatermarkLayout.anchor (_layout self)) in
        let base_width := pixmap_width base in
        let base_height := pixmap_height base in
        let pos_x := (fst (WatermarkLayout.position (_layout self)) * Z2F base_width)%float in
        let pos_y := (snd (WatermarkLayout.position (_layout self)) * Z2F base_height)%float in
        let wm_width := pixmap_width wm in
        let wm_height := pixmap_height wm in
        let top_left_x := (pos_x - fst anchor_ratio * Z2F wm_width)%float in
        let top_left_y := (pos_y - snd anchor_ratio * Z2F wm_height)%float in
        Some (top_left_x, top_left_y, Z2F wm_width, Z2F wm_height)
  | _, _ => None
  end.

Definition _widget_to_base (self : PreviewWidget) (point : float * float)
    : result (float * float) :=
  let '(rect_x, rect_y, _, _) := _draw_rect self in
  let relative := (fst point - rect_x, snd point - rect_y)%float in
  base_x ← float_truediv (fst relative) (_scale_factor self);
  base_y ← float_truediv (snd relative) (_scale_factor self);
  Ok (base_x, base_y).

(** What [mouseMoveEvent] emits: [positionChanged(x, y)] followed by
    [anchorChanged(anchor)], or nothing. *)
Definition mouseMoveEvent (self : PreviewWidget) (event_position : float * float)
    : result (option (float * float * WatermarkAnchor)) :=
  if negb (_dragging self) || negb (opt_truth (_base_pixmap self))
     || negb (opt_truth (_watermark_pixmap self)) then Ok None
  else
    match _base_pixmap self, _watermark_rect_base self with
    | Some base, Some base_rect =>
        if negb (rect_truth base_rect) then Ok None
        else
          let '(_, _, rect_width, rect_height) := base_rect in
          pointer_base ← _widget_to_base self event_position;
          let new_center_x := (fst pointer_base - fst (_drag_delta self))%float in
          let new_center_y := (snd pointer_base - snd (_drag_delta self))%float in
          let half_w := (rect_width / 2)%float in
          let half_h := (rect_height / 2)%float in
          let base_width := pixmap_width base in
          let base_height := pixmap_height base in
          let new_center_x := clamp new_center_x half_w (Z2F base_width - half_w)%float in
          let new_center_y := clamp new_center_y half_h (Z2F base_height - half_h)%float in
          normalized_x ← float_truediv new_center_x (Z2F base_width);
          normalized_y ← float_truediv new_center_y (Z2F base_height);
          Ok (Some (normalized_x, normalized_y, CENTER))
    | _, _ => Ok None
    end.

(** ** Notions the statements use *)

(** The pixels [apply_watermark] leaves in its result. *)
Definition composite (fs : FileSystem) (pixels : QImage) (settings : WatermarkSettings.t)
    (position anchor_ratio : float * float) : result QImage :=
  render_result ← build_watermark fs (image_width pixels, image_height pixels) settings;
  Ok (match pixmap render_result with
      | Some watermark =>
          if pixmap_truth watermark then
            drawPixmap pixels
              (fst position - Z2F (pixmap_width watermark) * fst anchor_ratio,
               snd position - Z2F (pixmap_height watermark) * snd anchor_ratio)%float
              watermark
          else pixels
      | None => pixels
      end).

(** What the policy text says a resize computes: the quotient rounded to the
    nearest integer. *)
Definition spec_round_div (num den : Z) : Z := (2 * num + den) / (2 * den).

(** A computation that does not raise [FileNotFoundError]. *)
Definition found {A} (r : result A) : Prop := r <> Raise FileNotFoundError.

(** Exponent first, then mantissa: the order of two finite floats of one sign. *)
Definition cmp_mag (e1 : Z) (m1 : positive) (e2 : Z) (m2 : positive) : comparison :=
  match e1 ?= e2 with
  | Eq => Pos.compare_cont Eq m1 m2
  | Lt => Lt
  | Gt => Gt
  end.

(** * Verification *)

(** ** The Python basics, on examples *)

Example int_of_float_truncates :
  int_of_float 2.75 = Ok 2 /\ int_of_float (-2.75) = Ok (-2)
  /\ int_of_float 0.9999999999999999 = Ok 0
  /\ int_of_float 1e22 = Ok 10000000000000000000000
  /\ int_of_float nan = Raise ValueError
  /\ int_of_float infinity = Raise OverflowError.
Proof. repeat split; vm_compute; reflexivity. Qed.

Example float_of_int_rounds :
  float_of_int 98 = Ok 98%float
  /\ float_of_int (2 ^ 53 + 1) = Ok 9007199254740992%float
  /\ float_of_int (2 ^ 1024) = Raise OverflowError.
Proof. repeat split; vm_compute; reflexivity. Qed.

(** The quotient and the product round: 98 * (2 / 98) is below 2. *)
Example product_below_two :
  (r ← int_truediv 2 98; int_of_float (Z2F 98 * r)%float) = Ok 1.
Proof. vm_compute. reflexivity. Qed.

Example strip_examples :
  strip "  a b  " = "a b" /\ strip "" = "" /\ lower "PNG" = "png" /\ upper "jpeg" = Ok "JPEG".
Proof. repeat split; vm_compute; reflexivity. Qed.

Example path_examples :
  path_stem "photos/a.jpg" = "a" /\ path_stem "photos/a.tar.gz" = "a.tar"
  /\ path_stem "photos/.hidden" = ".hidden" /\ path_parent "photos/a.jpg" = "photos"
  /\ path_parent "/a.jpg" = "/" /\ path_parent "a.jpg" = "."
  /\ path_name "." = "" /\ path_parent "//a.jpg" = "//".
Proof. repeat split; vm_compute; reflexivity. Qed.

(** [/] as [pathlib] has it. *)
Example joinpath_examples :
  joinpath "out" "a.png" = "out/a.png"
  /\ joinpath "." "a.png" = "a.png"
  /\ joinpath "/" "a.png" = "/a.png"
  /\ joinpath "//" "a.png" = "//a.png"
  /\ joinpath "out" "./a.png" = "out/a.png"
  /\ joinpath "out" "sub//a.png" = "out/sub/a.png"
  /\ joinpath "out" "/tmp/a.png" = "/tmp/a.png"
  /\ joinpath "out" "../a.png" = "out/../a.png"
  /\ joinpath "out/" "a.png" = "out/a.png"
  /\ joinpath "out" "" = "out"
  /\ joinpath "" "" = "."
  /\ Path "///a//b/./c/" = "/a/b/c".
Proof. repeat split; vm_compute; reflexivity. Qed.

Example utf8_examples :
  utf8_decode "abc" = Ok "abc"
  /\ utf8_decode (String (ascii_of_N 195) (String (ascii_of_N 169) ""))
     = Ok (String (ascii_of_N 233) "")
  /\ utf8_decode (String (ascii_of_N 233) "") = Raise UnicodeDecodeError
  /\ utf8_decode (String (ascii_of_N 192) (String (ascii_of_N 128) ""))
     = Raise UnicodeDecodeError
  /\ utf8_decode (String (ascii_of_N 226) (String (ascii_of_N 130)
                    (String (ascii_of_N 172) ""))) = Raise Unsupported
  /\ utf8_encode (String (ascii_of_N 233) "")
     = String (ascii_of_N 195) (String (ascii_of_N 169) "")
  /\ upper (String (ascii_of_N 223) "") = Ok "SS"
  /\ upper (String (ascii_of_N 255) "") = Raise Unsupported.
Proof. repeat split; vm_compute; reflexivity. Qed.

Example newlines_examples :
  universal_newlines (String "a" (String "013" (String "010" (String "b" (String "013"
                        (String "c" (String "010" (String "013" ""))))))))
  = String "a" (String "010" (String "b" (String "010" (String "c" (String "010"
      (String "010" ""))))))
  /\ universal_newlines (String "013" (String "013" (String "010" (String "010" ""))))
     = String "010" (String "010" (String "010" "")).
Proof. split; vm_compute; reflexivity. Qed.

Example clamp_examples :
  (clamp 30 10 90 = 30 /\ clamp 5 10 90 = 10 /\ clamp 500 10 90 = 90
   /\ clamp 30 60 40 = 60)%float.
Proof. repeat split; vm_compute; reflexivity. Qed.

(** ** Properties of the anchor module *)

Lemma bucket_range x : bucket x = 0 \/ bucket x = 1 \/ bucket x = 2.
Proof. unfold bucket. repeat case_match; auto. Qed.

(** The lookup in [grid] never misses: [nearest_anchor] always returns. *)
Lemma nearest_anchor_total position : exists a, nearest_anchor position = Ok a.
Proof.
  destruct position as [x y]. unfold nearest_anchor.
  destruct (bucket_range x) as [-> | [-> | ->]],
           (bucket_range y) as [-> | [-> | ->]]; vm_compute; eauto.
Qed.

(** C10: for each of the nine anchors, classifying its own canonical ratio
    point through [nearest_anchor] gives the anchor back. *)
Theorem C10_nearest_anchor_of_anchor_position (a : WatermarkAnchor) :
  nearest_anchor (anchor_to_position a) = Ok a.
Proof. destruct a; vm_compute; reflexivity. Qed.

(** ** Serialization of the settings *)

Lemma anchor_of_value_value a : anchor_of_value (anchor_value a) = Ok a.
Proof. destruct a; reflexivity. Qed.

Lemma type_of_value_value t : type_of_value (type_value t) = Ok t.
Proof. destruct t; reflexivity. Qed.

Lemma TextWatermarkSettings_roundtrip s :
  TextWatermarkSettings.from_dict (TextWatermarkSettings.to_dict s) = Ok s.
Proof.
  destruct s as [? ? ? ? ? [[[[? ?] ?] ?]|[[[? ?] ?] ?]] ? ? ? ? [[? ?]|[? ?]]];
    reflexivity.
Qed.

Lemma ImageWatermarkSettings_roundtrip s :
  ImageWatermarkSettings.from_dict (ImageWatermarkSettings.to_dict s) = Ok s.
Proof. destruct s as [[p|] ? ?]; reflexivity. Qed.

(** What [data.get] finds in a serialized layout and in serialized settings. *)
Lemma layout_dict_position l v :
  dict_get (WatermarkLayout.to_dict l) "position" v
  = PyList [PyFloat (fst (WatermarkLayout.position l));
            PyFloat (snd (WatermarkLayout.position l))].
Proof. reflexivity. Qed.

Lemma layout_dict_anchor l v :
  dict_get (WatermarkLayout.to_dict l) "anchor" v
  = PyStr (anchor_value (WatermarkLayout.anchor l)).
Proof. reflexivity. Qed.

Lemma settings_dict_type s v :
  dict_get (WatermarkSettings.to_dict s) "watermark_type" v
  = PyStr (type_value (WatermarkSettings.watermark_type s)).
Proof. reflexivity. Qed.

Lemma settings_dict_text s v :
  dict_get (WatermarkSettings.to_dict s) "text_settings" v
  = PyDict (TextWatermarkSettings.to_dict (WatermarkSettings.text_settings s)).
Proof. reflexivity. Qed.

Lemma settings_dict_image s v :
  dict_get (WatermarkSettings.to_dict s) "image_settings" v
  = PyDict (ImageWatermarkSettings.to_dict (WatermarkSettings.image_settings s)).
Proof. reflexivity. Qed.

Lemma settings_dict_rotation s v :
  dict_get (WatermarkSettings.to_dict s) "rotation" v
  = PyFloat (WatermarkSettings.rotation s).
Proof. reflexivity. Qed.

Lemma settings_dict_layout s v :
  dict_get (WatermarkSettings.to_dict s) "layout" v
  = PyDict (WatermarkLayout.to_dict (WatermarkSettings.layout s)).
Proof. reflexivity. Qed.

Lemma WatermarkLayout_roundtrip l :
  WatermarkLayout.from_dict (WatermarkLayout.to_dict l) = Ok l.
Proof.
  unfold WatermarkLayout.from_dict.
  rewrite layout_dict_position, layout_dict_anchor.
  cbn [enum_lookup]. rewrite anchor_of_value_value.
  destruct l as [[x y] a]. reflexivity.
Qed.

(** C4: [from_dict] after [to_dict] gives back the settings, every field of
    the text descriptor, the image descriptor and the layout included. *)
Theorem C4_settings_roundtrip (s : WatermarkSettings.t) :
  WatermarkSettings.from_dict (WatermarkSettings.to_dict s) = Ok s.
Proof.
  unfold WatermarkSettings.from_dict.
  rewrite settings_dict_type, settings_dict_text, settings_dict_image,
    settings_dict_rotation, settings_dict_layout.
  cbn [enum_lookup nested py_float].
  rewrite type_of_value_value, TextWatermarkSettings_roundtrip,
    ImageWatermarkSettings_roundtrip, WatermarkLayout_roundtrip.
  destruct s. reflexivity.
Qed.

(** Case analysis on the computations a [result] is bound from, innermost
    first. *)
Ltac destruct_binds :=
  repeat match goal with
  | |- context [@mbind result _ _ _ _ ?r] =>
      lazymatch r with
      | mbind _ _ => fail
      | Ok _ => fail
      | Raise _ => fail
      | _ => destruct r; cbn [mbind result_bind]
      end
  end.

(** ** Stripping *)

Lemma lstrip_whitespace_only s : lstrip s = "" <-> whitespace_only s = true.
Proof.
  induction s as [|c s IH]; cbn; [split; reflexivity|].
  destruct (is_space c); cbn; [exact IH|]. split; discriminate.
Qed.

Lemma rev_app_empty s acc : String.rev_app s acc = "" -> s = "" /\ acc = "".
Proof.
  revert acc. induction s as [|c s IH]; cbn; intros acc H; [split; [reflexivity|exact H]|].
  apply IH in H as [_ H]. discriminate.
Qed.

Lemma whitespace_only_rev_app s acc :
  whitespace_only (String.rev_app s acc) = whitespace_only s && whitespace_only acc.
Proof.
  revert acc. induction s as [|c s IH]; cbn; intros acc; [reflexivity|].
  rewrite IH. cbn. destruct (is_space c), (whitespace_only s); reflexivity.
Qed.

Lemma whitespace_only_lstrip s : whitespace_only (lstrip s) = whitespace_only s.
Proof.
  induction s as [|c s IH]; cbn; [reflexivity|].
  destruct (is_space c) eqn:Hc; cbn; [exact IH|]. rewrite Hc. reflexivity.
Qed.

(** [text.strip()] is empty exactly on the texts made of whitespace. *)
Lemma strip_empty_iff s : strip s = "" <-> whitespace_only s = true.
Proof.
  unfold strip, rstrip, String.rev. split.
  - intros H. apply rev_app_empty in H as [H _].
    apply lstrip_whitespace_only in H.
    rewrite whitespace_only_rev_app, whitespace_only_lstrip in H.
    apply andb_true_iff in H as [H _]. exact H.
  - intros H. apply lstrip_whitespace_only in H. rewrite H. reflexivity.
Qed.

(** ** The renderer *)

(** A call allocates one new object and touches nothing else. *)
Lemma apply_watermark_composite fs (images : gmap positive QImage) base pixels
    settings position ratio :
  images !! base = Some pixels ->
  apply_watermark fs images base settings position ratio
  = (out ← composite fs pixels settings position ratio;
     Ok (fresh (dom images), <[fresh (dom images) := out]> images)).
Proof.
  intros Hbase. unfold apply_watermark, composite. rewrite Hbase.
  destruct (build_watermark fs _ settings) as [render|e]; cbn; [|reflexivity].
  destruct (pixmap render) as [wm|]; [|reflexivity].
  destruct (pixmap_truth wm); [|reflexivity].
  rewrite alter_insert_eq. reflexivity.
Qed.

Lemma fresh_not_base (images : gmap positive QImage) base pixels :
  images !! base = Some pixels -> fresh (dom images) <> base.
Proof.
  intros Hbase Heq. apply (is_fresh (dom images)). rewrite Heq.
  apply elem_of_dom. eauto.
Qed.

Lemma build_text_blank base_size settings rotation :
  whitespace_only (TextWatermarkSettings.text settings) = true ->
  _build_text_watermark base_size settings rotation = None.
Proof.
  intros H. unfold _build_text_watermark.
  apply strip_empty_iff in H. rewrite H. reflexivity.
Qed.


(** C1: [anchor_to_position] is the ratio table of the nine anchors; and
    when [apply_watermark] has an overlay to draw, it draws it with its
    top-left corner at the anchor point minus the ratio times the overlay's
    width and height. *)
Theorem C1_anchor_ratio_and_overlay_corner :
  (anchor_to_position TOP_LEFT = (0, 0)
   /\ anchor_to_position TOP_CENTER = (0.5, 0)
   /\ anchor_to_position TOP_RIGHT = (1, 0)
   /\ anchor_to_position CENTER_LEFT = (0, 0.5)
   /\ anchor_to_position CENTER = (0.5, 0.5)
   /\ anchor_to_position CENTER_RIGHT = (1, 0.5)
   /\ anchor_to_position BOTTOM_LEFT = (0, 1)
   /\ anchor_to_position BOTTOM_CENTER = (0.5, 1)
   /\ anchor_to_position BOTTOM_RIGHT = (1, 1))%float
  /\ forall fs (images : gmap positive QImage) base pixels settings position ratio
        render watermark,
      images !! base = Some pixels ->
      build_watermark fs (image_width pixels, image_height pixels) settings = Ok render ->
      pixmap render = Some watermark ->
      pixmap_truth watermark = true ->
      exists result images',
        apply_watermark fs images base settings position ratio = Ok (result, images')
        /\ images' !! result
           = Some (drawPixmap pixels
                     (fst position - Z2F (pixmap_width watermark) * fst ratio,
                      snd position - Z2F (pixmap_height watermark) * snd ratio)%float
                     watermark).
Proof.
  split; [repeat split; reflexivity|].
  intros fs images base pixels settings position ratio render wm Hbase Hbuild Hpix Htruth.
  rewrite (apply_watermark_composite _ _ _ _ _ _ _ Hbase).
  unfold composite. rewrite Hbuild. cbn. rewrite Hpix, Htruth.
  eexists _, _. split; [reflexivity|]. apply lookup_insert_eq.
Qed.

(** C7: for a text watermark whose text is empty or all whitespace,
    [build_watermark] has no pixmap, and [apply_watermark] returns a new
    image with the pixels of the base image, the base image and every other
    object being left as they were. *)
Theorem C7_blank_text_gives_plain_copy fs (images : gmap positive QImage) base pixels
    settings position ratio :
  WatermarkSettings.watermark_type settings = TEXT ->
  whitespace_only (TextWatermarkSettings.text (WatermarkSettings.text_settings settings))
  = true ->
  images !! base = Some pixels ->
  (forall base_size,
      build_watermark fs base_size settings = Ok {| pixmap := None; size := QSize_null |})
  /\ exists result images',
      apply_watermark fs images base settings position ratio = Ok (result, images')
      /\ result <> base
      /\ images' !! result = Some pixels
      /\ images' !! base = Some pixels
      /\ forall other, other <> result -> images' !! other = images !! other.
Proof.
  intros Hty Hblank Hbase.
  assert (Hbuild : forall base_size,
    build_watermark fs base_size settings = Ok {| pixmap := None; size := QSize_null |}).
  { intros base_size. unfold build_watermark. rewrite Hty. cbn.
    rewrite build_text_blank by exact Hblank. reflexivity. }
  split; [exact Hbuild|].
  rewrite (apply_watermark_composite _ _ _ _ _ _ _ Hbase).
  unfold composite. rewrite Hbuild. cbn.
  pose proof (fresh_not_base _ _ _ Hbase) as Hfresh.
  eexists _, _. split; [reflexivity|]. split; [exact Hfresh|].
  split; [apply lookup_insert_eq|].
  split; [rewrite lookup_insert_ne by exact Hfresh; exact Hbase|].
  intros other Hother. apply lookup_insert_ne. congruence.
Qed.


(** ** Resizing *)

(** Whatever [_resize_image] returns is the image itself or a scaling of it
    to a box of at least one pixel each way. *)
Lemma resize_result_at_least_one es image out :
  _resize_image es image = Ok out ->
  out = image \/ exists w h, out = scaled image w h /\ 1 <= w /\ 1 <= h.
Proof.
  unfold _resize_image.
  destruct (bool_decide _ || _); [intros [= <-]; auto|].
  match goal with
  | |- (?r ≫= _) = _ -> _ => destruct r as [[[w h]|]|e]; cbn
  end.
  - intros [= <-]. right. exists (Z.max 1 w), (Z.max 1 h). split; [reflexivity|lia].
  - intros [= <-]. auto.
  - discriminate.
Qed.

(** C2, as the code has it: a resize leaves the image alone in mode [NONE];
    in the other modes it asks Qt for the configured value on the chosen
    side and, on the other side, for the double-precision product truncated
    toward zero (not rounded), one pixel at least; it raises where the
    conversions between int and float do.  Whatever it returns is the image
    or a scaling to at least one pixel each way.  A 200 by 100 image becomes
    100 by 50 by width 100 and by 50 percent. *)
Theorem C2_resize_truncates (es : ExportSettings.t) (image : QImage) (V : Z) :
  ExportSettings.resize_value es = Some V ->
  0 < V ->
  (ExportSettings.resize_mode es = NONE -> _resize_image es image = Ok image)
  /\ (ExportSettings.resize_mode es = WIDTH ->
      _resize_image es image
      = (ratio ← int_truediv V (image_width image);
         t ← int_of_float (Z2F (image_height image) * ratio)%float;
         Ok (scaled image V (Z.max 1 t))))
  /\ (ExportSettings.resize_mode es = HEIGHT ->
      _resize_image es image
      = (ratio ← int_truediv V (image_height image);
         t ← int_of_float (Z2F (image_width image) * ratio)%float;
         Ok (scaled image (Z.max 1 t) V)))
  /\ (ExportSettings.resize_mode es = PERCENT ->
      _resize_image es image
      = (v ← float_of_int V;
         tw ← int_of_float (Z2F (image_width image) * (v / 100))%float;
         th ← int_of_float (Z2F (image_height image) * (v / 100))%float;
         Ok (scaled image (Z.max 1 tw) (Z.max 1 th))))
  /\ (forall out,
        _resize_image es image = Ok out ->
        out = image \/ exists w h, out = scaled image w h /\ 1 <= w /\ 1 <= h)
  /\ (image_width image = 200 -> image_height image = 100 ->
      (ExportSettings.resize_mode es = WIDTH -> V = 100 ->
       _resize_image es image = Ok (scaled image 100 50))
      /\ (ExportSettings.resize_mode es = PERCENT -> V = 50 ->
          _resize_image es image = Ok (scaled image 100 50))).
Proof.
  intros Hvalue Hpos.
  assert (Hv : (if V =? 0 then 0 else V) = V) by (destruct (Z.eqb_spec V 0); lia).
  assert (Hle : (V <=? 0) = false) by lia.
  assert (Hmax : Z.max 1 V = V) by lia.
  assert (Hwidth : ExportSettings.resize_mode es = WIDTH ->
      _resize_image es image
      = (ratio ← int_truediv V (image_width image);
         t ← int_of_float (Z2F (image_height image) * ratio)%float;
         Ok (scaled image V (Z.max 1 t)))).
  { intros Hmode. unfold _resize_image. rewrite Hvalue, Hmode, Hv, Hle. cbn.
    destruct_binds; rewrite ?Hmax; reflexivity. }
  assert (Hpercent : ExportSettings.resize_mode es = PERCENT ->
      _resize_image es image
      = (v ← float_of_int V;
         tw ← int_of_float (Z2F (image_width image) * (v / 100))%float;
         th ← int_of_float (Z2F (image_height image) * (v / 100))%float;
         Ok (scaled image (Z.max 1 tw) (Z.max 1 th)))).
  { intros Hmode. unfold _resize_image. rewrite Hvalue, Hmode, Hv, Hle. cbn.
    destruct_binds; reflexivity. }
  split; [|split; [exact Hwidth|split; [|split; [exact Hpercent|split]]]].
  - intros Hmode. unfold _resize_image. rewrite Hmode. reflexivity.
  - intros Hmode. unfold _resize_image. rewrite Hvalue, Hmode, Hv, Hle. cbn.
    destruct_binds; rewrite ?Hmax; reflexivity.
  - intros out. apply resize_result_at_least_one.
  - intros Hw Hh. split.
    + intros Hmode ->. rewrite (Hwidth Hmode), Hw, Hh. vm_compute. reflexivity.
    + intros Hmode ->. rewrite (Hpercent Hmode), Hw, Hh. vm_compute. reflexivity.
Qed.

(** ** Paths *)

Lemma append_cons a (s t : string) : String a s +:+ t = String a (s +:+ t).
Proof. reflexivity. Qed.

Lemma append_nil_l (t : string) : "" +:+ t = t.
Proof. reflexivity. Qed.

Ltac push_append := repeat (rewrite append_cons || rewrite append_nil_l).

Lemma append_assoc (s1 s2 s3 : string) : (s1 +:+ s2) +:+ s3 = s1 +:+ s2 +:+ s3.
Proof. induction s1 as [|a s1 IH]; push_append; [reflexivity|rewrite IH; reflexivity]. Qed.

Lemma occurs_append c s t : occurs c (s +:+ t) = occurs c s || occurs c t.
Proof.
  induction s as [|a s IH]; simpl; [reflexivity|]. rewrite IH. apply orb_assoc.
Qed.

Lemma rsplit_none c s : rsplit c s = None <-> occurs c s = false.
Proof.
  induction s as [|a s IH]; cbn; [split; reflexivity|].
  destruct (rsplit c s) as [[l r]|].
  - split; [discriminate|]. intros [_ Hs]%orb_false_iff. apply IH in Hs. discriminate.
  - destruct (Ascii.eqb a c); cbn; [split; discriminate|].
    split; intros _; [apply IH|]; reflexivity.
Qed.

Lemma rsplit_last c l r : occurs c r = false -> rsplit c (l +:+ String c r) = Some (l, r).
Proof.
  intros Hr. apply rsplit_none in Hr.
  induction l as [|a l IH]; simpl.
  - rewrite Hr, Ascii.eqb_refl. reflexivity.
  - rewrite IH. reflexivity.
Qed.

Lemma rsplit_inv c s l r :
  rsplit c s = Some (l, r) -> s = l +:+ String c r /\ occurs c r = false.
Proof.
  revert l. induction s as [|a s IH]; intros l; cbn; [discriminate|].
  destruct (rsplit c s) as [[l' r']|] eqn:Hs.
  - intros [= <- <-]. destruct (IH l' eq_refl) as [-> Hr]. auto.
  - destruct (Ascii.eqb_spec a c) as [->|]; [|discriminate].
    intros [= <- <-]. split; [reflexivity|]. apply rsplit_none, Hs.
Qed.

Lemma tail_of_free s : occurs "/" (tail_of s) = false.
Proof.
  unfold tail_of. destruct (rsplit "/" s) as [[l r]|] eqn:Hs.
  - apply rsplit_inv in Hs as [_ Hr]. exact Hr.
  - apply rsplit_none, Hs.
Qed.

Lemma tail_of_single t : occurs "/" t = false -> tail_of t = t.
Proof. intros Ht. unfold tail_of. apply rsplit_none in Ht. rewrite Ht. reflexivity. Qed.

Lemma tail_of_slash x b : tail_of (x +:+ String "/" b) = tail_of b.
Proof.
  unfold tail_of at 2. destruct (rsplit "/" b) as [[l r]|] eqn:Hb.
  - apply rsplit_inv in Hb as [-> Hr].
    change (x +:+ String "/" (l +:+ String "/" r))
      with (x +:+ (String "/" l) +:+ String "/" r).
    rewrite <- append_assoc. unfold tail_of. rewrite rsplit_last by exact Hr. reflexivity.
  - apply rsplit_none in Hb. unfold tail_of. rewrite rsplit_last by exact Hb. reflexivity.
Qed.

Lemma tail_of_append s t : occurs "/" t = false -> tail_of (s +:+ t) = tail_of s +:+ t.
Proof.
  intros Ht. unfold tail_of at 2. destruct (rsplit "/" s) as [[l r]|] eqn:Hs.
  - apply rsplit_inv in Hs as [-> Hr].
    rewrite append_assoc. push_append. unfold tail_of.
    rewrite rsplit_last; [reflexivity|]. rewrite occurs_append, Hr, Ht. reflexivity.
  - apply rsplit_none in Hs. apply tail_of_single.
    rewrite occurs_append, Hs, Ht. reflexivity.
Qed.

Lemma ends_slash_inv a : ends_slash a = true -> exists a', a = a' +:+ "/".
Proof.
  induction a as [|c a IH]; cbn; [discriminate|].
  destruct a as [|d a].
  - intros ->%Ascii.eqb_eq. exists "". reflexivity.
  - intros [a' ->]%IH. exists (String c a'). reflexivity.
Qed.

Lemma tail_of_posix_join a b : tail_of (posix_join a b) = tail_of b.
Proof.
  unfold posix_join. destruct (starts_slash b); [reflexivity|].
  destruct (decide (a = "")) as [->|Ha]; [reflexivity|].
  rewrite bool_decide_eq_false_2 by exact Ha. cbn [orb].
  destruct (ends_slash a) eqn:Hends.
  - apply ends_slash_inv in Hends as [a' ->]. rewrite append_assoc. push_append.
    apply tail_of_slash.
  - apply tail_of_slash.
Qed.

(** *** Splitting and joining *)

Lemma split_slash_nonempty s : split_slash s <> [].
Proof.
  destruct s as [|c s]; cbn; [discriminate|].
  destruct (Ascii.eqb c "/"); [discriminate|]. destruct (split_slash s); discriminate.
Qed.

Lemma split_slash_single t : occurs "/" t = false -> split_slash t = [t].
Proof.
  induction t as [|c t IH]; cbn; [reflexivity|].
  intros [Hc Ht]%orb_false_iff. rewrite Hc, (IH Ht). reflexivity.
Qed.

Lemma split_slash_app s t :
  split_slash (s +:+ String "/" t) = (split_slash s ++ split_slash t)%list.
Proof.
  induction s as [|c s IH]; [reflexivity|].
  push_append. cbn [split_slash]. rewrite IH.
  destruct (Ascii.eqb c "/"); [reflexivity|].
  pose proof (split_slash_nonempty s). destruct (split_slash s); [contradiction|reflexivity].
Qed.

Lemma split_slash_last s : exists init, split_slash s = (init ++ [tail_of s])%list.
Proof.
  unfold tail_of. destruct (rsplit "/" s) as [[l r]|] eqn:Hs.
  - apply rsplit_inv in Hs as [-> Hr]. exists (split_slash l).
    rewrite split_slash_app, (split_slash_single r Hr). reflexivity.
  - apply rsplit_none in Hs. exists []. apply split_slash_single, Hs.
Qed.

Lemma split_slash_free s : Forall (fun part => occurs "/" part = false) (split_slash s).
Proof.
  induction s as [|c s IH]; cbn; [repeat constructor|].
  destruct (Ascii.eqb c "/") eqn:Hc; [constructor; [reflexivity|exact IH]|].
  destruct (split_slash s) as [|first others]; [repeat constructor; cbn; rewrite Hc; reflexivity|].
  inversion IH as [|? ? Hfirst Hothers]; subst.
  constructor; [cbn; rewrite Hc; exact Hfirst|exact Hothers].
Qed.

(** What [path_parts] holds: names. *)
Lemma path_parts_names s : Forall single_name (path_parts s).
Proof.
  unfold path_parts. apply Forall_forall. intros part [[Hne Hdot] Hin]%list_elem_of_filter.
  pose proof (split_slash_free s) as Hfree. rewrite Forall_forall in Hfree.
  split; [apply Hfree, Hin|auto].
Qed.

Lemma path_parts_last s :
  tail_of s <> "" -> tail_of s <> "." ->
  exists init, path_parts s = (init ++ [tail_of s])%list.
Proof.
  intros Hne Hdot. destruct (split_slash_last s) as [init Hsplit].
  unfold path_parts. rewrite Hsplit, filter_app, filter_cons_True by auto.
  eexists. reflexivity.
Qed.

Lemma join_slash_snoc parts t :
  parts <> [] -> join_slash (parts ++ [t])%list = join_slash parts +:+ "/" +:+ t.
Proof.
  induction parts as [|part [|next others] IH]; [contradiction|reflexivity|].
  intros _. change (join_slash ((part :: next :: others) ++ [t])%list)
    with (part +:+ "/" +:+ join_slash ((next :: others) ++ [t])%list).
  rewrite IH by discriminate.
  change (join_slash (part :: next :: others))
    with (part +:+ "/" +:+ join_slash (next :: others)).
  rewrite !append_assoc. reflexivity.
Qed.

Lemma path_root_cases s : path_root s = "" \/ path_root s = "/" \/ path_root s = "//".
Proof.
  unfold path_root. destruct (starts_slash s); [|auto].
  destruct (starts_slash (behead s) && _); auto.
Qed.

Lemma tail_of_path_str root parts t :
  root = "" \/ root = "/" \/ root = "//" ->
  occurs "/" t = false ->
  tail_of (path_str root (parts ++ [t])%list) = t.
Proof.
  intros Hroot Ht. unfold path_str.
  rewrite (bool_decide_eq_false_2 ((parts ++ [t])%list = [])), andb_false_r
    by (destruct parts; discriminate).
  destruct parts as [|part others].
  - cbn [app join_slash]. destruct Hroot as [->|[->| ->]].
    + apply tail_of_single, Ht.
    + exact (eq_trans (tail_of_slash "" t) (tail_of_single t Ht)).
    + exact (eq_trans (tail_of_slash "/" t) (tail_of_single t Ht)).
  - rewrite join_slash_snoc by discriminate.
    rewrite <- append_assoc. push_append. rewrite tail_of_slash. apply tail_of_single, Ht.
Qed.

(** Normalising a text keeps its last name. *)
Lemma tail_of_Path s : tail_of s <> "" -> tail_of s <> "." -> tail_of (Path s) = tail_of s.
Proof.
  intros Hne Hdot. unfold Path.
  destruct (path_parts_last s Hne Hdot) as [init ->].
  apply tail_of_path_str; [apply path_root_cases|apply tail_of_free].
Qed.

Lemma tail_of_joinpath dir name :
  tail_of name <> "" -> tail_of name <> "." ->
  tail_of (joinpath dir name) = tail_of name.
Proof.
  intros Hne Hdot. unfold joinpath.
  rewrite tail_of_Path; rewrite tail_of_posix_join; auto.
Qed.

Lemma path_name_tail p : p <> "." -> path_name p = tail_of p.
Proof. intros Hp. unfold path_name. rewrite bool_decide_eq_false_2 by exact Hp. reflexivity. Qed.

(** [(dir / name).name] is the last name of [name]. *)
Lemma path_name_joinpath dir name :
  tail_of name <> "" -> tail_of name <> "." ->
  path_name (joinpath dir name) = tail_of name.
Proof.
  intros Hne Hdot. rewrite path_name_tail; [apply tail_of_joinpath; assumption|].
  intros Hp. apply (f_equal tail_of) in Hp.
  rewrite tail_of_joinpath in Hp by assumption. apply Hdot. exact Hp.
Qed.

(** *** The parent of a joined path *)

Lemma path_root_posix_join dir name :
  single_name name -> path_root (posix_join dir name) = path_root dir.
Proof.
  intros (Hfree & Hne & _).
  destruct name as [|n name]; [contradiction|].
  cbn in Hfree. apply orb_false_iff in Hfree as [Hn _].
  unfold posix_join. cbn [starts_slash]. rewrite Hn.
  destruct (decide (dir = "")) as [->|Hdir].
  - rewrite bool_decide_eq_true_2 by reflexivity. cbn [orb]. push_append.
    unfold path_root. cbn [starts_slash]. rewrite Hn. reflexivity.
  - rewrite bool_decide_eq_false_2 by exact Hdir. cbn [orb].
    destruct dir as [|a [|b [|c dir]]]; [contradiction|..].
    + cbn [ends_slash]. unfold path_root.
      destruct (Ascii.eqb a "/") eqn:Ha; push_append; cbn [starts_slash behead];
        rewrite ?Ha, ?Hn, ?Ascii.eqb_refl; reflexivity.
    + cbn [ends_slash]. unfold path_root.
      destruct (Ascii.eqb b "/") eqn:Hb; push_append; cbn [starts_slash behead];
        rewrite ?Hb, ?Hn, ?Ascii.eqb_refl; reflexivity.
    + destruct (ends_slash _); push_append; reflexivity.
Qed.

Lemma path_parts_snoc (l : list string) name :
  name <> "" -> name <> "." ->
  filter (fun part => part <> "" /\ part <> ".") (l ++ [name])%list
  = (filter (fun part => part <> "" /\ part <> ".") l ++ [name])%list.
Proof. intros Hne Hdot. rewrite filter_app, filter_cons_True by auto. reflexivity. Qed.

Lemma path_parts_empty_last (l : list string) :
  filter (fun part => part <> "" /\ part <> ".") (l ++ [""])%list
  = filter (fun part => part <> "" /\ part <> ".") l.
Proof.
  rewrite filter_app, filter_cons_False by (intros [H _]; apply H; reflexivity).
  apply app_nil_r.
Qed.

Lemma path_parts_posix_join dir name :
  single_name name -> path_parts (posix_join dir name) = (path_parts dir ++ [name])%list.
Proof.
  intros (Hfree & Hne & Hdot).
  assert (Hstart : starts_slash name = false).
  { destruct name as [|n name]; [reflexivity|].
    cbn in Hfree. apply orb_false_iff in Hfree as [Hn _]. exact Hn. }
  unfold posix_join. rewrite Hstart. unfold path_parts.
  destruct (decide (dir = "")) as [->|Hdir].
  - rewrite bool_decide_eq_true_2 by reflexivity. cbn [orb]. push_append.
    rewrite (split_slash_single name Hfree).
    change (split_slash "") with ([] ++ [""])%list.
    rewrite path_parts_empty_last. apply (path_parts_snoc [] name Hne Hdot).
  - rewrite (bool_decide_eq_false_2 (dir = "")) by exact Hdir. cbn [orb].
    destruct (ends_slash dir) eqn:Hends.
    + apply ends_slash_inv in Hends as [dir' ->].
      rewrite append_assoc. push_append.
      rewrite !split_slash_app, (split_slash_single name Hfree).
      change (split_slash "") with [""].
      rewrite path_parts_empty_last. apply path_parts_snoc; assumption.
    + push_append. rewrite split_slash_app, (split_slash_single name Hfree).
      apply path_parts_snoc; assumption.
Qed.

Lemma join_slash_names parts :
  parts <> [] -> Forall single_name parts ->
  join_slash parts <> "" /\ starts_slash (join_slash parts) = false.
Proof.
  intros Hparts Hnames. destruct parts as [|part others]; [contradiction|].
  inversion Hnames as [|? ? (Hfree & Hne & _) _]; subst.
  destruct part as [|c part]; [contradiction|].
  cbn in Hfree. apply orb_false_iff in Hfree as [Hc _].
  destruct others as [|next others].
  - cbn. rewrite Hc. split; [discriminate|reflexivity].
  - change (join_slash (String c part :: next :: others))
      with (String c (part +:+ "/" +:+ join_slash (next :: others))).
    cbn [starts_slash]. rewrite Hc. split; [discriminate|reflexivity].
Qed.

Lemma path_parent_str root parts t :
  root = "" \/ root = "/" \/ root = "//" ->
  Forall single_name parts ->
  occurs "/" t = false ->
  path_parent (path_str root (parts ++ [t])%list) = path_str root parts.
Proof.
  intros Hroot Hnames Ht. unfold path_str at 1.
  rewrite (bool_decide_eq_false_2 ((parts ++ [t])%list = [])), andb_false_r
    by (destruct parts; discriminate).
  destruct (decide (parts = [])) as [->|Hparts].
  - cbn [app join_slash]. unfold path_parent.
    destruct Hroot as [->|[->| ->]].
    + push_append. apply rsplit_none in Ht. rewrite Ht. reflexivity.
    + change (rsplit "/" ("/" +:+ t)) with (rsplit "/" ("" +:+ String "/" t)).
      rewrite (rsplit_last "/" "" t Ht). reflexivity.
    + change (rsplit "/" ("//" +:+ t)) with (rsplit "/" ("/" +:+ String "/" t)).
      rewrite (rsplit_last "/" "/" t Ht). reflexivity.
  - rewrite join_slash_snoc by exact Hparts.
    rewrite <- append_assoc. push_append. unfold path_parent.
    rewrite rsplit_last by exact Ht.
    destruct (join_slash_names parts Hparts Hnames) as [Hne Hstart].
    unfold path_str. rewrite (bool_decide_eq_false_2 (parts = [])), andb_false_r by exact Hparts.
    destruct (join_slash parts) as [|c rest] eqn:Hjoin; [contradiction|].
    cbn in Hstart.
    destruct Hroot as [->|[->| ->]]; push_append.
    + rewrite bool_decide_eq_false_2 by discriminate.
      rewrite bool_decide_eq_false_2; [reflexivity|].
      intros [= -> _]. discriminate.
    + rewrite !bool_decide_eq_false_2 by discriminate. reflexivity.
    + rewrite !bool_decide_eq_false_2 by discriminate. reflexivity.
Qed.

(** [(dir / name).parent] is [dir], for a single name. *)
Lemma path_parent_joinpath dir name :
  single_name name -> path_parent (joinpath dir name) = Path dir.
Proof.
  intros Hname. unfold joinpath, Path.
  rewrite path_root_posix_join, path_parts_posix_join by exact Hname.
  apply path_parent_str; [apply path_root_cases|apply path_parts_names|apply Hname].
Qed.

(** The digits of a number hold no slash. *)
Lemma pretty_N_go_free (x : N) : forall s, occurs "/" s = false -> occurs "/" (pretty_N_go x s) = false.
Proof.
  induction (N.lt_wf_0 x) as [x _ IH]. intros s Hs.
  destruct (decide (x = 0)%N) as [->|Hx]; [rewrite pretty_N_go_0; exact Hs|].
  rewrite pretty_N_go_step by lia. apply IH.
  - apply N.div_lt; lia.
  - cbn [occurs]. rewrite Hs, orb_false_r.
    unfold pretty_N_char. repeat case_match; reflexivity.
Qed.

Lemma pretty_Z_free (k : Z) : occurs "/" (pretty k) = false.
Proof.
  destruct k as [|k|k]; [reflexivity| |].
  - apply pretty_N_go_free. reflexivity.
  - change (pretty (Z.neg k)) with ("-" +:+ pretty_N_go (N.pos k) "").
    rewrite occurs_append. rewrite pretty_N_go_free by reflexivity. reflexivity.
Qed.

(** ** Output paths *)

Lemma length_append s1 s2 :
  String.length (s1 +:+ s2) = (String.length s1 + String.length s2)%nat.
Proof. induction s1 as [|c s1 IH]; simpl; [reflexivity|f_equal; exact IH]. Qed.

Lemma append_inj_r t s1 s2 : s1 +:+ t = s2 +:+ t -> s1 = s2.
Proof.
  revert s2. induction s1 as [|a s1 IH]; intros [|b s2] H; cbn in H.
  - reflexivity.
  - apply (f_equal String.length) in H. simpl in H. rewrite !length_append in H.
    simpl in H. lia.
  - apply (f_equal String.length) in H. simpl in H. rewrite !length_append in H.
    simpl in H. lia.
  - injection H as -> H. f_equal. apply IH. exact H.
Qed.

(** The last name of a numbered candidate. *)
Lemma numbered_tail stem extension (k : Z) :
  occurs "/" extension = false ->
  tail_of (stem +:+ "_" +:+ pretty k +:+ extension)
  = tail_of stem +:+ "_" +:+ pretty k +:+ extension
  /\ tail_of (stem +:+ "_" +:+ pretty k +:+ extension) <> ""
  /\ tail_of (stem +:+ "_" +:+ pretty k +:+ extension) <> ".".
Proof.
  intros Hext.
  assert (Htail : tail_of (stem +:+ "_" +:+ pretty k +:+ extension)
                  = tail_of stem +:+ "_" +:+ pretty k +:+ extension).
  { apply tail_of_append. rewrite !occurs_append, pretty_Z_free, Hext. reflexivity. }
  rewrite Htail. split; [reflexivity|].
  destruct (tail_of stem) as [|c [|d rest]]; push_append; split; discriminate.
Qed.

(** The numbered candidates of one export are pairwise distinct. *)
Lemma numbered_inj output_dir stem extension (j k : Z) :
  occurs "/" extension = false ->
  joinpath output_dir (stem +:+ "_" +:+ pretty j +:+ extension)
  = joinpath output_dir (stem +:+ "_" +:+ pretty k +:+ extension) ->
  j = k.
Proof.
  intros Hext H. apply (f_equal tail_of) in H.
  destruct (numbered_tail stem extension j Hext) as (Hj & Hj_ne & Hj_dot).
  destruct (numbered_tail stem extension k Hext) as (Hk & Hk_ne & Hk_dot).
  rewrite !tail_of_joinpath, Hj, Hk in H by assumption.
  do 2 apply String.app_inj in H.
  apply append_inj_r in H. apply (inj pretty) in H. exact H.
Qed.

Lemma path_exists_dom (fs : FileSystem) p : path_exists fs p = true <-> p ∈ dom fs.
Proof.
  unfold path_exists. rewrite bool_decide_eq_true. symmetry. apply elem_of_dom.
Qed.

(** Below any bound, a boolean sequence is true throughout or has a least
    index at which it is false. *)
Lemma first_false_below (f : nat -> bool) (n : nat) :
  (forall j, (j < n)%nat -> f j = true)
  \/ exists d, (d < n)%nat /\ f d = false /\ forall j, (j < d)%nat -> f j = true.
Proof.
  induction n as [|n [IH|(d & Hd & Hf & Hbefore)]].
  - left. intros j Hj. lia.
  - destruct (f n) eqn:Hn.
    + left. intros j Hj. destruct (decide (j = n)) as [->|]; [exact Hn|apply IH; lia].
    + right. exists n. split; [lia|]. split; [exact Hn|exact IH].
  - right. exists d. split; [lia|]. split; [exact Hf|exact Hbefore].
Qed.

Lemma first_false (f : nat -> bool) (n : nat) :
  (exists d, (d <= n)%nat /\ f d = false) ->
  exists d, (d <= n)%nat /\ f d = false /\ forall j, (j < d)%nat -> f j = true.
Proof.
  intros (d & Hd & Hf).
  destruct (first_false_below f (S n)) as [Hall|(d' & Hd' & Hf' & Hbefore)].
  - rewrite Hall in Hf by lia. discriminate.
  - exists d'. split; [lia|]. split; [exact Hf'|exact Hbefore].
Qed.

(** Pigeonhole: distinct paths cannot all exist when they outnumber the
    nodes of the file system. *)
Lemma some_candidate_free (fs : FileSystem) (candidate : Z -> string) :
  (forall j k, candidate j = candidate k -> j = k) ->
  exists d, (d <= base.size fs)%nat /\ path_exists fs (candidate (1 + Z.of_nat d)) = false.
Proof.
  intros Hinj.
  set (f := fun d : nat => candidate (1 + Z.of_nat d)).
  set (l := f <$> seq 0 (S (base.size fs))).
  destruct (decide (Forall (fun p => p ∈ dom fs) l)) as [Hall|Hsome].
  - exfalso.
    assert (Hnodup : NoDup l).
    { apply NoDup_fmap_2; [|apply NoDup_seq].
      intros a b Hab. apply Hinj in Hab. lia. }
    assert (Hsub : list_to_set (C := gset string) l ⊆ dom fs).
    { intros p Hp. apply elem_of_list_to_set in Hp.
      rewrite Forall_forall in Hall. apply Hall, Hp. }
    apply subseteq_size in Hsub.
    rewrite size_list_to_set, size_dom in Hsub by exact Hnodup.
    unfold l in Hsub. rewrite length_fmap, length_seq in Hsub. lia.
  - apply not_Forall_Exists in Hsome; [|intros ?; apply _].
    apply Exists_exists in Hsome as (p & Hp & Hfree).
    unfold l in Hp. apply list_elem_of_fmap in Hp as (d & -> & Hd).
    apply elem_of_seq in Hd. exists d. split; [lia|].
    destruct (path_exists fs (f d)) eqn:Hex; [|exact Hex].
    apply path_exists_dom in Hex. contradiction.
Qed.

(** The loop stops at the first free candidate, given fuel for the turns
    before it. *)
Lemma next_free_found (fs : FileSystem) candidate (d : nat) :
  forall fuel target counter,
    path_exists fs target = true ->
    (forall j, counter <= j < counter + Z.of_nat d -> path_exists fs (candidate j) = true) ->
    path_exists fs (candidate (counter + Z.of_nat d)) = false ->
    (d < fuel)%nat ->
    next_free fs candidate fuel target counter = Some (candidate (counter + Z.of_nat d)).
Proof.
  induction d as [|d IH]; intros fuel target counter Htarget Hbefore Hfree Hfuel;
    (destruct fuel as [|fuel]; [lia|]); cbn [next_free]; rewrite Htarget.
  - rewrite Z.add_0_r in Hfree.
    destruct fuel; cbn [next_free]; rewrite Hfree; f_equal; f_equal; lia.
  - replace (counter + Z.of_nat (S d)) with (counter + 1 + Z.of_nat d) in * by lia.
    apply IH; [apply Hbefore; lia| |exact Hfree|lia].
    intros j Hj. apply Hbefore. lia.
Qed.

(** With the fuel [_determine_output_path] gives it, the loop always stops. *)
Lemma next_free_enough (fs : FileSystem) candidate target :
  (forall j k, candidate j = candidate k -> j = k) ->
  path_exists fs target = true ->
  exists k,
    1 <= k
    /\ next_free fs candidate (S (base.size fs)) target 1 = Some (candidate k)
    /\ path_exists fs (candidate k) = false
    /\ forall j, 1 <= j < k -> path_exists fs (candidate j) = true.
Proof.
  intros Hinj Htarget.
  destruct (first_false (fun d => path_exists fs (candidate (1 + Z.of_nat d)))
              (base.size fs) (some_candidate_free fs candidate Hinj))
    as (d & Hd & Hfree & Hbefore).
  exists (1 + Z.of_nat d). split; [lia|]. split; [|split; [exact Hfree|]].
  - apply next_free_found; [exact Htarget| |exact Hfree|lia].
    intros j Hj. replace j with (1 + Z.of_nat (Z.to_nat (j - 1))) by lia.
    apply Hbefore. lia.
  - intros j Hj. replace j with (1 + Z.of_nat (Z.to_nat (j - 1))) by lia.
    apply Hbefore. lia.
Qed.

(** C6: the output path is the stem, changed as the naming mode says,
    with [.png] for the png format and [.jpg] otherwise; when that path
    exists, it is the path numbered [_k] for the first [k], from 1 on, whose
    path does not exist.  The search always ends. *)
Theorem C6_output_path_first_free (es : ExportSettings.t) (fs : FileSystem)
    (source output_dir : string) :
  let stem :=
    match ExportSettings.naming_mode es with
    | KEEP_ORIGINAL => path_stem source
    | PREFIX => ExportSettings.custom_prefix es +:+ path_stem source
    | SUFFIX => path_stem source +:+ ExportSettings.custom_suffix es
    end in
  let extension :=
    if bool_decide (lower (ExportSettings.output_format es) = "png")
    then ".png" else ".jpg" in
  let plain := joinpath output_dir (stem +:+ extension) in
  let numbered (k : Z) :=
    joinpath output_dir (stem +:+ "_" +:+ pretty k +:+ extension) in
  exists p,
    _determine_output_path es fs source output_dir = Some p
    /\ (path_exists fs plain = false /\ p = plain
        \/ path_exists fs plain = true
           /\ exists k, 1 <= k /\ p = numbered k /\ path_exists fs p = false
                        /\ forall j, 1 <= j < k -> path_exists fs (numbered j) = true).
Proof.
  intros stem extension plain numbered.
  assert (Hstem : output_stem es source = stem).
  { unfold output_stem, stem. destruct (ExportSettings.naming_mode es); reflexivity. }
  assert (Hrun : _determine_output_path es fs source output_dir
                 = next_free fs numbered (S (base.size fs)) plain 1).
  { unfold _determine_output_path. rewrite Hstem. reflexivity. }
  rewrite Hrun. clear Hrun.
  destruct (path_exists fs plain) eqn:Hplain.
  - destruct (next_free_enough fs numbered plain) as (k & Hk & Hrun & Hfree & Hbefore);
      [intros j k; apply numbered_inj; unfold extension; destruct (bool_decide _);
         reflexivity|exact Hplain|].
    exists (numbered k). split; [exact Hrun|]. right. split; [reflexivity|].
    exists k. auto.
  - exists plain. split; [|left; auto]. cbn [next_free]. rewrite Hplain. reflexivity.
Qed.

(** ** The export batch *)

Lemma samefile_defined (fs : FileSystem) a b :
  is_Some (fs !! a) -> is_Some (fs !! b) -> exists same, samefile fs a b = Ok same.
Proof.
  intros [na Ha] [nb Hb]. unfold samefile. rewrite Ha, Hb.
  destruct na, nb; eauto.
Qed.

Lemma samefile_ok_exists (fs : FileSystem) a b same :
  samefile fs a b = Ok same -> is_Some (fs !! a).
Proof.
  unfold samefile. destruct (fs !! a) as [na|]; [eauto|discriminate].
Qed.

Lemma samefile_raises (fs : FileSystem) a b e :
  samefile fs a b = Raise e -> e = FileNotFoundError.
Proof.
  unfold samefile. destruct (fs !! a) as [[]|], (fs !! b) as [[]|]; congruence.
Qed.

(** The first loop never answers "no" when an item collides: it finds the
    collision, or [samefile] raises on an item before it. *)
Lemma colliding_found_or_raises (fs : FileSystem) output_dir items :
  (exists item, item ∈ items
                /\ samefile fs output_dir (path_parent (path item)) = Ok true) ->
  colliding fs output_dir items = Ok true
  \/ colliding fs output_dir items = Raise FileNotFoundError.
Proof.
  intros (hit & Hin & Hsame).
  induction items as [|item rest IH]; [inversion Hin|].
  cbn [colliding].
  destruct (samefile fs output_dir (path_parent (path item))) as [[]|e] eqn:Hitem; cbn.
  - left. reflexivity.
  - apply IH. apply elem_of_cons in Hin as [->|Hin]; [congruence|exact Hin].
  - right. rewrite (samefile_raises _ _ _ _ Hitem). reflexivity.
Qed.

(** It finds the collision when the directory of every item can be looked
    up. *)
Lemma colliding_found (fs : FileSystem) output_dir items :
  (forall item, item ∈ items -> path_exists fs (path_parent (path item)) = true) ->
  (exists item, item ∈ items
                /\ samefile fs output_dir (path_parent (path item)) = Ok true) ->
  colliding fs output_dir items = Ok true.
Proof.
  intros Hparents (hit & Hin & Hsame).
  pose proof (samefile_ok_exists _ _ _ _ Hsame) as Hdir.
  induction items as [|item rest IH]; [inversion Hin|].
  cbn [colliding].
  destruct (samefile_defined fs output_dir (path_parent (path item)) Hdir) as [same Hitem].
  { apply (bool_decide_eq_true_1 _), Hparents. left. }
  rewrite Hitem. cbn. destruct same; [reflexivity|].
  apply IH.
  - intros other Hother. apply Hparents. right. exact Hother.
  - apply elem_of_cons in Hin as [->|Hin]; [congruence|exact Hin].
Qed.

(** With overwrite prevention on, an output directory that is the same
    location as the directory of an item stops the batch before the first
    item is processed, when the directories of the items exist: the
    invalid-directory warning is shown, [save] is never called and the file
    system stays as [mkdir] left it. *)
Lemma collision_aborts_batch (ws : WatermarkSettings.t) (es : ExportSettings.t)
    (fs fs1 : FileSystem) (dir : string) (items : list ImageItem) :
  ExportSettings.prevent_overwrite es = true ->
  ExportSettings.output_dir es = Some dir ->
  dir <> "" ->
  mkdir fs (Path dir) = Ok fs1 ->
  (exists item,
      item ∈ items /\ samefile fs1 (Path dir) (path_parent (path item)) = Ok true) ->
  let aborted :=
    Ok {| fs_after := fs1; saves := []; shown := [WarnInvalidOutputDir] |} in
  ((forall item, item ∈ items -> path_exists fs1 (path_parent (path item)) = true) ->
   _export_images ws es fs items = aborted)
  /\ (_export_images ws es fs items = aborted
      \/ _export_images ws es fs items = Raise FileNotFoundError).
Proof.
  intros Hprevent Hdir Hne Hmkdir Hhit aborted.
  assert (Hrun : _export_images ws es fs items
                 = (collision ← colliding fs1 (Path dir) items;
                    if collision : bool then aborted
                    else '(fs', saves) ← export_loop ws es (Path dir) items fs1 [];
                         Ok {| fs_after := fs'; saves := saves;
                               shown := [StatusExportDone (Z.of_nat (length saves))] |})).
  { unfold _export_images. rewrite Hdir, Hprevent.
    rewrite bool_decide_eq_false_2 by exact Hne.
    cbv zeta. rewrite Hmkdir. reflexivity. }
  rewrite Hrun. split.
  - intros Hparents. rewrite (colliding_found fs1 _ items Hparents Hhit). reflexivity.
  - destruct (colliding_found_or_raises fs1 _ items Hhit) as [-> | ->]; auto.
Qed.

(** The first loop stops at the first item whose directory is missing. *)
Lemma colliding_missing (fs : FileSystem) output_dir before item after :
  (forall earlier, earlier ∈ before ->
     samefile fs output_dir (path_parent (path earlier)) = Ok false) ->
  fs !! path_parent (path item) = None ->
  colliding fs output_dir (before ++ item :: after) = Raise FileNotFoundError.
Proof.
  intros Hbefore Hmissing. induction before as [|earlier before IH]; cbn [app colliding].
  - unfold samefile. rewrite Hmissing. destruct (fs !! output_dir) as [[]|]; reflexivity.
  - rewrite (Hbefore earlier) by left. cbn. apply IH.
    intros other Hother. apply Hbefore. right. exact Hother.
Qed.

(** C5: the batch does not abort with the warning whenever an item
    collides.  The loop that looks for a collision asks [samefile] about
    each item in turn, and [samefile] raises when the directory of an item
    is no longer there: if that happens before a collision is met, the
    export ends in [FileNotFoundError], which nothing catches, and no
    warning is shown, whatever items follow, a colliding one included. *)
Theorem C5_missing_directory_raises (ws : WatermarkSettings.t) (es : ExportSettings.t)
    (fs fs1 : FileSystem) (dir : string) (before : list ImageItem) (item : ImageItem)
    (after : list ImageItem) :
  ExportSettings.prevent_overwrite es = true ->
  ExportSettings.output_dir es = Some dir ->
  dir <> "" ->
  mkdir fs (Path dir) = Ok fs1 ->
  (forall earlier, earlier ∈ before ->
     samefile fs1 (Path dir) (path_parent (path earlier)) = Ok false) ->
  fs1 !! path_parent (path item) = None ->
  _export_images ws es fs (before ++ item :: after) = Raise FileNotFoundError.
Proof.
  intros Hprevent Hdir Hne Hmkdir Hbefore Hmissing.
  unfold _export_images. rewrite Hdir, Hprevent.
  rewrite bool_decide_eq_false_2 by exact Hne.
  cbv zeta. rewrite Hmkdir. cbn [mbind result_bind].
  rewrite (colliding_missing fs1 _ before item after Hbefore Hmissing). reflexivity.
Qed.

(** ** Templates *)

Lemma found_ok {A} (a : A) : found (Ok a).
Proof. discriminate. Qed.

Lemma found_bind {A B} (r : result A) (k : A -> result B) :
  found r -> (forall a, found (k a)) -> found (r ≫= k).
Proof.
  intros Hr Hk. destruct r as [a|e]; cbn; [apply Hk|].
  intros [= ->]. apply Hr. reflexivity.
Qed.

Lemma found_float_of_int n : found (float_of_int n).
Proof. unfold float_of_int. destruct (PrimFloat.is_infinity _); discriminate. Qed.

Lemma found_int_of_float x : found (int_of_float x).
Proof. unfold int_of_float. destruct (Prim2SF x); discriminate. Qed.

Lemma found_utf8_decode bytes : found (utf8_decode bytes).
Proof.
  unfold utf8_decode. destruct (utf8_points bytes); [|discriminate].
  destruct (forallb _ _); discriminate.
Qed.

Lemma found_py_float v : found (py_float v).
Proof. destruct v; cbn; try discriminate. apply found_float_of_int. Qed.

Lemma found_py_int v : found (py_int v).
Proof. destruct v; cbn; try discriminate. apply found_int_of_float. Qed.

Lemma found_py_index items i : found (py_index items i).
Proof. unfold py_index. destruct (items !! i); discriminate. Qed.

Lemma found_as_str v : found (as_str v).
Proof. destruct v; discriminate. Qed.

Lemma found_as_opt_str v : found (as_opt_str v).
Proof. destruct v; discriminate. Qed.

Lemma found_as_int v : found (as_int v).
Proof. destruct v; discriminate. Qed.

Lemma found_as_opt_int v : found (as_opt_int v).
Proof. destruct v; discriminate. Qed.

Lemma found_as_bool v : found (as_bool v).
Proof. destruct v; discriminate. Qed.

Lemma found_as_float v : found (as_float v).
Proof. destruct v; discriminate. Qed.

Lemma found_as_int2 v : found (as_int2 v).
Proof. unfold as_int2. repeat case_match; discriminate. Qed.

Lemma found_as_int4 v : found (as_int4 v).
Proof. unfold as_int4. repeat case_match; discriminate. Qed.

Lemma found_kwarg {A} data key (cast : pyval -> result A) default :
  (forall v, found (cast v)) -> found (kwarg data key cast default).
Proof. intros Hcast. unfold kwarg. destruct (data !! key); [apply Hcast|discriminate]. Qed.

Lemma found_anchor_of_value s : found (anchor_of_value s).
Proof. unfold anchor_of_value. destruct (find _ _); discriminate. Qed.

Lemma found_type_of_value s : found (type_of_value s).
Proof. unfold type_of_value. destruct (find _ _); discriminate. Qed.

Lemma found_naming_of_value s : found (naming_of_value s).
Proof. unfold naming_of_value. destruct (find _ _); discriminate. Qed.

Lemma found_resize_of_value s : found (resize_of_value s).
Proof. unfold resize_of_value. destruct (find _ _); discriminate. Qed.

Lemma found_enum_lookup {A} (of_value : string -> result A) v :
  (forall s, found (of_value s)) -> found (enum_lookup of_value v).
Proof. intros H. destruct v; cbn; try discriminate. apply H. Qed.

Lemma found_nested {A} e (from : gmap string pyval -> result A) v :
  e <> FileNotFoundError -> (forall d, found (from d)) -> found (nested e from v).
Proof. intros He H. destruct v; cbn; [..|apply H]; intros [=]; congruence. Qed.

Create HintDb found discriminated.
#[local] Hint Resolve found_ok found_bind found_float_of_int found_int_of_float
  found_py_float found_py_int found_py_index found_as_str found_as_opt_str
  found_as_int found_as_opt_int found_as_bool found_as_float found_as_int2
  found_as_int4 found_kwarg found_anchor_of_value found_type_of_value
  found_naming_of_value found_resize_of_value found_enum_lookup : found.

Lemma found_text_from_dict d : found (TextWatermarkSettings.from_dict d).
Proof.
  unfold TextWatermarkSettings.from_dict.
  destruct (only_fields _ _); [|discriminate]. auto 20 with found.
Qed.

Lemma found_image_from_dict d : found (ImageWatermarkSettings.from_dict d).
Proof.
  unfold ImageWatermarkSettings.from_dict.
  destruct (only_fields _ _); [|discriminate]. auto 10 with found.
Qed.

Lemma found_layout_from_dict d : found (WatermarkLayout.from_dict d).
Proof.
  unfold WatermarkLayout.from_dict.
  apply found_bind; [|auto 10 with found].
  repeat case_match; try discriminate; auto 10 with found.
Qed.

Lemma found_settings_from_dict d : found (WatermarkSettings.from_dict d).
Proof.
  unfold WatermarkSettings.from_dict.
  repeat (apply found_bind; [|intros ?]);
    auto using found_nested, found_text_from_dict, found_image_from_dict,
      found_layout_from_dict with found.
  all: apply found_nested; [discriminate|].
  all: auto using found_text_from_dict, found_image_from_dict, found_layout_from_dict.
Qed.

Lemma found_export_from_dict d : found (ExportSettings.from_dict d).
Proof. unfold ExportSettings.from_dict. auto 20 with found. Qed.

(** C9: [load_template] raises [FileNotFoundError] exactly when the name
    sanitizes to a path at which nothing exists, and then returns no
    settings at all; [delete_template] on such a name returns normally and
    leaves the file system as it was. *)
Theorem C9_template_not_found (templates_dir : string) (fs : FileSystem) (name : string) :
  (load_template templates_dir fs name = Raise FileNotFoundError
   <-> exists p, _template_path templates_dir name = Ok p /\ path_exists fs p = false)
  /\ (forall p,
        _template_path templates_dir name = Ok p ->
        path_exists fs p = false ->
        delete_template templates_dir fs name = Ok fs).
Proof.
  split; [split|].
  - unfold load_template.
    destruct (_template_path templates_dir name) as [p|e] eqn:Hpath; cbn.
    + destruct (path_exists fs p) eqn:Hexists; cbn; [|eauto].
      intros Hraise. exfalso. revert Hraise.
      apply bool_decide_eq_true in Hexists as [n Hn].
      unfold read_text. rewrite Hn.
      destruct n as [ident|bytes]; cbn; [discriminate|].
      destruct (utf8_decode bytes) as [text|e] eqn:Hdecode; cbn;
        [|intros [= ->]; exact (found_utf8_decode bytes Hdecode)].
      destruct (json_loads (universal_newlines text)) as [[| | | | | | |raw]|]; try discriminate.
      change (found (watermark ←
                nested AttributeError WatermarkSettings.from_dict
                  (dict_get raw "watermark" (PyDict ∅));
              export ←
                nested AttributeError ExportSettings.from_dict
                  (dict_get raw "export" (PyDict ∅));
              Ok (watermark, export))).
      apply found_bind; [|intros watermark; apply found_bind; [|intros; apply found_ok]].
      * apply found_nested; [discriminate|apply found_settings_from_dict].
      * apply found_nested; [discriminate|apply found_export_from_dict].
    + unfold _template_path in Hpath. unfold _sanitize_name in Hpath.
      destruct (bool_decide _); cbn in Hpath; [|discriminate].
      injection Hpath as <-. discriminate.
  - intros (p & Hpath & Hexists). unfold load_template.
    rewrite Hpath. cbn. rewrite Hexists. reflexivity.
  - intros p Hpath Hexists. unfold delete_template.
    rewrite Hpath. cbn. rewrite Hexists. reflexivity.
Qed.

(** ** The order of floats *)

Lemma cmp_mag_lt e1 m1 e2 m2 :
  cmp_mag e1 m1 e2 m2 = Lt <-> e1 < e2 \/ e1 = e2 /\ (m1 < m2)%positive.
Proof.
  unfold cmp_mag. change (Pos.compare_cont Eq m1 m2) with (m1 ?= m2)%positive.
  destruct (Z.compare_spec e1 e2); rewrite ?Pos.compare_lt_iff; split; intros; try done; try lia.
Qed.

Lemma cmp_mag_gt e1 m1 e2 m2 :
  cmp_mag e1 m1 e2 m2 = Gt <-> e2 < e1 \/ e1 = e2 /\ (m2 < m1)%positive.
Proof.
  unfold cmp_mag. change (Pos.compare_cont Eq m1 m2) with (m1 ?= m2)%positive.
  destruct (Z.compare_spec e1 e2); rewrite ?Pos.compare_gt_iff; split; intros; try done; try lia.
Qed.

Lemma cmp_mag_refl e m : cmp_mag e m e m = Eq.
Proof. unfold cmp_mag. rewrite Z.compare_refl. apply Pos.compare_refl. Qed.

Lemma CompOpp_lt c : CompOpp c = Lt <-> c = Gt.
Proof. destruct c; cbn; split; congruence. Qed.
Lemma CompOpp_gt c : CompOpp c = Gt <-> c = Lt.
Proof. destruct c; cbn; split; congruence. Qed.

Lemma SFcompare_finite s1 m1 e1 s2 m2 e2 :
  SFcompare (S754_finite s1 m1 e1) (S754_finite s2 m2 e2)
  = Some (if s1 then if s2 then CompOpp (cmp_mag e1 m1 e2 m2) else Lt
          else if s2 then Gt else cmp_mag e1 m1 e2 m2).
Proof.
  unfold cmp_mag. cbn. destruct s1, s2; try reflexivity; destruct (e1 ?= e2); reflexivity.
Qed.

Lemma SFcompare_lt_trans x y z :
  SFcompare x y = Some Lt -> SFcompare y z = Some Lt -> SFcompare x z = Some Lt.
Proof.
  destruct x as [[]|[]| |[] m1 e1], y as [[]|[]| |[] m2 e2], z as [[]|[]| |[] m3 e3];
    rewrite ?SFcompare_finite; cbn; try congruence; intros [= H1] [= H2]; f_equal;
    rewrite ?CompOpp_lt, ?cmp_mag_lt, ?cmp_mag_gt in *; lia.
Qed.

Lemma SFcompare_lt_gt x y : SFcompare x y = Some Lt -> SFcompare y x = Some Gt.
Proof.
  destruct x as [[]|[]| |[] m1 e1], y as [[]|[]| |[] m2 e2];
    rewrite ?SFcompare_finite; cbn; try congruence; intros [= H1]; f_equal;
    rewrite ?CompOpp_lt, ?CompOpp_gt, ?cmp_mag_lt, ?cmp_mag_gt in *; lia.
Qed.

Lemma SFcompare_refl x : x <> S754_nan -> SFcompare x x = Some Eq.
Proof.
  destruct x as [[]|[]| |[] m e]; rewrite ?SFcompare_finite; cbn; try congruence;
    rewrite ?cmp_mag_refl; reflexivity.
Qed.

Lemma SFcompare_some_l x y c : SFcompare x y = Some c -> x <> S754_nan /\ y <> S754_nan.
Proof. destruct x as [[]|[]| |[] m e], y as [[]|[]| |[] m2 e2]; cbn; intros; split; congruence. Qed.

Lemma ltb_trans x y z : (x <? y)%float = true -> (y <? z)%float = true -> (x <? z)%float = true.
Proof.
  rewrite !ltb_spec. unfold SFltb.
  destruct (SFcompare (Prim2SF x) (Prim2SF y)) as [[]|] eqn:H1; try discriminate.
  destruct (SFcompare (Prim2SF y) (Prim2SF z)) as [[]|] eqn:H2; try discriminate.
  rewrite (SFcompare_lt_trans _ _ _ H1 H2). reflexivity.
Qed.

Lemma ltb_asym x y : (x <? y)%float = true -> (y <? x)%float = false.
Proof.
  rewrite !ltb_spec. unfold SFltb.
  destruct (SFcompare (Prim2SF x) (Prim2SF y)) as [[]|] eqn:H1; try discriminate.
  rewrite (SFcompare_lt_gt _ _ H1). reflexivity.
Qed.

Lemma ltb_leb x y : (x <? y)%float = true -> (x <=? y)%float = true.
Proof.
  rewrite ltb_spec, leb_spec. unfold SFltb, SFleb.
  destruct (SFcompare (Prim2SF x) (Prim2SF y)) as [[]|]; congruence.
Qed.

Lemma leb_refl_l x y : (x <=? y)%float = true -> (x <=? x)%float = true.
Proof.
  rewrite !leb_spec. unfold SFleb.
  destruct (SFcompare (Prim2SF x) (Prim2SF y)) as [c|] eqn:H; [|discriminate].
  apply SFcompare_some_l in H as [H _]. rewrite (SFcompare_refl _ H). reflexivity.
Qed.

Lemma leb_refl_r x y : (x <=? y)%float = true -> (y <=? y)%float = true.
Proof.
  rewrite !leb_spec. unfold SFleb.
  destruct (SFcompare (Prim2SF x) (Prim2SF y)) as [c|] eqn:H; [|discriminate].
  apply SFcompare_some_l in H as [_ H]. rewrite (SFcompare_refl _ H). reflexivity.
Qed.

(** ** Dragging *)

Lemma clamp_within v lo hi :
  (lo <=? hi)%float = true ->
  (lo <=? clamp v lo hi)%float = true /\ (clamp v lo hi <=? hi)%float = true.
Proof.
  intros Hle. unfold clamp, py_max, py_min.
  destruct (v <? hi)%float eqn:Hv.
  - destruct (lo <? v)%float eqn:Hlo.
    + split; apply ltb_leb; assumption.
    + split; [exact (leb_refl_l _ _ Hle)|exact Hle].
  - destruct (lo <? hi)%float eqn:Hlo.
    + split; [exact Hle|exact (leb_refl_r _ _ Hle)].
    + split; [exact (leb_refl_l _ _ Hle)|exact Hle].
Qed.

(** With the bounds the wrong way round, [clamp] returns the lower one. *)
Lemma clamp_inverted v lo hi : (hi <? lo)%float = true -> clamp v lo hi = lo.
Proof.
  intros Hinv. unfold clamp, py_max, py_min.
  destruct (v <? hi)%float eqn:Hv.
  - rewrite (ltb_asym _ _ (ltb_trans _ _ _ Hv Hinv)). reflexivity.
  - rewrite (ltb_asym _ _ Hinv). reflexivity.
Qed.

Lemma clamp_above v lo hi :
  (lo <? hi)%float = true -> (hi <? v)%float = true -> clamp v lo hi = hi.
Proof.
  intros Hlo Hv. unfold clamp, py_max, py_min.
  rewrite (ltb_asym _ _ Hv), Hlo. reflexivity.
Qed.

(** C3, as the code has it.  While dragging, a pointer move emits the
    clamped center divided by the base size, with the anchor [CENTER].
    When half the overlay fits on each side, the clamped center lies between
    [half] and [base - half]; a pointer past the right edge gives
    [base - half], so a 100 wide overlay on a 200 wide base gives 0.75.
    When the overlay is wider than the base, the center is pinned to [half],
    the overlay's own half width, and not to the middle of the base. *)
Theorem C3_drag_clamps_center (self : PreviewWidget) (event_position : float * float)
    (base wm : QPixmap) :
  _dragging self = true ->
  _base_pixmap self = Some base ->
  _watermark_pixmap self = Some wm ->
  pixmap_truth base = true ->
  pixmap_truth wm = true ->
  (forall rect, _watermark_rect_base self = Some rect -> rect_truth rect = true) ->
  (_scale_factor self =? 0)%float = false ->
  (Z2F (pixmap_width base) =? 0)%float = false ->
  (Z2F (pixmap_height base) =? 0)%float = false ->
  let base_w := Z2F (pixmap_width base) in
  let base_h := Z2F (pixmap_height base) in
  let half_w := (Z2F (pixmap_width wm) / 2)%float in
  let half_h := (Z2F (pixmap_height wm) / 2)%float in
  let want_x :=
    ((fst event_position - fst (fst (fst (_draw_rect self)))) / _scale_factor self
     - fst (_drag_delta self))%float in
  let want_y :=
    ((snd event_position - snd (fst (fst (_draw_rect self)))) / _scale_factor self
     - snd (_drag_delta self))%float in
  let center_x := clamp want_x half_w (base_w - half_w)%float in
  let center_y := clamp want_y half_h (base_h - half_h)%float in
  mouseMoveEvent self event_position
  = Ok (Some ((center_x / base_w)%float, (center_y / base_h)%float, CENTER))
  /\ ((half_w <=? base_w - half_w)%float = true ->
      (half_w <=? center_x)%float = true /\ (center_x <=? base_w - half_w)%float = true)
  /\ ((half_h <=? base_h - half_h)%float = true ->
      (half_h <=? center_y)%float = true /\ (center_y <=? base_h - half_h)%float = true)
  /\ ((half_w <? base_w - half_w)%float = true ->
      (base_w - half_w <? want_x)%float = true -> center_x = (base_w - half_w)%float)
  /\ ((base_w - half_w <? half_w)%float = true -> center_x = half_w)
  /\ ((base_h - half_h <? half_h)%float = true -> center_y = half_h)
  /\ (pixmap_width base = 200 -> pixmap_width wm = 100 ->
      (150 <? want_x)%float = true ->
      (center_x / base_w = 0.75 /\ 0.75 = 1 - (100 / 2) / 200)%float).
Proof.
  intros Hdrag Hbase Hwm Htb Htw Hrect Hscale Hbw Hbh
    base_w base_h half_w half_h want_x want_y center_x center_y.
  split.
  - unfold mouseMoveEvent.
    assert (Hr : exists x y,
      _watermark_rect_base self
      = Some (x, y, Z2F (pixmap_width wm), Z2F (pixmap_height wm))).
    { unfold _watermark_rect_base. rewrite Hbase, Hwm, Htb, Htw. cbn. eauto. }
    destruct Hr as (x & y & Hr). specialize (Hrect _ Hr).
    rewrite Hdrag, Hbase, Hwm, Hr. cbn [opt_truth negb orb]. rewrite Htb, Htw, Hrect.
    cbn [negb orb]. unfold _widget_to_base, float_truediv.
    destruct (_draw_rect self) as [[[rx ry] rw] rh]. cbn [fst snd].
    rewrite Hscale. cbn [mbind result_bind fst snd].
    rewrite Hbw. cbn [mbind result_bind]. rewrite Hbh. reflexivity.
  - split; [apply clamp_within|]. split; [apply clamp_within|].
    split; [apply clamp_above|]. split; [apply clamp_inverted|].
    split; [apply clamp_inverted|].
    intros Hw200 Hw100 Hpast. subst center_x half_w base_w. rewrite Hw200, Hw100.
    assert (Hhi : (Z2F 200 - Z2F 100 / 2)%float = 150%float) by (vm_compute; reflexivity).
    rewrite Hhi. rewrite clamp_above.
    + split; vm_compute; reflexivity.
    + vm_compute. reflexivity.
    + exact Hpast.
Qed.

(** * More of the code

    The rest of what can be embedded of the files above: the settings
    store, the listing of templates, the image collection, the anchor
    buttons of the controls panel and the two export commands. *)

(** ** JSON

    What [json.loads] gives back for what [json.dumps] was given: a tuple
    comes back as a list, everything else as it was. *)
Fixpoint jsonify (v : pyval) : pyval :=
  match v with
  | PyList items | PyTuple items => PyList (map jsonify items)
  | PyDict d => PyDict (jsonify <$> d)
  | _ => v
  end.

(** The settings a document gives back: the two tuples of the text
    descriptor have become lists, everything else is as it was. *)
Definition text_via_json (s : TextWatermarkSettings.t) : TextWatermarkSettings.t :=
  TextWatermarkSettings.mk
    (TextWatermarkSettings.text s) (TextWatermarkSettings.font_family s)
    (TextWatermarkSettings.font_size s) (TextWatermarkSettings.bold s)
    (TextWatermarkSettings.italic s)
    (AsList (seq_items (TextWatermarkSettings.color s)))
    (TextWatermarkSettings.opacity s) (TextWatermarkSettings.shadow_enabled s)
    (TextWatermarkSettings.outline_enabled s) (TextWatermarkSettings.outline_width s)
    (AsList (seq_items (TextWatermarkSettings.shadow_offset s))).

Definition settings_via_json (s : WatermarkSettings.t) : WatermarkSettings.t :=
  WatermarkSettings.mk
    (WatermarkSettings.watermark_type s) (text_via_json (WatermarkSettings.text_settings s))
    (WatermarkSettings.image_settings s) (WatermarkSettings.rotation s)
    (WatermarkSettings.layout s).

(** ** [settings_store.py] *)

Definition store_payload (watermark : WatermarkSettings.t) (export : ExportSettings.t)
    : pyval :=
  PyDict (list_to_map
    [("watermark", PyDict (WatermarkSettings.to_dict watermark));
     ("export", PyDict (ExportSettings.to_dict export))]).

Definition settings_store_load (storage_path : string) (fs : FileSystem)
    : result (WatermarkSettings.t * ExportSettings.t) :=
  if negb (path_exists fs storage_path) then
    Ok (WatermarkSettings.default, ExportSettings.default)
  else
    text ← read_text fs storage_path;
    match json_loads text with
    | None => Ok (WatermarkSettings.default, ExportSettings.default)
    | Some (PyDict raw) =>
        let watermark_state := dict_get raw "watermark" (PyDict ∅) in
        let export_state := dict_get raw "export" (PyDict ∅) in
        watermark ← nested AttributeError WatermarkSettings.from_dict watermark_state;
        export ← nested AttributeError ExportSettings.from_dict export_state;
        Ok (watermark, export)
    | Some _ => Raise AttributeError
    end.

Definition settings_store_save (storage_path : string) (fs : FileSystem)
    (watermark : WatermarkSettings.t) (export : ExportSettings.t) : result FileSystem :=
  write_text fs storage_path (json_dumps (store_payload watermark export)).

(** ** [template_manager.py]: the payload and the listing *)

Definition template_payload (name : string) (watermark : WatermarkSettings.t)
    (export : ExportSettings.t) : pyval :=
  PyDict (list_to_map
    [("name", PyStr name);
     ("watermark", PyDict (WatermarkSettings.to_dict watermark));
     ("export", PyDict (ExportSettings.to_dict export))]).

Definition ends_with (suffix s : string) : bool :=
  String.prefix (String.rev suffix) (String.rev s).

(** [dir.glob("*" + suffix)]: the entries directly in [dir] (the paths
    that [dir / name] gives for their own name) whose name ends with the
    suffix. *)
Definition glob_suffix (fs : FileSystem) (dir suffix : string) : list string :=
  filter (fun p => bool_decide (p = joinpath dir (path_name p))
                   && ends_with suffix (path_name p) = true)
    (map fst (map_to_list fs)).

(** [sorted] on paths of one directory: the order of the code points. *)
Definition list_templates (templates_dir : string) (fs : FileSystem) : list string :=
  map path_stem (merge_sort String.le (glob_suffix fs templates_dir TEMPLATE_SUFFIX)).

(** ** [image_manager.py]: the collection *)

Definition SUPPORTED_INPUT_EXTENSIONS : list string :=
  [".jpg"; ".jpeg"; ".png"; ".bmp"; ".tif"; ".tiff"].

(** [Path.suffix]: the last suffix of the final component, with its dot. *)
Definition path_suffix (p : string) : string :=
  let name := path_name p in
  match rsplit "." name with
  | Some (l, r) => if bool_decide (l = "") || bool_decide (r = "") then "" else "." +:+ r
  | None => ""
  end.

Definition is_file (fs : FileSystem) (p : string) : bool :=
  match fs !! p with
  | Some (RegularFile _) => true
  | _ => false
  end.

(** [pixmap.isNull()] *)
Variable pixmap_isNull : QPixmap -> bool.
(** [pixmap.scaled(w, h, Qt.KeepAspectRatio, Qt.SmoothTransformation)] *)
Variable pixmap_scaled : QPixmap -> Z -> Z -> QPixmap.

Record ImageManager := {
  _items : list ImageItem;
  _thumbnail_cache : gmap string QPixmap;
}.

Definition manager_clear (self : ImageManager) : ImageManager :=
  {| _items := []; _thumbnail_cache := ∅ |}.

Definition has_path (items : list ImageItem) (p : string) : bool :=
  existsb (fun item => bool_decide (path item = p)) items.

(** The loop of [add_paths], on the list of items: the items it leaves and
    the paths it added. *)
Fixpoint add_paths_loop (fs : FileSystem) (items : list ImageItem) (paths : list string)
    : list ImageItem * list string :=
  match paths with
  | [] => (items, [])
  | raw_path :: rest =>
      let p := Path raw_path in
      if negb (path_exists fs p) || negb (is_file fs p) then add_paths_loop fs items rest
      else if negb (bool_decide (lower (path_suffix p) ∈ SUPPORTED_INPUT_EXTENSIONS))
      then add_paths_loop fs items rest
      else if has_path items p then add_paths_loop fs items rest
      else
        let '(items, added) := add_paths_loop fs (items ++ [{| path := p |}]) rest in
        (items, p :: added)
  end.

Definition add_paths (fs : FileSystem) (self : ImageManager) (paths : list string)
    : list string * ImageManager :=
  let '(items, added) := add_paths_loop fs (_items self) paths in
  (added, {| _items := items; _thumbnail_cache := _thumbnail_cache self |}).

(** [list.pop(index)]: a negative index counts from the end. *)
Definition list_pop {A} (l : list A) (index : Z) : result (A * list A) :=
  let n := Z.of_nat (length l) in
  let i := if index <? 0 then index + n else index in
  if (i <? 0) || (n <=? i) then Raise IndexError
  else
    match l !! Z.to_nat i with
    | Some x => Ok (x, delete (Z.to_nat i) l)
    | None => Raise IndexError
    end.

Definition remove_index (self : ImageManager) (index : Z) : result ImageManager :=
  '(item, items) ← list_pop (_items self) index;
  Ok {| _items := items; _thumbnail_cache := delete (path item) (_thumbnail_cache self) |}.

Definition load_thumbnail (fs : FileSystem) (self : ImageManager) (p : string)
    (max_size : Z) : option QPixmap * ImageManager :=
  match _thumbnail_cache self !! p with
  | Some pm => (Some pm, self)
  | None =>
      match load_pixmap fs p with
      | None => (None, self)
      | Some pm =>
          if pixmap_isNull pm then (None, self)
          else
            let pm := pixmap_scaled pm max_size max_size in
            (Some pm,
             {| _items := _items self;
                _thumbnail_cache := <[p := pm]> (_thumbnail_cache self) |})
      end
  end.

(** ** [widgets/controls_panel.py]: the anchor buttons *)

(** The [position_map] of [_on_anchor_selected]. *)
Definition position_map (anchor : WatermarkAnchor) : float * float :=
  match anchor with
  | TOP_LEFT => (0.05, 0.05)
  | TOP_CENTER => (0.5, 0.05)
  | TOP_RIGHT => (0.95, 0.05)
  | CENTER_LEFT => (0.05, 0.5)
  | CENTER => (0.5, 0.5)
  | CENTER_RIGHT => (0.95, 0.5)
  | BOTTOM_LEFT => (0.05, 0.95)
  | BOTTOM_CENTER => (0.5, 0.95)
  | BOTTOM_RIGHT => (0.95, 0.95)
  end%float.

(** The layout [_on_anchor_selected] leaves. *)
Definition _on_anchor_selected (layout : WatermarkLayout.t) (anchor : WatermarkAnchor)
    : WatermarkLayout.t :=
  WatermarkLayout.mk (position_map anchor) anchor.

(** ** [main_window.py]: the two export commands *)

(** An information box instead of an export. *)
Inductive notice := InfoSelectImage | InfoNothingToExport.

Definition _export_selected (watermark_settings : WatermarkSettings.t)
    (export_settings : ExportSettings.t) (fs : FileSystem) (items : list ImageItem)
    (current_row : Z) : result (notice + option ExportOutcome) :=
  let index := current_row in
  if index <? 0 then Ok (inl InfoSelectImage)
  else if Z.of_nat (length items) <=? index then Ok (inr None)
  else
    match items !! Z.to_nat index with
    | Some item =>
        outcome ← _export_images watermark_settings export_settings fs [item];
        Ok (inr (Some outcome))
    | None => Raise IndexError
    end.

Definition _export_all (watermark_settings : WatermarkSettings.t)
    (export_settings : ExportSettings.t) (fs : FileSystem) (items : list ImageItem)
    : result (notice + ExportOutcome) :=
  match items with
  | [] => Ok (inl InfoNothingToExport)
  | _ =>
      outcome ← _export_images watermark_settings export_settings fs items;
      Ok (inr outcome)
  end.

(** ** [image_manager.py]: folders *)

Definition is_dir (fs : FileSystem) (p : string) : bool :=
  match fs !! p with
  | Some (Directory _) => true
  | _ => false
  end.

(** [dir_path.rglob("*")] and [dir_path.glob("*")], in the order the
    operating system lists the entries. *)
Variable rglob glob : FileSystem -> string -> list string.

Fixpoint add_directory_loop (fs : FileSystem) (self : ImageManager) (files : list string)
    : list string * ImageManager :=
  match files with
  | [] => ([], self)
  | file_path :: rest =>
      if is_file fs file_path
         && bool_decide (lower (path_suffix file_path) ∈ SUPPORTED_INPUT_EXTENSIONS)
      then
        let '(added, self) := add_paths fs self [file_path] in
        let '(found, self) := add_directory_loop fs self rest in
        ((added ++ found)%list, self)
      else add_directory_loop fs self rest
  end.

Definition add_directory (fs : FileSystem) (self : ImageManager) (directory : string)
    (recursive : bool) : list string * ImageManager :=
  let dir_path := Path directory in
  if negb (path_exists fs dir_path) || negb (is_dir fs dir_path) then ([], self)
  else add_directory_loop fs self ((if recursive then rglob else glob) fs dir_path).

(** ** [widgets/image_list_widget.py] and the image handlers of [main_window.py] *)

(** A row of the list widget: its text, the path it keeps under
    [Qt.UserRole], its icon. *)
Record QListWidgetItem := {
  item_text : string;
  item_data : string;
  item_icon : option QPixmap;
}.

Definition add_image_item (rows : list QListWidgetItem) (image : ImageItem)
    (thumbnail : option QPixmap) : list QListWidgetItem :=
  (rows ++ [{| item_text := path_name (path image);
               item_data := path image;
               item_icon := if opt_truth thumbnail then thumbnail else None |}])%list.

(** The handlers below are what they do to the collection and to the rows
    of the list; the current row is an argument where a handler reads it,
    and the preview and the status bar are left out. *)

(** The loop of [_add_images] over the paths [add_paths] returned. *)
Fixpoint add_images_loop (fs : FileSystem) (self : ImageManager)
    (rows : list QListWidgetItem) (added_paths : list string)
    : ImageManager * list QListWidgetItem :=
  match added_paths with
  | [] => (self, rows)
  | p :: rest =>
      let '(pixmap, self) := load_thumbnail fs self p 96 in
      let item := List.find (fun it => bool_decide (path it = p)) (_items self) in
      let rows :=
        match item with
        | Some it => add_image_item rows it pixmap
        | None => rows
        end in
      add_images_loop fs self rows rest
  end.

(** With the number the status bar shows. *)
Definition _add_images (fs : FileSystem) (self : ImageManager)
    (rows : list QListWidgetItem) (paths : list string)
    : ImageManager * list QListWidgetItem * nat :=
  let '(added_paths, self) := add_paths fs self paths in
  let '(self, rows) := add_images_loop fs self rows added_paths in
  (self, rows, length added_paths).

Fixpoint refresh_loop (fs : FileSystem) (self : ImageManager)
    (rows : list QListWidgetItem) (items : list ImageItem)
    : ImageManager * list QListWidgetItem :=
  match items with
  | [] => (self, rows)
  | item :: rest =>
      let '(pixmap, self) := load_thumbnail fs self (path item) 96 in
      refresh_loop fs self (add_image_item rows item pixmap) rest
  end.

Definition _refresh_image_list (fs : FileSystem) (self : ImageManager)
    : ImageManager * list QListWidgetItem :=
  refresh_loop fs self [] (_items self).

Definition _import_folder (fs : FileSystem) (self : ImageManager)
    (rows : list QListWidgetItem) (directory : string)
    : ImageManager * list QListWidgetItem :=
  if bool_decide (directory = "") then (self, rows)
  else
    let '(added, self) := add_directory fs self directory true in
    _refresh_image_list fs self.

Definition _on_files_dropped (fs : FileSystem) (self : ImageManager)
    (rows : list QListWidgetItem) (files : list string)
    : ImageManager * list QListWidgetItem :=
  let folders := Path <$> List.filter (fun f => is_dir fs (Path f)) files in
  let direct_files :=
    List.filter (fun f => negb (is_dir fs (Path f)) && is_file fs (Path f)) files in
  let '(self, rows) :=
    match direct_files with
    | [] => (self, rows)
    | _ => fst (_add_images fs self rows direct_files)
    end in
  let self :=
    fold_left (fun self folder => snd (add_directory fs self folder true)) folders self in
  match folders with
  | [] => (self, rows)
  | _ => _refresh_image_list fs self
  end.

(** [row] is [image_list.currentRow()]; [takeItem] does nothing for a row
    that is not there. *)
Definition _remove_selected_image (self : ImageManager) (rows : list QListWidgetItem)
    (row : Z) : result (ImageManager * list QListWidgetItem) :=
  if (length rows =? 0)%nat then Ok (self, rows)
  else if row <? 0 then Ok (self, rows)
  else
    self ← remove_index self row;
    Ok (self, delete (Z.to_nat row) rows).

Definition _clear_images (self : ImageManager) (rows : list QListWidgetItem)
    : ImageManager * list QListWidgetItem :=
  (manager_clear self, []).

(** * More properties *)

(** ** [clamp] *)

Lemma ltb_irrefl x : (x <? x)%float = false.
Proof.
  destruct (x <? x)%float eqn:H; [|reflexivity].
  pose proof (ltb_asym _ _ H) as H'. congruence.
Qed.

(** X1: [clamp] returns one of its three arguments as it is, and clamping
    a second time with the same bounds changes nothing, whatever the bounds
    and the value are. *)
Theorem X1_clamp_idempotent (v lo hi : float) :
  (clamp v lo hi = v \/ clamp v lo hi = lo \/ clamp v lo hi = hi)
  /\ clamp (clamp v lo hi) lo hi = clamp v lo hi.
Proof.
  unfold clamp, py_max, py_min.
  destruct (v <? hi)%float eqn:Hv.
  - destruct (lo <? v)%float eqn:Hlo.
    + split; [auto|]. rewrite Hv, Hlo. reflexivity.
    + split; [auto|].
      destruct (lo <? hi)%float eqn:Hh; rewrite ?ltb_irrefl, ?Hh; reflexivity.
  - destruct (lo <? hi)%float eqn:Hlo.
    + split; [auto|]. rewrite ltb_irrefl, Hlo. reflexivity.
    + split; [auto|]. rewrite Hlo, ?ltb_irrefl, ?Hlo. reflexivity.
Qed.

(** ** Anchors *)

(** X2: [nearest_anchor] never misses its grid, and the anchor it returns
    is the one of the band each coordinate falls in: ratio 0 below 0.33,
    ratio 0.5 up to 0.66, ratio 1 otherwise (a NaN included). *)
Theorem X2_nearest_anchor_bands (x y : float) :
  exists a,
    nearest_anchor (x, y) = Ok a
    /\ fst (anchor_to_position a)
       = (if x <? 0.33 then 0 else if x <=? 0.66 then 0.5 else 1)%float
    /\ snd (anchor_to_position a)
       = (if y <? 0.33 then 0 else if y <=? 0.66 then 0.5 else 1)%float.
Proof.
  unfold nearest_anchor, bucket.
  destruct (x <? 0.33)%float, (x <=? 0.66)%float, (y <? 0.33)%float, (y <=? 0.66)%float;
    eexists; (split; [vm_compute; reflexivity|split; reflexivity]).
Qed.

(** X3: the position an anchor button sets lies in the band of its own
    anchor: classifying it gives the anchor of the button back. *)
Theorem X3_anchor_button_position (layout : WatermarkLayout.t) (a : WatermarkAnchor) :
  nearest_anchor (WatermarkLayout.position (_on_anchor_selected layout a))
  = Ok (WatermarkLayout.anchor (_on_anchor_selected layout a)).
Proof. destruct a; vm_compute; reflexivity. Qed.

(** ** UTF-8 *)

Lemma utf8_points_one b0 rest :
  (N_of_ascii b0 < 128)%N ->
  utf8_points (String b0 rest) = cons (N_of_ascii b0) <$> utf8_points rest.
Proof.
  intros H0. cbn [utf8_points].
  destruct (N.ltb_spec (N_of_ascii b0) 128); [reflexivity|lia].
Qed.

Lemma utf8_points_two b0 b1 rest :
  (194 <= N_of_ascii b0 <= 223)%N ->
  continuation b1 = true ->
  utf8_points (String b0 (String b1 rest))
  = cons ((N_of_ascii b0 - 192) * 64 + (N_of_ascii b1 - 128))%N <$> utf8_points rest.
Proof.
  intros H0 H1. cbn [utf8_points].
  destruct (N.ltb_spec (N_of_ascii b0) 128); [lia|].
  destruct (N.leb_spec 194 (N_of_ascii b0)); [|lia].
  destruct (N.leb_spec (N_of_ascii b0) 223); [|lia].
  cbn [andb]. rewrite H1. reflexivity.
Qed.

Lemma utf8_points_encode_step c rest :
  utf8_points (utf8_encode (String c rest))
  = cons (N_of_ascii c) <$> utf8_points (utf8_encode rest).
Proof.
  cbn [utf8_encode]. pose proof (N_ascii_bounded c) as Hc.
  destruct (N.ltb_spec (N_of_ascii c) 128) as [Hlt|Hge].
  - apply utf8_points_one, Hlt.
  - pose proof (N.div_mod (N_of_ascii c) 64 ltac:(discriminate)) as Hdm.
    assert (Hmod : (N_of_ascii c mod 64 < 64)%N) by (apply N.mod_lt; discriminate).
    set (n := N_of_ascii c) in *. set (q := (n `div` 64)%N) in *.
    set (r := (n `mod` 64)%N) in *. clearbody q r n.
    rewrite utf8_points_two.
    + rewrite !N_ascii_embedding by lia. f_equal. f_equal. lia.
    + rewrite N_ascii_embedding by lia. lia.
    + unfold continuation. rewrite N_ascii_embedding by lia.
      destruct (N.leb_spec 128 (128 + r)); [|lia].
      destruct (N.leb_spec (128 + r) 191); [reflexivity|lia].
Qed.

Lemma utf8_points_encode s :
  utf8_points (utf8_encode s) = Some (map N_of_ascii (list_ascii_of_string s)).
Proof.
  induction s as [|c s IH]; [reflexivity|].
  rewrite utf8_points_encode_step, IH. reflexivity.
Qed.

(** What was written as text is read back as it was. *)
Lemma utf8_roundtrip s : utf8_decode (utf8_encode s) = Ok s.
Proof.
  unfold utf8_decode. rewrite utf8_points_encode.
  assert (Hall : forallb (fun n => n <? 256)%N (map N_of_ascii (list_ascii_of_string s))
                 = true).
  { apply forallb_forall. intros n [c [<- _]]%in_map_iff.
    apply N.ltb_lt, N_ascii_bounded. }
  rewrite Hall, map_map. f_equal. clear Hall.
  induction s as [|c s IH]; cbn; [reflexivity|].
  rewrite ascii_N_embedding, IH. reflexivity.
Qed.

(** ** Serialization, through JSON too *)

Lemma naming_of_value_value m : naming_of_value (naming_value m) = Ok m.
Proof. destruct m; reflexivity. Qed.

Lemma resize_of_value_value m : resize_of_value (resize_value_of m) = Ok m.
Proof. destruct m; reflexivity. Qed.

(** X4: [ExportSettings.from_dict] gives back what [to_dict] was given,
    every field included. *)
Theorem X4_export_settings_roundtrip (e : ExportSettings.t) :
  ExportSettings.from_dict (ExportSettings.to_dict e) = Ok e.
Proof.
  destruct e as [fmt [dir|] naming pre suf prevent quality resize [value|]];
    destruct naming, resize; reflexivity.
Qed.

Lemma text_json_roundtrip s :
  TextWatermarkSettings.from_dict (jsonify <$> TextWatermarkSettings.to_dict s)
  = Ok (text_via_json s).
Proof.
  destruct s as [? ? ? ? ? [[[[? ?] ?] ?]|[[[? ?] ?] ?]] ? ? ? ? [[? ?]|[? ?]]];
    reflexivity.
Qed.

Lemma image_json_roundtrip s :
  ImageWatermarkSettings.from_dict (jsonify <$> ImageWatermarkSettings.to_dict s) = Ok s.
Proof. destruct s as [[p|] ? ?]; reflexivity. Qed.

Lemma layout_json_roundtrip l :
  WatermarkLayout.from_dict (jsonify <$> WatermarkLayout.to_dict l) = Ok l.
Proof. destruct l as [[x y] a]. destruct a; reflexivity. Qed.

Lemma export_json_roundtrip e :
  ExportSettings.from_dict (jsonify <$> ExportSettings.to_dict e) = Ok e.
Proof.
  destruct e as [fmt [dir|] naming pre suf prevent quality resize [value|]];
    destruct naming, resize; reflexivity.
Qed.

Lemma settings_json_roundtrip s :
  WatermarkSettings.from_dict (jsonify <$> WatermarkSettings.to_dict s)
  = Ok (settings_via_json s).
Proof.
  unfold WatermarkSettings.from_dict.
  replace (dict_get (jsonify <$> WatermarkSettings.to_dict s) "watermark_type"
             (PyStr (type_value TEXT)))
    with (PyStr (type_value (WatermarkSettings.watermark_type s))) by reflexivity.
  replace (dict_get (jsonify <$> WatermarkSettings.to_dict s) "text_settings" (PyDict ∅))
    with (PyDict (jsonify <$> TextWatermarkSettings.to_dict
                    (WatermarkSettings.text_settings s))) by reflexivity.
  replace (dict_get (jsonify <$> WatermarkSettings.to_dict s) "image_settings" (PyDict ∅))
    with (PyDict (jsonify <$> ImageWatermarkSettings.to_dict
                    (WatermarkSettings.image_settings s))) by reflexivity.
  replace (dict_get (jsonify <$> WatermarkSettings.to_dict s) "rotation" (PyFloat 0))
    with (PyFloat (WatermarkSettings.rotation s)) by reflexivity.
  replace (dict_get (jsonify <$> WatermarkSettings.to_dict s) "layout" (PyDict ∅))
    with (PyDict (jsonify <$> WatermarkLayout.to_dict (WatermarkSettings.layout s)))
    by reflexivity.
  cbn [enum_lookup nested py_float].
  rewrite type_of_value_value, text_json_roundtrip, image_json_roundtrip,
    layout_json_roundtrip.
  destruct s. reflexivity.
Qed.

(** What a decoded payload hands to the two [from_dict]. *)
Lemma decode_states raw watermark export :
  raw !! "watermark" = Some (PyDict (jsonify <$> WatermarkSettings.to_dict watermark)) ->
  raw !! "export" = Some (PyDict (jsonify <$> ExportSettings.to_dict export)) ->
  (w ← nested AttributeError WatermarkSettings.from_dict
         (dict_get raw "watermark" (PyDict ∅));
   e ← nested AttributeError ExportSettings.from_dict (dict_get raw "export" (PyDict ∅));
   Ok (w, e))
  = Ok (settings_via_json watermark, export).
Proof.
  intros Hw He. unfold dict_get. rewrite Hw, He. cbn [nested].
  rewrite settings_json_roundtrip. cbn [mbind result_bind nested].
  rewrite export_json_roundtrip. reflexivity.
Qed.

(** A text without a carriage return is read as it is. *)
Lemma newlines_free s :
  occurs "013" s = false -> newlines false s = s.
Proof.
  induction s as [|c s IH]; cbn; [reflexivity|].
  intros [Hc Hs]%orb_false_iff. rewrite Hc, andb_false_r, IH by exact Hs. reflexivity.
Qed.

(** What a write leaves is what a read finds, when the text holds no
    carriage return. *)
Lemma write_text_read_text (fs fs' : FileSystem) p q content :
  occurs "013" content = false ->
  (fs1 ← write_text fs q content; Ok (q, fs1)) = Ok (p, fs') ->
  p = q /\ path_exists fs' q = true /\ read_text fs' q = Ok content.
Proof.
  unfold write_text. intros Hreturn Hwrite.
  assert (Hfs : fs' = <[q := RegularFile (utf8_encode content)]> fs /\ p = q).
  { destruct (fs !! q) as [[]|]; cbn in Hwrite; inversion Hwrite; auto. }
  destruct Hfs as [-> ->]. split; [reflexivity|]. split.
  - apply bool_decide_eq_true. rewrite lookup_insert_eq. eauto.
  - unfold read_text. rewrite lookup_insert_eq, utf8_roundtrip. cbn.
    unfold universal_newlines. rewrite newlines_free by exact Hreturn. reflexivity.
Qed.

(** The settings that JSON gives back unchanged. *)
Lemma via_json_fixed (watermark : WatermarkSettings.t) :
  settings_via_json watermark = watermark
  <-> exists color offset,
        TextWatermarkSettings.color (WatermarkSettings.text_settings watermark)
        = AsList color
        /\ TextWatermarkSettings.shadow_offset (WatermarkSettings.text_settings watermark)
           = AsList offset.
Proof.
  destruct watermark as [ty [? ? ? ? ? color ? ? ? ? offset] image rotation layout].
  unfold settings_via_json, text_via_json. cbn. split.
  - intros [= Hcolor Hoffset]. rewrite <- Hcolor, <- Hoffset. eauto.
  - intros (c & o & -> & ->). reflexivity.
Qed.

(** X5: a template that was saved loads back, under the same name, as the
    settings that were saved but for the kind of two sequences: the colour
    and the shadow offset of the text descriptor come back as lists, tuples
    or not before, so that the loaded settings equal the saved ones exactly
    when these two were lists already.  This is so when [json.loads] reads
    what [json.dumps] wrote (tuples as lists), which holds no carriage
    return: [json.dumps] escapes the control characters. *)
Theorem X5_template_save_then_load (templates_dir name : string) (fs fs' : FileSystem)
    (p : string) (watermark : WatermarkSettings.t) (export : ExportSettings.t) :
  json_loads (json_dumps (template_payload name watermark export))
  = Some (jsonify (template_payload name watermark export)) ->
  occurs "013" (json_dumps (template_payload name watermark export)) = false ->
  save_template templates_dir fs name watermark export = Ok (p, fs') ->
  load_template templates_dir fs' name = Ok (settings_via_json watermark, export)
  /\ (settings_via_json watermark = watermark
      <-> exists color offset,
            TextWatermarkSettings.color (WatermarkSettings.text_settings watermark)
            = AsList color
            /\ TextWatermarkSettings.shadow_offset (WatermarkSettings.text_settings watermark)
               = AsList offset).
Proof.
  intros Hjson Hreturn Hsave. split; [|apply via_json_fixed].
  unfold save_template in Hsave. unfold load_template.
  destruct (_template_path templates_dir name) as [q|e]; [|discriminate].
  cbn [mbind result_bind] in Hsave |- *.
  apply (write_text_read_text fs fs' p q
           (json_dumps (template_payload name watermark export)) Hreturn)
    in Hsave as (-> & Hexists & Hread).
  rewrite Hexists. cbn [negb]. rewrite Hread. cbn [mbind result_bind].
  rewrite Hjson. cbn [jsonify template_payload].
  apply decode_states; reflexivity.
Qed.

(** X6: the settings store reads back what it saved, in the same sense and
    under the same assumption on the JSON codec. *)
Theorem X6_store_save_then_load (storage_path : string) (fs fs' : FileSystem)
    (watermark : WatermarkSettings.t) (export : ExportSettings.t) :
  json_loads (json_dumps (store_payload watermark export))
  = Some (jsonify (store_payload watermark export)) ->
  occurs "013" (json_dumps (store_payload watermark export)) = false ->
  settings_store_save storage_path fs watermark export = Ok fs' ->
  settings_store_load storage_path fs' = Ok (settings_via_json watermark, export)
  /\ (settings_via_json watermark = watermark
      <-> exists color offset,
            TextWatermarkSettings.color (WatermarkSettings.text_settings watermark)
            = AsList color
            /\ TextWatermarkSettings.shadow_offset (WatermarkSettings.text_settings watermark)
               = AsList offset).
Proof.
  intros Hjson Hreturn Hsave. split; [|apply via_json_fixed].
  unfold settings_store_save in Hsave. unfold settings_store_load.
  assert (Hwritten : (fs1 ← write_text fs storage_path
                              (json_dumps (store_payload watermark export));
                      Ok (storage_path, fs1)) = Ok (storage_path, fs')).
  { rewrite Hsave. reflexivity. }
  apply (write_text_read_text fs fs' storage_path storage_path
           (json_dumps (store_payload watermark export)) Hreturn)
    in Hwritten as (_ & Hexists & Hread).
  rewrite Hexists. cbn [negb]. rewrite Hread. cbn [mbind result_bind].
  rewrite Hjson. cbn [jsonify store_payload].
  apply decode_states; reflexivity.
Qed.

(** ** What loading can raise *)

(** The exceptions of decoding a dictionary into settings. *)
Definition is_decoding (e : exn) : bool :=
  match e with
  | ValueError | TypeError | IndexError | OverflowError | AttributeError | Unsupported => true
  | _ => false
  end.

Definition decodes {A} (r : result A) : Prop := forall e, r = Raise e -> is_decoding e = true.

Lemma decodes_ok {A} (a : A) : decodes (Ok a).
Proof. intros e [=]. Qed.

Lemma decodes_raise {A} e : is_decoding e = true -> decodes (@Raise A e).
Proof. intros He e' [= <-]. exact He. Qed.

Lemma decodes_bind {A B} (r : result A) (k : A -> result B) :
  decodes r -> (forall a, decodes (k a)) -> decodes (r ≫= k).
Proof.
  intros Hr Hk. destruct r as [a|e]; cbn; [apply Hk|].
  intros e' [= <-]. apply Hr. reflexivity.
Qed.

Lemma decodes_float_of_int n : decodes (float_of_int n).
Proof. unfold float_of_int. destruct (PrimFloat.is_infinity _); intros err [= <-]; reflexivity. Qed.

Lemma decodes_int_of_float x : decodes (int_of_float x).
Proof. unfold int_of_float. destruct (Prim2SF x); intros err [= <-]; reflexivity. Qed.

Lemma decodes_py_float v : decodes (py_float v).
Proof.
  destruct v; cbn; try (intros err [= <-]; reflexivity). apply decodes_float_of_int.
Qed.

Lemma decodes_py_int v : decodes (py_int v).
Proof.
  destruct v; cbn; try (intros err [= <-]; reflexivity). apply decodes_int_of_float.
Qed.

Lemma decodes_py_index items i : decodes (py_index items i).
Proof. unfold py_index. destruct (items !! i); intros err [= <-]; reflexivity. Qed.

Lemma decodes_as_str v : decodes (as_str v).
Proof. destruct v; intros err [= <-]; reflexivity. Qed.

Lemma decodes_as_opt_str v : decodes (as_opt_str v).
Proof. destruct v; intros err [= <-]; reflexivity. Qed.

Lemma decodes_as_int v : decodes (as_int v).
Proof. destruct v; intros err [= <-]; reflexivity. Qed.

Lemma decodes_as_opt_int v : decodes (as_opt_int v).
Proof. destruct v; intros err [= <-]; reflexivity. Qed.

Lemma decodes_as_bool v : decodes (as_bool v).
Proof. destruct v; intros err [= <-]; reflexivity. Qed.

Lemma decodes_as_float v : decodes (as_float v).
Proof. destruct v; intros err [= <-]; reflexivity. Qed.

Lemma decodes_as_int2 v : decodes (as_int2 v).
Proof. unfold as_int2. repeat case_match; intros err [= <-]; reflexivity. Qed.

Lemma decodes_as_int4 v : decodes (as_int4 v).
Proof. unfold as_int4. repeat case_match; intros err [= <-]; reflexivity. Qed.

Lemma decodes_kwarg {A} data key (cast : pyval -> result A) default :
  (forall v, decodes (cast v)) -> decodes (kwarg data key cast default).
Proof.
  intros Hcast. unfold kwarg. destruct (data !! key); [apply Hcast|apply decodes_ok].
Qed.

Lemma decodes_anchor_of_value s : decodes (anchor_of_value s).
Proof. unfold anchor_of_value. destruct (find _ _); intros err [= <-]; reflexivity. Qed.

Lemma decodes_type_of_value s : decodes (type_of_value s).
Proof. unfold type_of_value. destruct (find _ _); intros err [= <-]; reflexivity. Qed.

Lemma decodes_naming_of_value s : decodes (naming_of_value s).
Proof. unfold naming_of_value. destruct (find _ _); intros err [= <-]; reflexivity. Qed.

Lemma decodes_resize_of_value s : decodes (resize_of_value s).
Proof. unfold resize_of_value. destruct (find _ _); intros err [= <-]; reflexivity. Qed.

Lemma decodes_enum_lookup {A} (of_value : string -> result A) v :
  (forall s, decodes (of_value s)) -> decodes (enum_lookup of_value v).
Proof. intros H. destruct v; cbn; try (intros err [= <-]; reflexivity). apply H. Qed.

Lemma decodes_nested {A} e (from : gmap string pyval -> result A) v :
  is_decoding e = true -> (forall d, decodes (from d)) -> decodes (nested e from v).
Proof. intros He H. destruct v; cbn; try (apply decodes_raise, He). apply H. Qed.

Create HintDb decodes discriminated.
#[local] Hint Resolve decodes_ok decodes_bind decodes_float_of_int decodes_int_of_float
  decodes_py_float decodes_py_int decodes_py_index decodes_as_str decodes_as_opt_str
  decodes_as_int decodes_as_opt_int decodes_as_bool decodes_as_float decodes_as_int2
  decodes_as_int4 decodes_kwarg decodes_anchor_of_value decodes_type_of_value
  decodes_naming_of_value decodes_resize_of_value decodes_enum_lookup : decodes.

Lemma decodes_text_from_dict d : decodes (TextWatermarkSettings.from_dict d).
Proof.
  unfold TextWatermarkSettings.from_dict.
  destruct (only_fields _ _); [|apply decodes_raise; reflexivity]. auto 20 with decodes.
Qed.

Lemma decodes_image_from_dict d : decodes (ImageWatermarkSettings.from_dict d).
Proof.
  unfold ImageWatermarkSettings.from_dict.
  destruct (only_fields _ _); [|apply decodes_raise; reflexivity]. auto 10 with decodes.
Qed.

Lemma decodes_layout_from_dict d : decodes (WatermarkLayout.from_dict d).
Proof.
  unfold WatermarkLayout.from_dict.
  apply decodes_bind; [|auto 10 with decodes].
  repeat case_match; try (apply decodes_raise; reflexivity); auto 10 with decodes.
Qed.

Lemma decodes_settings_from_dict d : decodes (WatermarkSettings.from_dict d).
Proof.
  unfold WatermarkSettings.from_dict.
  repeat (apply decodes_bind; [|intros ?]); auto with decodes.
  all: apply decodes_nested; [reflexivity|].
  all: auto using decodes_text_from_dict, decodes_image_from_dict, decodes_layout_from_dict.
Qed.

Lemma decodes_export_from_dict d : decodes (ExportSettings.from_dict d).
Proof. unfold ExportSettings.from_dict. auto 20 with decodes. Qed.

Lemma decodes_states (raw : gmap string pyval) :
  decodes (w ← nested AttributeError WatermarkSettings.from_dict
                 (dict_get raw "watermark" (PyDict ∅));
           e ← nested AttributeError ExportSettings.from_dict
                 (dict_get raw "export" (PyDict ∅));
           Ok (w, e)).
Proof.
  apply decodes_bind; [|intros w; apply decodes_bind; [|intros; apply decodes_ok]].
  - apply decodes_nested; [reflexivity|apply decodes_settings_from_dict].
  - apply decodes_nested; [reflexivity|apply decodes_export_from_dict].
Qed.

Lemma read_text_exists (fs : FileSystem) p text :
  read_text fs p = Ok text -> path_exists fs p = true.
Proof.
  unfold read_text. intros Hread. apply bool_decide_eq_true.
  destruct (fs !! p); [eauto|discriminate].
Qed.

Lemma read_text_invalid (fs : FileSystem) p bytes :
  fs !! p = Some (RegularFile bytes) -> utf8_points bytes = None ->
  path_exists fs p = true /\ read_text fs p = Raise UnicodeDecodeError.
Proof.
  intros Hfile Hbytes. split.
  - apply bool_decide_eq_true. rewrite Hfile. eauto.
  - unfold read_text, utf8_decode. rewrite Hfile, Hbytes. reflexivity.
Qed.

Lemma read_text_raises (fs : FileSystem) p e :
  path_exists fs p = true -> read_text fs p = Raise e ->
  e = IsADirectoryError \/ e = UnicodeDecodeError \/ e = Unsupported.
Proof.
  intros [n Hn]%bool_decide_eq_true. unfold read_text, utf8_decode. rewrite Hn.
  destruct n as [ident|bytes]; [intros [= <-]; auto|].
  destruct (utf8_points bytes); cbn; [|intros [= <-]; auto].
  destruct (forallb _ _); cbn; [discriminate|intros [= <-]; auto].
Qed.

(** X7: the settings store never reports a missing state file or one that
    is no JSON: [load] gives the default settings when nothing is at the
    path and when the text of the file is no JSON.  A file that is no UTF-8
    is another matter: its [UnicodeDecodeError] is not caught.  The only
    exceptions [load] can raise are that one, that of a path that is a
    directory, and those of decoding a dictionary. *)
Theorem X7_store_load_falls_back (storage_path : string) (fs : FileSystem) :
  (path_exists fs storage_path = false
   \/ (exists text, read_text fs storage_path = Ok text /\ json_loads text = None) ->
   settings_store_load storage_path fs
   = Ok (WatermarkSettings.default, ExportSettings.default))
  /\ (forall bytes,
        fs !! storage_path = Some (RegularFile bytes) ->
        utf8_points bytes = None ->
        settings_store_load storage_path fs = Raise UnicodeDecodeError)
  /\ (forall e,
        settings_store_load storage_path fs = Raise e ->
        e <> FileNotFoundError /\ e <> JSONDecodeError
        /\ (e = IsADirectoryError \/ e = UnicodeDecodeError \/ is_decoding e = true)).
Proof.
  split; [|split].
  - intros [Hmissing|(text & Hread & Hjson)]; unfold settings_store_load.
    + rewrite Hmissing. reflexivity.
    + rewrite (read_text_exists _ _ _ Hread), Hread. cbn. rewrite Hjson. reflexivity.
  - intros bytes Hfile Hbytes. unfold settings_store_load.
    destruct (read_text_invalid _ _ _ Hfile Hbytes) as [-> ->]. reflexivity.
  - intros e. unfold settings_store_load.
    destruct (path_exists fs storage_path) eqn:Hexists; cbn; [|discriminate].
    assert (Hdec : forall e, is_decoding e = true ->
              e <> FileNotFoundError /\ e <> JSONDecodeError
              /\ (e = IsADirectoryError \/ e = UnicodeDecodeError \/ is_decoding e = true)).
    { intros e' He'. repeat split; try (intros ->; discriminate). auto. }
    destruct (read_text fs storage_path) as [text|e'] eqn:Hread; cbn.
    + destruct (json_loads text) as [[| | | | | | |raw]|]; try discriminate;
        try (intros [= <-]; apply Hdec; reflexivity).
      intros Hraise. apply Hdec. exact (decodes_states raw e Hraise).
    + intros [= <-].
      destruct (read_text_raises _ _ _ Hexists Hread) as [->|[->| ->]];
        repeat split; try discriminate; auto.
Qed.

(** X8: everything [load_template] can raise: [ValueError] for a blank
    name, [FileNotFoundError] for a missing file, the error of a path that is
    a directory, [UnicodeDecodeError] for a file that is no UTF-8,
    [JSONDecodeError] for a text that is no JSON, and the exceptions of
    decoding a dictionary.  A text that is no JSON is an error here, where
    the settings store falls back to the defaults. *)
Theorem X8_load_template_errors (templates_dir : string) (fs : FileSystem)
    (name : string) :
  (forall e,
      load_template templates_dir fs name = Raise e ->
      e = FileNotFoundError \/ e = IsADirectoryError \/ e = UnicodeDecodeError
      \/ e = JSONDecodeError \/ is_decoding e = true)
  /\ (forall p text,
        _template_path templates_dir name = Ok p ->
        read_text fs p = Ok text ->
        json_loads text = None ->
        load_template templates_dir fs name = Raise JSONDecodeError)
  /\ (forall p bytes,
        _template_path templates_dir name = Ok p ->
        fs !! p = Some (RegularFile bytes) ->
        utf8_points bytes = None ->
        load_template templates_dir fs name = Raise UnicodeDecodeError).
Proof.
  split; [|split].
  - intros e. unfold load_template, _template_path, _sanitize_name.
    destruct (bool_decide (strip name = "")); cbn; [intros [= <-]; auto 6|].
    destruct (path_exists fs _) eqn:Hexists; cbn; [|intros [= <-]; auto].
    destruct (read_text fs _) as [text|e'] eqn:Hread; cbn.
    + destruct (json_loads text) as [[| | | | | | |raw]|]; try (intros [= <-]; auto 6).
      intros Hraise. do 4 right. exact (decodes_states raw e Hraise).
    + intros [= <-].
      destruct (read_text_raises _ _ _ Hexists Hread) as [->|[->| ->]]; auto 6.
  - intros p text Hpath Hread Hjson. unfold load_template. rewrite Hpath. cbn.
    rewrite (read_text_exists _ _ _ Hread), Hread. cbn. rewrite Hjson. reflexivity.
  - intros p bytes Hpath Hfile Hbytes. unfold load_template. rewrite Hpath. cbn.
    destruct (read_text_invalid _ _ _ Hfile Hbytes) as [-> ->]. reflexivity.
Qed.

(** ** Template names *)

Fixpoint all_valid (s : string) : bool :=
  match s with
  | "" => true
  | String c rest => valid_char c && all_valid rest
  end.

Lemma valid_char_not_space c : valid_char c = true -> is_space c = false.
Proof.
  unfold valid_char, is_space. set (n := N_of_ascii c).
  rewrite !orb_true_iff, !andb_true_iff, !N.leb_le, !N.eqb_eq.
  intros H. apply not_true_is_false.
  rewrite !orb_true_iff, !andb_true_iff, !N.leb_le, !N.eqb_eq. lia.
Qed.

Lemma valid_char_not c a :
  valid_char a = false -> valid_char c = true -> Ascii.eqb c a = false.
Proof.
  intros Ha Hc. destruct (Ascii.eqb_spec c a) as [->|]; [congruence|reflexivity].
Qed.

Lemma sub_invalid_all_valid in_run s : all_valid (sub_invalid in_run s) = true.
Proof.
  revert in_run. induction s as [|c s IH]; intros in_run; cbn; [reflexivity|].
  destruct (valid_char c) eqn:Hc; cbn; [rewrite Hc; cbn; apply IH|].
  destruct in_run; cbn; apply IH.
Qed.

Lemma sub_invalid_fixes in_run s : all_valid s = true -> sub_invalid in_run s = s.
Proof.
  revert in_run. induction s as [|c s IH]; intros in_run; cbn; [reflexivity|].
  intros [Hc Hs]%andb_true_iff. rewrite Hc. f_equal. apply IH. exact Hs.
Qed.

Lemma sub_invalid_nonempty s : s <> "" -> sub_invalid false s <> "".
Proof. destruct s as [|c s]; [congruence|]. cbn. destruct (valid_char c); discriminate. Qed.

Lemma rev_app_rev_app s acc : String.rev_app (String.rev_app s acc) "" = String.rev_app acc s.
Proof.
  revert acc. induction s as [|c s IH]; intros acc; cbn.
  - induction acc as [|a acc IHacc] in |- *; cbn; [reflexivity|].
    clear IHacc. revert a. generalize "". intros t a.
    revert t a. induction acc as [|b acc IHacc]; intros t a; cbn; [reflexivity|].
    apply IHacc.
  - rewrite IH. reflexivity.
Qed.

Lemma rev_rev s : String.rev (String.rev s) = s.
Proof. unfold String.rev. rewrite rev_app_rev_app. reflexivity. Qed.

Lemma all_valid_rev_app s acc :
  all_valid (String.rev_app s acc) = all_valid s && all_valid acc.
Proof.
  revert acc. induction s as [|c s IH]; cbn; intros acc; [reflexivity|].
  rewrite IH. cbn. destruct (valid_char c), (all_valid s); reflexivity.
Qed.

Lemma lstrip_valid s : all_valid s = true -> lstrip s = s.
Proof.
  destruct s as [|c s]; cbn; [reflexivity|].
  intros [Hc _]%andb_true_iff. rewrite (valid_char_not_space _ Hc). reflexivity.
Qed.

(** A name of valid characters has nothing to strip. *)
Lemma strip_valid s : all_valid s = true -> strip s = s.
Proof.
  intros Hs. unfold strip, rstrip. rewrite (lstrip_valid s Hs).
  rewrite lstrip_valid; [apply rev_rev|].
  unfold String.rev. rewrite all_valid_rev_app, Hs. reflexivity.
Qed.

Lemma sanitized_valid name sanitized :
  _sanitize_name name = Ok sanitized -> sanitized <> "" /\ all_valid sanitized = true.
Proof.
  unfold _sanitize_name.
  destruct (bool_decide (strip name = "")) eqn:Hblank; [discriminate|].
  intros [= <-]. apply bool_decide_eq_false in Hblank.
  split; [apply sub_invalid_nonempty, Hblank|apply sub_invalid_all_valid].
Qed.

Lemma sanitized_idem name sanitized :
  _sanitize_name name = Ok sanitized -> _sanitize_name sanitized = Ok sanitized.
Proof.
  intros Hname. destruct (sanitized_valid name sanitized Hname) as [Hne Hvalid].
  unfold _sanitize_name. rewrite (strip_valid _ Hvalid).
  rewrite bool_decide_eq_false_2 by exact Hne.
  rewrite (sub_invalid_fixes _ _ Hvalid). reflexivity.
Qed.

(** X9: a sanitized name is not empty and holds only letters, digits,
    underscores and hyphens; sanitizing it again gives it back, so a template
    can be loaded and deleted under the name it is listed with. *)
Theorem X9_sanitize_name_idempotent (name sanitized : string) :
  _sanitize_name name = Ok sanitized ->
  sanitized <> "" /\ all_valid sanitized = true /\ _sanitize_name sanitized = Ok sanitized.
Proof.
  unfold _sanitize_name.
  destruct (bool_decide (strip name = "")) eqn:Hblank; [discriminate|].
  intros [= <-]. apply bool_decide_eq_false in Hblank.
  pose proof (sub_invalid_all_valid false (strip name)) as Hvalid.
  pose proof (sub_invalid_nonempty _ Hblank) as Hne.
  split; [exact Hne|]. split; [exact Hvalid|].
  rewrite (strip_valid _ Hvalid).
  rewrite bool_decide_eq_false_2 by exact Hne.
  rewrite (sub_invalid_fixes _ _ Hvalid). reflexivity.
Qed.

Lemma occurs_valid c s : valid_char c = false -> all_valid s = true -> occurs c s = false.
Proof.
  intros Hc. induction s as [|a s IH]; cbn; [reflexivity|].
  intros [Ha Hs]%andb_true_iff. rewrite (valid_char_not a c Hc Ha). cbn. apply IH, Hs.
Qed.

(** A sanitized name with its suffix is a single name. *)
Lemma template_name_single t :
  t <> "" -> all_valid t = true -> single_name (t +:+ TEMPLATE_SUFFIX).
Proof.
  intros Hne Hvalid. split; [|split].
  - rewrite occurs_append, (occurs_valid "/" t) by (reflexivity || exact Hvalid).
    reflexivity.
  - destruct t; [contradiction|discriminate].
  - intros H. apply (f_equal String.length) in H. rewrite length_append in H.
    destruct t; [contradiction|]. simpl in H. lia.
Qed.

(** The parts of the path of a template. *)
Lemma template_path_parts (templates_dir name p : string) :
  _template_path templates_dir name = Ok p ->
  exists sanitized,
    _sanitize_name name = Ok sanitized
    /\ p = joinpath templates_dir (sanitized +:+ ".json")
    /\ path_parent p = Path templates_dir
    /\ path_name p = sanitized +:+ ".json"
    /\ path_stem p = sanitized.
Proof.
  unfold _template_path.
  destruct (_sanitize_name name) as [t|e] eqn:Hname; [|discriminate].
  cbn. intros [= <-]. exists t.
  destruct (sanitized_valid name t Hname) as (Hne & Hvalid).
  pose proof (template_name_single t Hne Hvalid) as Hsingle.
  assert (Hname' : path_name (joinpath templates_dir (t +:+ TEMPLATE_SUFFIX))
                   = t +:+ ".json").
  { destruct Hsingle as (Hfree & Hne' & Hdot).
    rewrite path_name_joinpath; rewrite (tail_of_single _ Hfree); auto. }
  split; [reflexivity|]. split; [reflexivity|].
  split; [apply path_parent_joinpath, Hsingle|].
  split; [exact Hname'|].
  unfold path_stem. rewrite Hname'.
  change (t +:+ ".json") with (t +:+ String "." "json").
  rewrite rsplit_last by reflexivity.
  destruct t as [|c t]; [congruence|]. reflexivity.
Qed.

(** X10: whatever the name, the path of a template is a file directly in
    the templates directory, called by the sanitized name with [.json]: no
    name reaches another directory, and the stem of the path, which is what
    the listing shows, is the sanitized name. *)
Theorem X10_template_path_stays_inside (templates_dir name p : string) :
  _template_path templates_dir name = Ok p ->
  exists sanitized,
    _sanitize_name name = Ok sanitized
    /\ p = joinpath templates_dir (sanitized +:+ ".json")
    /\ path_parent p = Path templates_dir
    /\ path_name p = sanitized +:+ ".json"
    /\ path_stem p = sanitized.
Proof. apply template_path_parts. Qed.

(** ** The listing of templates *)

Lemma rev_app_append s a b : String.rev_app s (a +:+ b) = String.rev_app s a +:+ b.
Proof.
  revert a. induction s as [|c s IH]; intros a; simpl; [reflexivity|].
  apply (IH (String c a)).
Qed.

Lemma rev_app_of_append x y acc :
  String.rev_app (x +:+ y) acc = String.rev_app y (String.rev_app x acc).
Proof. revert acc. induction x as [|c x IH]; intros acc; simpl; [reflexivity|apply IH]. Qed.

Lemma rev_append x y : String.rev (x +:+ y) = String.rev y +:+ String.rev x.
Proof.
  unfold String.rev. rewrite rev_app_of_append.
  apply (rev_app_append y "" (String.rev_app x "")).
Qed.

Lemma prefix_append s t : String.prefix s (s +:+ t) = true.
Proof.
  induction s as [|c s IH]; simpl; [destruct t; reflexivity|].
  destruct (ascii_dec c c); [exact IH|congruence].
Qed.

Lemma prefix_inv s u : String.prefix s u = true -> exists t, u = s +:+ t.
Proof.
  revert u. induction s as [|c s IH]; intros u; [exists u; reflexivity|].
  destruct u as [|b u]; simpl; [discriminate|].
  destruct (ascii_dec c b) as [->|]; [|discriminate].
  intros [t ->]%IH. exists t. reflexivity.
Qed.

Lemma ends_with_append suffix x : ends_with suffix (x +:+ suffix) = true.
Proof. unfold ends_with. rewrite rev_append. apply prefix_append. Qed.

Lemma ends_with_inv suffix s : ends_with suffix s = true -> exists x, s = x +:+ suffix.
Proof.
  unfold ends_with. intros [t Ht]%prefix_inv.
  exists (String.rev t).
  rewrite <- (rev_rev s), Ht, rev_append, rev_rev. reflexivity.
Qed.

(** The entries [glob] finds. *)
Lemma glob_suffix_spec (fs : FileSystem) dir suffix p :
  p ∈ glob_suffix fs dir suffix
  <-> is_Some (fs !! p)
      /\ p = joinpath dir (path_name p) /\ ends_with suffix (path_name p) = true.
Proof.
  unfold glob_suffix. rewrite list_elem_of_filter, list_elem_of_In, in_map_iff.
  split.
  - intros [Hmatch ([q n] & <- & Hq)]. cbn in *.
    apply list_elem_of_In, elem_of_map_to_list in Hq. split; [eauto|].
    apply andb_true_iff in Hmatch as [Hchild%bool_decide_eq_true Hends]. auto.
  - intros [[n Hn] (Hchild & Hends)]. split.
    + rewrite Hends, bool_decide_eq_true_2 by exact Hchild. reflexivity.
    + exists (p, n). split; [reflexivity|].
      apply list_elem_of_In, elem_of_map_to_list. exact Hn.
Qed.

Lemma list_templates_spec (fs : FileSystem) dir t :
  t ∈ list_templates dir fs
  <-> exists p, p ∈ glob_suffix fs dir TEMPLATE_SUFFIX /\ path_stem p = t.
Proof.
  unfold list_templates. rewrite list_elem_of_In, in_map_iff.
  split; intros (p & Hp & Hin); exists p.
  - apply list_elem_of_In in Hin. rewrite merge_sort_Permutation in Hin. auto.
  - split; [exact Hin|]. apply list_elem_of_In. rewrite merge_sort_Permutation. exact Hp.
Qed.

(** The only name with the stem of a sanitized name and the suffix of a
    template is that name with the suffix. *)
Lemma stem_of_template p sanitized :
  all_valid sanitized = true ->
  ends_with TEMPLATE_SUFFIX (path_name p) = true ->
  path_stem p = sanitized ->
  path_name p = sanitized +:+ TEMPLATE_SUFFIX.
Proof.
  intros Hvalid [x Hx]%ends_with_inv Hstem.
  unfold path_stem in Hstem. rewrite Hx in Hstem |- *.
  change (x +:+ TEMPLATE_SUFFIX) with (x +:+ String "." "json") in Hstem.
  rewrite rsplit_last in Hstem by reflexivity.
  destruct x as [|c x].
  - change (".json" = sanitized) in Hstem. subst sanitized. discriminate.
  - change (String c x = sanitized) in Hstem. rewrite <- Hstem. reflexivity.
Qed.

(** X11: a template that was saved is listed, under its sanitized name,
    and the listed name leads back to the file that was written. *)
Theorem X11_saved_template_is_listed (templates_dir name : string) (fs fs' : FileSystem)
    (p : string) (watermark : WatermarkSettings.t) (export : ExportSettings.t) :
  save_template templates_dir fs name watermark export = Ok (p, fs') ->
  exists sanitized,
    _sanitize_name name = Ok sanitized
    /\ sanitized ∈ list_templates templates_dir fs'
    /\ _template_path templates_dir sanitized = Ok p
    /\ path_exists fs' p = true.
Proof.
  intros Hsave. unfold save_template in Hsave.
  destruct (_template_path templates_dir name) as [q|e] eqn:Hpath; [|discriminate].
  cbn in Hsave. unfold write_text in Hsave.
  assert (Hfs : p = q /\ is_Some (fs' !! q)).
  { destruct (fs !! q) as [[]|]; cbn in Hsave; inversion Hsave; subst;
      rewrite lookup_insert_eq; eauto. }
  destruct Hfs as [-> Hq].
  destruct (template_path_parts templates_dir name q Hpath)
    as (t & Hname & -> & _ & Hpname & Hstem).
  pose proof (sanitized_idem name t Hname) as Hagain.
  exists t. split; [exact Hname|]. split; [|split].
  - apply list_templates_spec. eexists. split; [|exact Hstem].
    apply glob_suffix_spec. split; [exact Hq|].
    rewrite Hpname. split; [reflexivity|]. apply ends_with_append.
  - unfold _template_path. rewrite Hagain. reflexivity.
  - apply bool_decide_eq_true. exact Hq.
Qed.

(** X12: once a template is deleted, loading it raises
    [FileNotFoundError] and the listing no longer shows its name. *)
Theorem X12_deleted_template_is_gone (templates_dir name : string) (fs fs' : FileSystem) :
  delete_template templates_dir fs name = Ok fs' ->
  load_template templates_dir fs' name = Raise FileNotFoundError
  /\ forall sanitized,
       _sanitize_name name = Ok sanitized ->
       sanitized ∉ list_templates templates_dir fs'.
Proof.
  intros Hdelete. unfold delete_template in Hdelete.
  destruct (_template_path templates_dir name) as [q|e] eqn:Hpath; [|discriminate].
  cbn in Hdelete.
  assert (Hgone : fs' !! q = None).
  { destruct (path_exists fs q) eqn:Hexists.
    - unfold unlink in Hdelete. destruct (fs !! q) as [[]|]; try discriminate.
      injection Hdelete as <-. apply lookup_delete_eq.
    - injection Hdelete as <-. apply bool_decide_eq_false in Hexists.
      apply eq_None_not_Some. exact Hexists. }
  split.
  - unfold load_template. rewrite Hpath. cbn.
    unfold path_exists. rewrite Hgone.
    rewrite bool_decide_eq_false_2 by (intros [? [=]]). reflexivity.
  - intros t Hname.
    destruct (template_path_parts templates_dir name q Hpath)
      as (t' & Hname' & -> & _).
    assert (t' = t) as -> by congruence.
    destruct (sanitized_valid name t Hname) as [_ Hvalid].
    intros (p & Hglob & Hstem)%list_templates_spec.
    apply glob_suffix_spec in Hglob as [Hp (Hchild & Hends)].
    rewrite (stem_of_template p t Hvalid Hends Hstem) in Hchild.
    destruct Hp as [nd Hp]. enough (Some nd = None) by discriminate.
    rewrite <- Hp, Hchild. exact Hgone.
Qed.

(** ** The image collection *)

(** What [add_paths] takes: an existing regular file with a supported
    extension. *)
Definition accepted (fs : FileSystem) (p : string) : bool :=
  path_exists fs p && is_file fs p
  && bool_decide (lower (path_suffix p) ∈ SUPPORTED_INPUT_EXTENSIONS).

(** The paths of the items are pairwise distinct. *)
Definition unique (self : ImageManager) : Prop := NoDup (path <$> _items self).

(** Every cached thumbnail belongs to an item. *)
Definition coherent (self : ImageManager) : Prop :=
  forall p, is_Some (_thumbnail_cache self !! p) -> p ∈ path <$> _items self.

Lemma has_path_spec items p : has_path items p = true <-> p ∈ path <$> items.
Proof.
  unfold has_path. rewrite existsb_exists, list_elem_of_fmap. split.
  - intros (item & Hin & Heq). apply bool_decide_eq_true in Heq.
    exists item. split; [auto|]. apply list_elem_of_In. exact Hin.
  - intros (item & -> & Hin). exists item. split; [apply list_elem_of_In, Hin|].
    apply bool_decide_eq_true. reflexivity.
Qed.

Lemma add_paths_loop_step fs items raw rest :
  add_paths_loop fs items (raw :: rest)
  = if accepted fs (Path raw) && negb (has_path items (Path raw))
    then let '(items', added) :=
           add_paths_loop fs (items ++ [{| path := Path raw |}]) rest in
         (items', Path raw :: added)
    else add_paths_loop fs items rest.
Proof.
  cbn [add_paths_loop]. unfold accepted.
  destruct (path_exists fs (Path raw)), (is_file fs (Path raw)),
    (bool_decide (lower _ ∈ _)), (has_path items (Path raw)); reflexivity.
Qed.

Lemma add_paths_loop_spec fs paths :
  forall items items' added,
    add_paths_loop fs items paths = (items', added) ->
    items' = (items ++ ((fun p => {| path := p |}) <$> added))%list
    /\ (NoDup (path <$> items) -> NoDup (path <$> items'))
    /\ (forall p, p ∈ added ->
          p ∈ Path <$> paths /\ accepted fs p = true /\ p ∉ path <$> items)
    /\ (forall p, p ∈ Path <$> paths -> accepted fs p = true -> p ∈ path <$> items').
Proof.
  induction paths as [|raw rest IH]; intros items items' added.
  - cbn. intros [= <- <-]. rewrite app_nil_r.
    split; [reflexivity|]. split; [auto|]. split; intros q Hq; inversion Hq.
  - rewrite add_paths_loop_step. rewrite fmap_cons.
    destruct (accepted fs (Path raw) && negb (has_path items (Path raw))) eqn:Htake.
    + destruct (add_paths_loop fs (items ++ [{| path := Path raw |}]) rest)
        as [items1 added1] eqn:Hrest.
      intros [= <- <-].
      destruct (IH _ _ _ Hrest) as (Hitems & Hnodup & Hadded & Hall).
      apply andb_true_iff in Htake as [Hacc Hnew].
      assert (Hfresh : Path raw ∉ path <$> items).
      { intros Hin%has_path_spec. rewrite Hin in Hnew. discriminate. }
      split; [rewrite Hitems, <- app_assoc; reflexivity|].
      split; [|split].
      * intros Hnd. apply Hnodup. rewrite fmap_app. cbn.
        apply NoDup_app. split; [exact Hnd|]. split; [|apply NoDup_singleton].
        intros q Hq ->%list_elem_of_singleton. contradiction.
      * intros q [->|Hq]%elem_of_cons.
        -- split; [left|]. split; [exact Hacc|exact Hfresh].
        -- destruct (Hadded q Hq) as (Hin & Hq_acc & Hq_new).
           split; [right; exact Hin|]. split; [exact Hq_acc|].
           intros Hold. apply Hq_new. rewrite fmap_app. apply elem_of_app. auto.
      * intros q [->|Hq]%elem_of_cons Hq_acc.
        -- rewrite Hitems, !fmap_app. cbn. apply elem_of_app. left.
           apply elem_of_app. right. left.
        -- apply Hall; assumption.
    + intros Hrest. destruct (IH _ _ _ Hrest) as (Hitems & Hnodup & Hadded & Hall).
      split; [exact Hitems|]. split; [exact Hnodup|]. split.
      * intros q Hq. destruct (Hadded q Hq) as (Hin & ? & ?). split; [right; exact Hin|auto].
      * intros q [->|Hq]%elem_of_cons Hq_acc; [|apply Hall; assumption].
        rewrite Hq_acc in Htake. cbn in Htake. apply negb_false_iff in Htake.
        apply has_path_spec in Htake. rewrite Hitems, fmap_app. apply elem_of_app. auto.
Qed.

(** Nothing is added from paths that are all refused or already there. *)
Lemma add_paths_loop_nothing fs paths :
  forall items,
    (forall p, p ∈ Path <$> paths -> accepted fs p = true -> p ∈ path <$> items) ->
    add_paths_loop fs items paths = (items, []).
Proof.
  induction paths as [|raw rest IH]; intros items Hall; [reflexivity|].
  rewrite add_paths_loop_step. rewrite fmap_cons in Hall.
  destruct (accepted fs (Path raw)) eqn:Hacc; cbn.
  - assert (Hin : has_path items (Path raw) = true)
      by (apply has_path_spec, Hall; [left|exact Hacc]).
    rewrite Hin. cbn. apply IH. intros q Hq. apply Hall. right. exact Hq.
  - apply IH. intros q Hq. apply Hall. right. exact Hq.
Qed.

(** X13: [add_paths] appends, in the order given, the paths that are
    regular files with a supported extension and are not in the collection
    yet, and returns exactly those; paths that were distinct stay distinct;
    the thumbnails are untouched; adding the same paths again adds nothing. *)
Theorem X13_add_paths_keeps_paths_distinct (fs : FileSystem) (self self' : ImageManager)
    (paths added : list string) :
  add_paths fs self paths = (added, self') ->
  _items self' = (_items self ++ ((fun p => {| path := p |}) <$> added))%list
  /\ _thumbnail_cache self' = _thumbnail_cache self
  /\ (unique self -> unique self')
  /\ (forall p, p ∈ added ->
        p ∈ Path <$> paths /\ is_file fs p = true
        /\ lower (path_suffix p) ∈ SUPPORTED_INPUT_EXTENSIONS
        /\ p ∉ path <$> _items self)
  /\ add_paths fs self' paths = ([], self').
Proof.
  unfold add_paths.
  destruct (add_paths_loop fs (_items self) paths) as [items' added'] eqn:Hloop.
  intros [= <- <-]. cbn.
  destruct (add_paths_loop_spec fs paths _ _ _ Hloop) as (Hitems & Hnodup & Hadded & Hall).
  split; [exact Hitems|]. split; [reflexivity|]. split; [exact Hnodup|]. split.
  - intros p Hp. destruct (Hadded p Hp) as (Hin & Hacc & Hnew).
    unfold accepted in Hacc.
    apply andb_true_iff in Hacc as [[_ Hfile]%andb_true_iff Hext%bool_decide_eq_true].
    auto.
  - rewrite (add_paths_loop_nothing fs paths items' Hall). reflexivity.
Qed.

(** X14: a thumbnail that was loaded is served from the cache from then
    on, whatever has become of the file and whatever size is asked for; a
    failed load is not remembered. *)
Theorem X14_thumbnail_is_cached (fs : FileSystem) (self self' : ImageManager)
    (p : string) (max_size : Z) (thumbnail : option QPixmap) :
  load_thumbnail fs self p max_size = (thumbnail, self') ->
  _items self' = _items self
  /\ match thumbnail with
     | Some pm =>
         forall fs2 max_size2, load_thumbnail fs2 self' p max_size2 = (Some pm, self')
     | None => self' = self
     end.
Proof.
  unfold load_thumbnail.
  destruct (_thumbnail_cache self !! p) as [pm|] eqn:Hcache.
  - intros [= <- <-]. split; [reflexivity|]. intros fs2 size2. rewrite Hcache. reflexivity.
  - destruct (load_pixmap fs p) as [pm|]; [|intros [= <- <-]; auto].
    destruct (pixmap_isNull pm); intros [= <- <-]; [auto|].
    split; [reflexivity|]. intros fs2 size2. cbn.
    rewrite lookup_insert_eq. reflexivity.
Qed.

Lemma list_pop_spec {A} (l : list A) index x l' :
  list_pop l index = Ok (x, l') ->
  exists i, l !! i = Some x /\ l' = delete i l.
Proof.
  unfold list_pop. destruct (_ || _); [discriminate|].
  destruct (l !! Z.to_nat _) as [y|] eqn:Hy; [|discriminate].
  intros [= <- <-]. eauto.
Qed.

Lemma NoDup_delete_fmap (items : list ImageItem) i :
  NoDup (path <$> items) -> NoDup (path <$> delete i items).
Proof.
  intros Hnd. eapply sublist_NoDup; [exact Hnd|]. apply fmap_sublist, sublist_delete.
Qed.

Lemma path_gone (items : list ImageItem) i item :
  NoDup (path <$> items) -> items !! i = Some item ->
  path item ∉ path <$> delete i items.
Proof.
  intros Hnd Hi Hin.
  apply list_elem_of_fmap in Hin as (other & Heq & Hother).
  apply list_elem_of_lookup in Hother as [j Hj].
  destruct (decide (j < i)%nat) as [Hlt|Hge].
  - rewrite list_lookup_delete_lt in Hj by exact Hlt.
    assert (i = j); [|lia].
    apply (NoDup_lookup _ _ _ (path item) Hnd); rewrite list_lookup_fmap.
    + rewrite Hi. reflexivity.
    + rewrite Hj, Heq. reflexivity.
  - rewrite list_lookup_delete_ge in Hj by lia.
    assert (i = S j); [|lia].
    apply (NoDup_lookup _ _ _ (path item) Hnd); rewrite list_lookup_fmap.
    + rewrite Hi. reflexivity.
    + rewrite Hj, Heq. reflexivity.
Qed.

(** X15: the collection keeps two invariants: the paths of its items are
    pairwise distinct, and every cached thumbnail belongs to an item.
    [remove_index] keeps both and takes the removed path out of the items and
    out of the cache; [clear] and [add_paths] keep both; [load_thumbnail]
    keeps both when it is asked for the path of an item. *)
Theorem X15_collection_invariants (fs : FileSystem) (self : ImageManager) :
  unique self ->
  coherent self ->
  (forall index self',
      remove_index self index = Ok self' ->
      unique self' /\ coherent self'
      /\ length (_items self) = S (length (_items self'))
      /\ (exists item, item ∈ _items self
                        /\ (path item ∉ (path <$> _items self'))
                        /\ _thumbnail_cache self' !! path item = None))
  /\ (unique (manager_clear self) /\ coherent (manager_clear self))
  /\ (forall paths added self',
        add_paths fs self paths = (added, self') -> unique self' /\ coherent self')
  /\ (forall p max_size thumbnail self',
        p ∈ path <$> _items self ->
        load_thumbnail fs self p max_size = (thumbnail, self') ->
        unique self' /\ coherent self').
Proof.
  intros Hunique Hcoherent. split; [|split; [|split]].
  - intros index self'. unfold remove_index.
    destruct (list_pop (_items self) index) as [[item items']|e] eqn:Hpop; [|discriminate].
    cbn. intros [= <-]. cbn.
    apply list_pop_spec in Hpop as (i & Hi & ->).
    pose proof (path_gone _ _ _ Hunique Hi) as Hgone.
    split; [apply NoDup_delete_fmap, Hunique|]. split; [|split].
    + intros q. cbn. intros Hq.
      destruct (decide (q = path item)) as [->|Hne].
      { rewrite lookup_delete_eq in Hq. destruct Hq as [? [=]]. }
      rewrite lookup_delete_ne in Hq by congruence.
      apply Hcoherent in Hq.
      apply list_elem_of_fmap in Hq as (other & -> & Hother).
      apply list_elem_of_fmap. exists other. split; [reflexivity|].
      apply list_elem_of_lookup in Hother as [j Hj].
      apply list_elem_of_lookup.
      destruct (decide (j < i)%nat) as [Hlt|Hge].
      * exists j. rewrite list_lookup_delete_lt by exact Hlt. exact Hj.
      * assert (j <> i) by (intros ->; rewrite Hi in Hj; congruence).
        exists (pred j). rewrite list_lookup_delete_ge by lia.
        replace (S (pred j)) with j by lia. exact Hj.
    + rewrite length_delete by eauto. apply lookup_lt_Some in Hi. lia.
    + exists item. split; [eapply list_elem_of_lookup_2, Hi|].
      split; [exact Hgone|apply lookup_delete_eq].
  - split; [apply NoDup_nil_2|]. intros p. cbn. rewrite lookup_empty. intros [? [=]].
  - intros paths added self'. unfold add_paths.
    destruct (add_paths_loop fs (_items self) paths) as [items' added'] eqn:Hloop.
    intros [= <- <-].
    destruct (add_paths_loop_spec fs paths _ _ _ Hloop) as (Hitems & Hnodup & _).
    split; [apply Hnodup, Hunique|].
    intros p. cbn. intros Hp%Hcoherent. rewrite Hitems, fmap_app.
    apply elem_of_app. left. exact Hp.
  - intros p max_size thumbnail self' Hitem. unfold load_thumbnail.
    destruct (_thumbnail_cache self !! p); [intros [= <- <-]; auto|].
    destruct (load_pixmap fs p) as [pm|]; [|intros [= <- <-]; auto].
    destruct (pixmap_isNull pm); intros [= <- <-]; [auto|].
    split; [exact Hunique|]. intros other. cbn.
    destruct (decide (p = other)) as [<-|Hne]; [intros _; exact Hitem|].
    rewrite lookup_insert_ne by exact Hne. apply Hcoherent.
Qed.

(** ** What an export leaves on disk *)

Lemma next_free_fresh (fs : FileSystem) candidate fuel :
  forall target counter p,
    next_free fs candidate fuel target counter = Some p -> path_exists fs p = false.
Proof.
  induction fuel as [|fuel IH]; intros target counter p; cbn [next_free];
    destruct (path_exists fs target) eqn:Htarget; try discriminate.
  - intros [= <-]. exact Htarget.
  - apply IH.
  - intros [= <-]. exact Htarget.
Qed.

Lemma path_exists_false (fs : FileSystem) p : path_exists fs p = false <-> fs !! p = None.
Proof.
  unfold path_exists. rewrite bool_decide_eq_false, eq_None_not_Some. reflexivity.
Qed.

Lemma save_grows (fs : FileSystem) image p format quality :
  fs !! p = None -> fs ⊆ save fs image p format quality.
Proof.
  intros Hp. unfold save. rewrite Hp.
  destruct (encode image format quality); [apply insert_subseteq, Hp|reflexivity].
Qed.

(** One item: the file system only grows, and the path [save] is called on
    did not exist. *)
Lemma export_item_grows ws es (fs fs' : FileSystem) output_dir item saved :
  export_item ws es fs output_dir item = Ok (fs', saved) ->
  fs ⊆ fs' /\ forall p, saved = Some p -> fs !! p = None.
Proof.
  unfold export_item.
  destruct (_determine_output_path es fs (path item) output_dir) as [target|] eqn:Htarget;
    [|intros [= <- <-]; split; [reflexivity|discriminate]].
  apply next_free_fresh, path_exists_false in Htarget.
  destruct (load_pixmap fs (path item)) as [base|];
    [|intros [= <- <-]; split; [reflexivity|discriminate]].
  destruct (pixmap_truth base); cbn [negb];
    [|intros [= <- <-]; split; [reflexivity|discriminate]].
  destruct (_resize_image es (toImage base)) as [image|e]; cbn; [|discriminate].
  destruct (watermarked fs image ws _ _) as [out|e]; cbn; [|discriminate].
  destruct (upper (ExportSettings.output_format es)) as [format_name|e]; cbn;
    [|discriminate].
  destruct (bool_decide _); intros [= <- <-];
    (split; [apply save_grows, Htarget|intros p [= <-]; exact Htarget]).
Qed.

Lemma export_loop_grows ws es output_dir items :
  forall (fs fs' : FileSystem) saves saves',
    export_loop ws es output_dir items fs saves = Ok (fs', saves') ->
    fs ⊆ fs'
    /\ exists new, saves' = (saves ++ new)%list
                   /\ (length new <= length items)%nat
                   /\ Forall (fun p => fs !! p = None) new.
Proof.
  induction items as [|item rest IH]; intros fs fs' saves saves'; cbn [export_loop].
  - intros [= <- <-]. split; [reflexivity|]. exists []. rewrite app_nil_r.
    split; [reflexivity|]. split; [cbn; lia|constructor].
  - destruct (export_item ws es fs output_dir item) as [[fs1 saved]|e] eqn:Hitem;
      [|discriminate].
    cbn. intros Hrest.
    destruct (export_item_grows _ _ _ _ _ _ _ Hitem) as [Hgrow Hsaved].
    destruct (IH _ _ _ _ Hrest) as (Hgrow' & new & -> & Hlen & Hnew).
    split; [etrans; eassumption|].
    exists (option_list saved ++ new)%list. split; [rewrite app_assoc; reflexivity|].
    split.
    + rewrite length_app. destruct saved; cbn; lia.
    + apply Forall_app. split.
      * destruct saved as [p|]; cbn; [|constructor].
        constructor; [apply Hsaved; reflexivity|constructor].
      * eapply Forall_impl; [exact Hnew|]. intros p Hp. cbn in Hp.
        eapply lookup_weaken_None; eassumption.
Qed.

Lemma export_images_count ws es (fs : FileSystem) items outcome :
  _export_images ws es fs items = Ok outcome ->
  (length (saves outcome) <= length items)%nat.
Proof.
  unfold _export_images.
  destruct (ExportSettings.output_dir es) as [dir|]; [|intros [= <-]; cbn; lia].
  destruct (bool_decide (dir = "")); [intros [= <-]; cbn; lia|].
  cbv zeta. destruct (mkdir fs (Path dir)) as [fs1|e]; [|discriminate].
  cbn. intros Hrun.
  destruct (if ExportSettings.prevent_overwrite es then _ else _) as [[]|e];
    cbn in Hrun; try discriminate.
  - injection Hrun as <-. cbn. lia.
  - destruct (export_loop ws es (Path dir) items fs1 []) as [[fs2 saves2]|e] eqn:Hloop;
      [|discriminate].
    cbn in Hrun. injection Hrun as <-. cbn.
    destruct (export_loop_grows _ _ _ _ _ _ _ _ Hloop) as (_ & new & -> & Hlen & _).
    exact Hlen.
Qed.

(** X16: an export never touches what is already there.  Every file and
    directory that exists when the loop starts (the output directory just
    made included) is still there, unchanged, when the export returns; every
    path [save] was called on did not exist then; and [save] is called at
    most once per item.  This holds with overwrite prevention off as well. *)
Theorem X16_export_overwrites_nothing (ws : WatermarkSettings.t) (es : ExportSettings.t)
    (fs : FileSystem) (items : list ImageItem) (outcome : ExportOutcome) :
  _export_images ws es fs items = Ok outcome ->
  exists fs1,
    (fs1 = fs \/ exists dir, ExportSettings.output_dir es = Some dir
                              /\ mkdir fs (Path dir) = Ok fs1)
    /\ fs1 ⊆ fs_after outcome
    /\ Forall (fun p => fs1 !! p = None) (saves outcome)
    /\ (length (saves outcome) <= length items)%nat.
Proof.
  unfold _export_images.
  destruct (ExportSettings.output_dir es) as [dir|];
    [|intros [= <-]; exists fs; cbn; repeat split; auto with lia].
  destruct (bool_decide (dir = ""));
    [intros [= <-]; exists fs; cbn; repeat split; auto with lia|].
  cbv zeta. destruct (mkdir fs (Path dir)) as [fs1|e] eqn:Hmkdir; [|discriminate].
  cbn. intros Hrun. exists fs1. split; [right; eauto|].
  destruct (if ExportSettings.prevent_overwrite es then _ else _) as [[]|e];
    cbn in Hrun; try discriminate.
  - injection Hrun as <-. cbn. repeat split; auto with lia.
  - destruct (export_loop ws es (Path dir) items fs1 []) as [[fs2 saves2]|e] eqn:Hloop;
      [|discriminate].
    cbn in Hrun. injection Hrun as <-. cbn.
    destruct (export_loop_grows _ _ _ _ _ _ _ _ Hloop) as (Hgrow & new & -> & Hlen & Hnew).
    cbn. auto.
Qed.

(** X17: exporting the selected image never fails on the row it is given:
    a negative row only shows a notice, a row past the end does nothing, and
    any other row exports the one image at that row, so that [save] is called
    at most once. *)
Theorem X17_export_selected_one_item (ws : WatermarkSettings.t) (es : ExportSettings.t)
    (fs : FileSystem) (items : list ImageItem) (row : Z) :
  (row < 0 -> _export_selected ws es fs items row = Ok (inl InfoSelectImage))
  /\ (Z.of_nat (length items) <= row -> _export_selected ws es fs items row = Ok (inr None))
  /\ (0 <= row < Z.of_nat (length items) ->
      exists item,
        items !! Z.to_nat row = Some item
        /\ _export_selected ws es fs items row
           = (outcome ← _export_images ws es fs [item]; Ok (inr (Some outcome))))
  /\ (forall outcome,
        _export_selected ws es fs items row = Ok (inr (Some outcome)) ->
        (length (saves outcome) <= 1)%nat).
Proof.
  unfold _export_selected. split; [|split; [|split]].
  - intros Hrow. rewrite (proj2 (Z.ltb_lt _ _) Hrow). reflexivity.
  - intros Hrow. destruct (Z.ltb_spec row 0); [lia|].
    rewrite (proj2 (Z.leb_le _ _) Hrow). reflexivity.
  - intros Hrow. destruct (Z.ltb_spec row 0); [lia|].
    destruct (Z.leb_spec (Z.of_nat (length items)) row); [lia|].
    destruct (lookup_lt_is_Some_2 items (Z.to_nat row)) as [item Hitem]; [lia|].
    exists item. rewrite Hitem. auto.
  - intros outcome. destruct (row <? 0); [discriminate|].
    destruct (_ <=? _); [discriminate|].
    destruct (items !! Z.to_nat row) as [item|]; [|discriminate].
    destruct (_export_images ws es fs [item]) as [out|e] eqn:Hrun; [|discriminate].
    cbn. intros [= <-].
    exact (export_images_count _ _ _ _ _ Hrun).
Qed.

(** ** Image watermarks *)

(** The descriptor names no image that can be read: no path, an empty path,
    a path that does not exist or is a directory, or a file Qt cannot
    decode. *)
Definition no_image (fs : FileSystem) (settings : ImageWatermarkSettings.t) : Prop :=
  match ImageWatermarkSettings.image_path settings with
  | None => True
  | Some p =>
      p <> "" ->
      forall bytes, fs !! Path p = Some (RegularFile bytes) -> decode bytes = None
  end.

Lemma build_image_none fs base_size settings rotation :
  no_image fs settings ->
  _build_image_watermark fs base_size settings rotation = Ok None.
Proof.
  unfold no_image, _build_image_watermark.
  destruct (ImageWatermarkSettings.image_path settings) as [p|]; [|reflexivity].
  intros Hno. destruct (decide (p = "")) as [->|Hp]; [reflexivity|].
  rewrite bool_decide_eq_false_2 by exact Hp.
  cbv zeta. destruct (path_exists fs (Path p)); [|reflexivity]. cbn [negb].
  destruct (fs !! Path p) as [[ident|bytes]|] eqn:Hfile; try reflexivity.
  rewrite (Hno Hp bytes eq_refl). reflexivity.
Qed.

(** X18: an image watermark whose image cannot be read is skipped without
    an error: [build_watermark] has no pixmap, whatever the scale, the
    opacity and the rotation are, and [apply_watermark] returns a new image
    with the pixels of the base image, leaving every other object as it
    was. *)
Theorem X18_unreadable_image_gives_plain_copy fs (images : gmap positive QImage) base
    pixels settings position ratio :
  WatermarkSettings.watermark_type settings = IMAGE ->
  no_image fs (WatermarkSettings.image_settings settings) ->
  images !! base = Some pixels ->
  (forall base_size,
      build_watermark fs base_size settings = Ok {| pixmap := None; size := QSize_null |})
  /\ exists result images',
      apply_watermark fs images base settings position ratio = Ok (result, images')
      /\ result <> base
      /\ images' !! result = Some pixels
      /\ images' !! base = Some pixels
      /\ forall other, other <> result -> images' !! other = images !! other.
Proof.
  intros Hty Hno Hbase.
  assert (Hbuild : forall base_size,
    build_watermark fs base_size settings = Ok {| pixmap := None; size := QSize_null |}).
  { intros base_size. unfold build_watermark. rewrite Hty. cbn.
    rewrite build_image_none by exact Hno. reflexivity. }
  split; [exact Hbuild|].
  rewrite (apply_watermark_composite _ _ _ _ _ _ _ Hbase).
  unfold composite. rewrite Hbuild. cbn.
  pose proof (fresh_not_base _ _ _ Hbase) as Hfresh.
  eexists _, _. split; [reflexivity|]. split; [exact Hfresh|].
  split; [apply lookup_insert_eq|].
  split; [rewrite lookup_insert_ne by exact Hfresh; exact Hbase|].
  intros other Hother. apply lookup_insert_ne. congruence.
Qed.

(** The alpha of the fade, as the code computes it in floats. *)
Definition fade_alpha (opacity : Z) : result Z :=
  opacity ← float_of_int opacity;
  int_of_float (255 * (opacity / 100))%float.

Lemma fade_alpha_floor (opacity : Z) :
  0 <= opacity < 100 -> fade_alpha opacity = Ok (255 * opacity / 100).
Proof.
  intros Hrange.
  assert (Hall : forallb (fun o => match fade_alpha o with
                                   | Ok a => a =? 255 * o / 100
                                   | Raise _ => false
                                   end)
                   (map Z.of_nat (seq 0 100)) = true) by (vm_compute; reflexivity).
  rewrite forallb_forall in Hall.
  specialize (Hall opacity).
  destruct (fade_alpha opacity) as [a|e].
  - f_equal. apply Z.eqb_eq, Hall.
    apply List.in_map_iff. exists (Z.to_nat opacity). split; [lia|].
    apply List.in_seq. lia.
  - exfalso. enough (false = true) by discriminate. apply Hall.
    apply List.in_map_iff. exists (Z.to_nat opacity). split; [lia|].
    apply List.in_seq. lia.
Qed.

(** X19: an image watermark that can be read is scaled to the width
    [max(1, int(base width * scale))], rotated when the rotation is not
    zero, and, for an opacity from 0 to 99, faded with the alpha
    [255 * opacity // 100]: the float computation of the code agrees with
    the integer quotient on every such opacity, and the alpha is below 255.
    An opacity of 100 or more leaves the pixmap as it is. *)
Theorem X19_image_watermark_overlay fs base_size settings rotation p bytes image n :
  ImageWatermarkSettings.image_path settings = Some p ->
  p <> "" ->
  fs !! Path p = Some (RegularFile bytes) ->
  decode bytes = Some image ->
  int_of_float (Z2F (fst base_size) * ImageWatermarkSettings.scale settings)%float = Ok n ->
  0 <= ImageWatermarkSettings.opacity settings ->
  let sized := scaledToWidth image (Z.max 1 n) in
  let turned := if float_truth rotation then transformed sized rotation else sized in
  let alpha := 255 * ImageWatermarkSettings.opacity settings / 100 in
  _build_image_watermark fs base_size settings rotation
  = Ok (Some (if ImageWatermarkSettings.opacity settings <? 100
              then fade turned alpha else turned))
  /\ (ImageWatermarkSettings.opacity settings < 100 -> 0 <= alpha < 255).
Proof.
  intros Hpath Hp Hfile Hdecode Hn Hopacity sized turned alpha. split.
  - unfold _build_image_watermark. rewrite Hpath.
    rewrite bool_decide_eq_false_2 by exact Hp. cbv zeta.
    unfold path_exists. rewrite bool_decide_eq_true_2 by (rewrite Hfile; eauto).
    cbn [negb]. rewrite Hfile, Hdecode, Hn. cbn.
    destruct (Z.ltb_spec (ImageWatermarkSettings.opacity settings) 100) as [Hlt|Hge];
      [|reflexivity].
    pose proof (fade_alpha_floor (ImageWatermarkSettings.opacity settings)
                  (conj Hopacity Hlt)) as Halpha.
    unfold fade_alpha in Halpha.
    destruct (float_of_int (ImageWatermarkSettings.opacity settings)) as [o|e];
      cbn in Halpha |- *; [|discriminate].
    rewrite Halpha. reflexivity.
  - intros Hlt. subst alpha. split.
    + apply Z.div_pos; lia.
    + apply Z.div_lt_upper_bound; lia.
Qed.

(** ** The list widget and the collection *)

(** Row [i] of the list shows item [i] of the collection. *)
Definition aligned (self : ImageManager) (rows : list QListWidgetItem) : Prop :=
  item_data <$> rows = path <$> _items self.

Lemma load_thumbnail_items fs self p max_size :
  _items (snd (load_thumbnail fs self p max_size)) = _items self.
Proof.
  unfold load_thumbnail. destruct (_thumbnail_cache self !! p); [reflexivity|].
  destruct (load_pixmap fs p) as [pm|]; [|reflexivity].
  destruct (pixmap_isNull pm); reflexivity.
Qed.

Lemma find_path (items : list ImageItem) p :
  p ∈ path <$> items ->
  exists it, List.find (fun it => bool_decide (path it = p)) items = Some it /\ path it = p.
Proof.
  induction items as [|item rest IH]; cbn; [intros H; inversion H|].
  intros [Hhere|Hin]%elem_of_cons.
  - exists item. rewrite bool_decide_eq_true_2 by congruence. auto.
  - destruct (bool_decide (path item = p)) eqn:Heq; [|apply IH, Hin].
    apply bool_decide_eq_true in Heq. eauto.
Qed.

Lemma add_images_loop_spec fs added :
  forall self rows self' rows',
    (forall p, p ∈ added -> p ∈ path <$> _items self) ->
    add_images_loop fs self rows added = (self', rows') ->
    _items self' = _items self
    /\ item_data <$> rows' = ((item_data <$> rows) ++ added)%list.
Proof.
  induction added as [|p rest IH]; intros self rows self' rows' Hin; cbn [add_images_loop].
  - intros [= <- <-]. rewrite app_nil_r. auto.
  - pose proof (load_thumbnail_items fs self p 96) as Hitems.
    destruct (load_thumbnail fs self p 96) as [pixmap self1]. cbn in Hitems.
    destruct (find_path (_items self1) p) as (it & Hfind & Hpath).
    { rewrite Hitems. apply Hin. left. }
    rewrite Hfind. intros Hrest. apply IH in Hrest as [Hitems' Hrows].
    + split; [congruence|]. rewrite Hrows. unfold add_image_item.
      rewrite fmap_app, <- app_assoc. cbn. rewrite Hpath. reflexivity.
    + intros q Hq. rewrite Hitems. apply Hin. right. exact Hq.
Qed.

Lemma refresh_loop_spec fs items :
  forall self rows self' rows',
    refresh_loop fs self rows items = (self', rows') ->
    _items self' = _items self
    /\ item_data <$> rows' = ((item_data <$> rows) ++ (path <$> items))%list.
Proof.
  induction items as [|item rest IH]; intros self rows self' rows'; cbn [refresh_loop].
  - intros [= <- <-]. rewrite app_nil_r. auto.
  - pose proof (load_thumbnail_items fs self (path item) 96) as Hitems.
    destruct (load_thumbnail fs self (path item) 96) as [pixmap self1]. cbn in Hitems.
    intros Hrest. apply IH in Hrest as [Hitems' Hrows].
    split; [congruence|]. rewrite Hrows. unfold add_image_item.
    rewrite fmap_app, <- app_assoc. reflexivity.
Qed.

Lemma refresh_aligned fs self self' rows' :
  _refresh_image_list fs self = (self', rows') -> aligned self' rows'.
Proof.
  unfold _refresh_image_list, aligned. intros [Hitems Hrows]%refresh_loop_spec.
  rewrite Hrows, Hitems. reflexivity.
Qed.

Lemma add_images_aligned fs self rows paths self' rows' n :
  aligned self rows ->
  _add_images fs self rows paths = (self', rows', n) ->
  aligned self' rows' /\ length rows' = (length rows + n)%nat
  /\ exists added, add_paths fs self paths = (added, {| _items := _items self';
                                                       _thumbnail_cache := _thumbnail_cache self |})
                   /\ n = length added.
Proof.
  unfold _add_images, aligned. intros Haligned.
  destruct (add_paths fs self paths) as [added self1] eqn:Hadd.
  destruct (add_images_loop fs self1 rows added) as [self2 rows2] eqn:Hloop.
  intros [= <- <- <-].
  unfold add_paths in Hadd.
  destruct (add_paths_loop fs (_items self) paths) as [items1 added1] eqn:Hpaths.
  injection Hadd as <- <-.
  destruct (add_paths_loop_spec fs paths _ _ _ Hpaths) as (Hitems & _ & _ & _).
  apply add_images_loop_spec in Hloop as [Hsame Hrows].
  - cbn in Hsame. split; [|split].
    + rewrite Hrows, Hsame, Hitems, fmap_app, Haligned. f_equal.
      rewrite <- list_fmap_compose. clear. induction added1; cbn; congruence.
    + apply (f_equal length) in Hrows.
      rewrite length_app, !length_fmap in Hrows. exact Hrows.
    + exists added1. rewrite Hsame. auto.
  - intros p Hp. cbn. rewrite Hitems, fmap_app. apply elem_of_app. right.
    rewrite <- list_fmap_compose. apply list_elem_of_fmap. exists p. auto.
Qed.

Lemma list_pop_at {A} (l : list A) index x l' :
  0 <= index -> list_pop l index = Ok (x, l') -> l' = delete (Z.to_nat index) l.
Proof.
  intros Hindex. unfold list_pop.
  destruct (Z.ltb_spec index 0); [lia|].
  destruct (_ || _); [discriminate|].
  destruct (l !! Z.to_nat index); [|discriminate]. intros [= <- <-]. reflexivity.
Qed.

Lemma list_pop_in_range {A} (l : list A) index :
  0 <= index < Z.of_nat (length l) -> exists x l', list_pop l index = Ok (x, l').
Proof.
  intros Hindex. unfold list_pop.
  destruct (Z.ltb_spec index 0); [lia|].
  destruct (Z.ltb_spec index 0); [lia|].
  destruct (Z.leb_spec (Z.of_nat (length l)) index); [lia|]. cbn.
  destruct (lookup_lt_is_Some_2 l (Z.to_nat index)) as [x Hx]; [lia|].
  rewrite Hx. eauto.
Qed.

(** X20: the rows of the list widget follow the collection.  When row [i]
    shows item [i] before, it does so after images were added, a folder was
    imported, files were dropped, the selected image was removed and the
    list was cleared; [_add_images] appends as many rows as the number it
    reports, which is the number of paths [add_paths] took; and removing the
    current row, which Qt keeps below the number of rows, never raises. *)
Theorem X20_rows_follow_items (fs : FileSystem) (self : ImageManager)
    (rows : list QListWidgetItem) :
  aligned self rows ->
  (forall paths self' rows' n,
      _add_images fs self rows paths = (self', rows', n) ->
      aligned self' rows' /\ length rows' = (length rows + n)%nat
      /\ n = length (fst (add_paths fs self paths)))
  /\ (forall directory self' rows',
        _import_folder fs self rows directory = (self', rows') -> aligned self' rows')
  /\ (forall files self' rows',
        _on_files_dropped fs self rows files = (self', rows') -> aligned self' rows')
  /\ (forall row self' rows',
        _remove_selected_image self rows row = Ok (self', rows') -> aligned self' rows')
  /\ (forall row,
        row < Z.of_nat (length rows) ->
        exists self' rows', _remove_selected_image self rows row = Ok (self', rows'))
  /\ aligned (fst (_clear_images self rows)) (snd (_clear_images self rows)).
Proof.
  intros Haligned. split; [|split; [|split; [|split; [|split]]]].
  - intros paths self' rows' n Hadd.
    destruct (add_images_aligned _ _ _ _ _ _ _ Haligned Hadd) as (H1 & H2 & added & Hp & ->).
    rewrite Hp. auto.
  - intros directory self' rows'. unfold _import_folder.
    destruct (bool_decide (directory = "")); [intros [= <- <-]; exact Haligned|].
    destruct (add_directory fs self directory true) as [added self1].
    apply refresh_aligned.
  - intros files self' rows'. unfold _on_files_dropped.
    destruct (match List.filter _ files with [] => (self, rows) | _ => _ end)
      as [self1 rows1] eqn:Hdirect.
    assert (Haligned1 : aligned self1 rows1).
    { destruct (List.filter _ files) as [|f direct] in Hdirect.
      - injection Hdirect as <- <-. exact Haligned.
      - destruct (_add_images fs self rows (f :: direct)) as [[self2 rows2] n] eqn:Hadd.
        cbn in Hdirect. injection Hdirect as <- <-.
        apply (add_images_aligned _ _ _ _ _ _ _ Haligned Hadd). }
    destruct (Path <$> List.filter _ files) as [|folder folders].
    + cbn. intros [= <- <-]. exact Haligned1.
    + apply refresh_aligned.
  - intros row self' rows'. unfold _remove_selected_image.
    destruct (length rows =? 0)%nat; [intros [= <- <-]; exact Haligned|].
    destruct (Z.ltb_spec row 0) as [|Hrow]; [intros [= <- <-]; exact Haligned|].
    unfold remove_index.
    destruct (list_pop (_items self) row) as [[item items]|e] eqn:Hpop; [|discriminate].
    cbn. intros [= <- <-]. unfold aligned. cbn.
    rewrite (list_pop_at _ _ _ _ Hrow Hpop), !list_fmap_delete, Haligned. reflexivity.
  - intros row Hrow. unfold _remove_selected_image.
    destruct (length rows =? 0)%nat; [eauto|].
    destruct (Z.ltb_spec row 0) as [|Hpos]; [eauto|].
    unfold remove_index.
    destruct (list_pop_in_range (_items self) row) as (item & items & Hpop).
    { apply (f_equal length) in Haligned. rewrite !length_fmap in Haligned. lia. }
    rewrite Hpop. cbn. eauto.
  - reflexivity.
Qed.

End Core.

(** * A small Qt, to run the core on

    A pixmap is its size; an image is its size and the list of what was
    drawn on it.  The core above never looks inside either. *)

Definition demo_pixmap : Type := Z * Z.
Definition demo_image : Type := Z * Z * list (float * float * demo_pixmap).

Definition demo_truth (pm : demo_pixmap) : bool :=
  negb ((fst pm =? 0) || (snd pm =? 0)).

Definition demo_decode (bytes : string) : option demo_pixmap :=
  if bool_decide (bytes = "") then None else Some (Z.of_nat (String.length bytes), 1).

Definition demo_paint_text (settings : TextWatermarkSettings.t) : demo_pixmap :=
  (Z.of_nat (String.length (TextWatermarkSettings.text settings)) + 32,
   TextWatermarkSettings.font_size settings + 32).

Definition demo_draw (image : demo_image) (point : float * float) (pm : demo_pixmap)
    : demo_image :=
  (fst image, (snd image ++ [(point, pm)])%list).

Definition demo_encode (image : demo_image) (format : string) (quality : option Z)
    : option string :=
  Some (format +:+ ":" +:+ pretty (fst (fst image)) +:+ "x" +:+ pretty (snd (fst image))).

Definition demo_mkdir (fs : FileSystem) (dir : string) : result FileSystem :=
  match fs !! dir with
  | Some (Directory _) => Ok fs
  | Some (RegularFile _) => Raise FileExistsError
  | None => Ok (<[dir := Directory (N.of_nat (base.size fs) + 1000)]> fs)
  end.

Definition demo_build_watermark :=
  build_watermark (QPixmap := demo_pixmap) fst snd demo_decode demo_paint_text
    (fun pm _ => pm) (fun pm w => (w, snd pm)) (fun pm _ => pm).

Definition demo_apply_watermark :=
  apply_watermark demo_truth fst snd (fun im : demo_image => fst (fst im))
    (fun im : demo_image => snd (fst im)) demo_decode demo_paint_text
    (fun pm _ => pm) (fun pm w => (w, snd pm)) (fun pm _ => pm) demo_draw.

Definition demo_resize_image :=
  _resize_image (fun im : demo_image => fst (fst im)) (fun im : demo_image => snd (fst im))
    (fun im w h => ((w, h), snd im)).

Definition demo_export_images :=
  _export_images demo_truth fst snd (fun im : demo_image => fst (fst im))
    (fun im : demo_image => snd (fst im)) demo_decode demo_decode demo_paint_text
    (fun pm _ => pm) (fun pm w => (w, snd pm)) (fun pm _ => pm) demo_draw
    (fun pm => (pm, [])) (fun im w h => ((w, h), snd im)) demo_encode demo_mkdir.

Definition demo_mouseMoveEvent :=
  mouseMoveEvent (QPixmap := demo_pixmap) demo_truth fst snd (fun _ => true).

Definition demo_resize (mode : ResizeMode) (value : Z) : ExportSettings.t :=
  ExportSettings.mk "png" (Some "out") SUFFIX "wm_" "_watermarked" true 90 mode (Some value).

Definition demo_blank : WatermarkSettings.t :=
  WatermarkSettings.mk TEXT
    (TextWatermarkSettings.mk "  " "Arial" 32 false false (AsTuple (255, 255, 255, 255))
       80 false false 2 (AsTuple (2, 2)))
    ImageWatermarkSettings.default 0%float WatermarkLayout.default.

Definition demo_photo : demo_image := ((200, 100), []).

(** A source folder with one photo, and an output folder. *)
Definition demo_fs : FileSystem :=
  <["photos" := Directory 1]> (<["photos/a.jpg" := RegularFile "JFIF"]>
  (<["out" := Directory 2]> ∅)).

(** A preview of a [w] wide base with a [ww] wide overlay, in mid drag. *)
Definition demo_preview (w ww : Z) : PreviewWidget :=
  {| _base_pixmap := Some (w, 100);
     _watermark_pixmap := Some (ww, 20);
     _layout := WatermarkLayout.default;
     _scale_factor := 1%float;
     _draw_rect := (0, 0, Z2F w, 100)%float;
     _dragging := true;
     _drag_delta := (0, 0)%float |}.

(** The default text watermark lands with its corner at the anchor point
    minus half its size. *)
Lemma C1_overlay_corner_example :
  exists result images',
    demo_apply_watermark ∅ {[1%positive := demo_photo]} 1%positive
      WatermarkSettings.default (100, 50)%float (anchor_to_position CENTER)
    = Ok (result, images')
    /\ images' !! result
       = Some (demo_draw demo_photo (100 - Z2F 41 * 0.5, 50 - Z2F 64 * 0.5)%float (41, 64)).
Proof.
  eapply (proj2 (C1_anchor_ratio_and_overlay_corner demo_truth fst snd
                   (fun im : demo_image => fst (fst im))
                   (fun im : demo_image => snd (fst im)) demo_decode demo_paint_text
                   (fun pm _ => pm) (fun pm w => (w, snd pm)) (fun pm _ => pm) demo_draw)
            ∅ {[1%positive := demo_photo]} 1%positive demo_photo
            WatermarkSettings.default (100, 50)%float (anchor_to_position CENTER)
            {| pixmap := Some (41, 64); size := (41, 64) |} (41, 64)).
  - reflexivity.
  - vm_compute. reflexivity.
  - reflexivity.
  - reflexivity.
Defined.

(** A 200 by 100 photo resized to width 100. *)
Lemma C2_resize_example :
  demo_resize_image (demo_resize WIDTH 100) demo_photo = Ok ((100, 50), []).
Proof.
  refine (proj1 (proj2 (proj2 (proj2 (proj2 (proj2
    (C2_resize_truncates (fun im : demo_image => fst (fst im))
       (fun im : demo_image => snd (fst im)) (fun im w h => ((w, h), snd im))
       (demo_resize WIDTH 100) demo_photo 100 _ _))))) _ _) _ _);
    first [reflexivity | lia].
Defined.

(** The policy text rounds; the code truncates: 3 by 2 at width 4. *)
Lemma C2_rounding_counterexample :
  demo_resize_image (demo_resize WIDTH 4) ((3, 2), []) = Ok ((4, 2), [])
  /\ spec_round_div (2 * 4) 3 = 3
  /\ 2 <> spec_round_div (2 * 4) 3.
Proof. split; [vm_compute; reflexivity|]. split; [reflexivity|]. discriminate. Qed.

(** The same on a case where the exact quotient is an integer: 98 by 98 at
    width 2 asks for height 1. *)
Example resize_98_by_98 :
  demo_resize_image (demo_resize WIDTH 2) ((98, 98), []) = Ok ((2, 1), []).
Proof. vm_compute. reflexivity. Qed.

(** A 100 wide overlay on a 200 wide base, dragged past the right edge. *)
Lemma C3_drag_example :
  demo_mouseMoveEvent (demo_preview 200 100) (500, 50)%float
  = Ok (Some (0.75, 0.5, CENTER)%float).
Proof.
  refine (eq_trans (proj1
    (C3_drag_clamps_center demo_truth fst snd (fun _ => true)
       (demo_preview 200 100) (500, 50)%float (200, 100) (100, 20)
       _ _ _ _ _ _ _ _ _)) _);
    first [reflexivity | vm_compute; reflexivity | intros; reflexivity].
Defined.

(** A 120 wide overlay on a 100 wide base: the center goes to 60, the
    overlay's half width; the middle of the base is at 50. *)
Lemma C3_midpoint_counterexample :
  (Z2F 100 - Z2F 120 / 2 <? Z2F 120 / 2)%float = true
  /\ demo_mouseMoveEvent (demo_preview 100 120) (10, 50)%float
     = Ok (Some (0.6, 0.5, CENTER)%float)
  /\ (0.6 * Z2F 100 = 60)%float
  /\ (Z2F 100 / 2 = 50)%float
  /\ (60 =? 50)%float = false.
Proof. repeat split; vm_compute; reflexivity. Qed.

(** Exporting the photo into its own folder. *)
Lemma collision_example :
  demo_export_images WatermarkSettings.default
    (ExportSettings.mk "png" (Some "photos") SUFFIX "wm_" "_watermarked" true 90 NONE None)
    demo_fs [{| path := "photos/a.jpg" |}]
  = Ok {| fs_after := demo_fs; saves := []; shown := [WarnInvalidOutputDir] |}.
Proof.
  refine (proj1 (collision_aborts_batch demo_truth fst snd
                   (fun im : demo_image => fst (fst im))
                   (fun im : demo_image => snd (fst im)) demo_decode demo_decode
                   demo_paint_text (fun pm _ => pm) (fun pm w => (w, snd pm))
                   (fun pm _ => pm) demo_draw (fun pm => (pm, []))
                   (fun im w h => ((w, h), snd im)) demo_encode demo_mkdir
                   _ _ demo_fs demo_fs "photos" _ _ _ _ _ _) _).
  - reflexivity.
  - reflexivity.
  - discriminate.
  - reflexivity.
  - exists {| path := "photos/a.jpg" |}. split; [left|reflexivity].
  - intros item Hitem. apply list_elem_of_singleton in Hitem as ->. reflexivity.
Defined.

(** The same batch after a photo from a folder that has since been removed:
    the second item collides with the output folder, and the export raises
    on the first. *)
Lemma C5_vanished_directory_example :
  demo_export_images WatermarkSettings.default
    (ExportSettings.mk "png" (Some "photos") SUFFIX "wm_" "_watermarked" true 90 NONE None)
    demo_fs [{| path := "gone/b.jpg" |}; {| path := "photos/a.jpg" |}]
  = Raise FileNotFoundError
  /\ samefile demo_fs "photos" (path_parent "photos/a.jpg") = Ok true.
Proof.
  split; [|reflexivity].
  apply (C5_missing_directory_raises demo_truth fst snd
           (fun im : demo_image => fst (fst im))
           (fun im : demo_image => snd (fst im)) demo_decode demo_decode
           demo_paint_text (fun pm _ => pm) (fun pm w => (w, snd pm))
           (fun pm _ => pm) demo_draw (fun pm => (pm, []))
           (fun im w h => ((w, h), snd im)) demo_encode demo_mkdir
           _ _ demo_fs demo_fs "photos" [] {| path := "gone/b.jpg" |}
           [{| path := "photos/a.jpg" |}]).
  - reflexivity.
  - reflexivity.
  - discriminate.
  - reflexivity.
  - intros earlier Hearlier. inversion Hearlier.
  - reflexivity.
Defined.

(** The same batch into another folder writes the file. *)
Example export_writes_elsewhere :
  (outcome ← demo_export_images WatermarkSettings.default
      (ExportSettings.mk "png" (Some "out") SUFFIX "wm_" "_watermarked" true 90 NONE None)
      demo_fs [{| path := "photos/a.jpg" |}];
   Ok (saves outcome, shown outcome))
  = Ok (["out/a_watermarked.png"], [StatusExportDone 1]).
Proof. vm_compute. reflexivity. Qed.

(** A text of two spaces leaves the photo as it is, in a new object. *)
Lemma C7_blank_text_example :
  (forall base_size,
      demo_build_watermark ∅ base_size demo_blank
      = Ok {| pixmap := None; size := QSize_null |})
  /\ exists result images',
      demo_apply_watermark ∅ {[1%positive := demo_photo]} 1%positive demo_blank
        (100, 50)%float (0.5, 0.5)%float
      = Ok (result, images')
      /\ result <> 1%positive
      /\ images' !! result = Some demo_photo
      /\ images' !! 1%positive = Some demo_photo
      /\ forall other, other <> result ->
           images' !! other = ({[1%positive := demo_photo]} : gmap positive demo_image) !! other.
Proof.
  apply (C7_blank_text_gives_plain_copy demo_truth fst snd
           (fun im : demo_image => fst (fst im)) (fun im : demo_image => snd (fst im))
           demo_decode demo_paint_text (fun pm _ => pm) (fun pm w => (w, snd pm))
           (fun pm _ => pm) demo_draw
           ∅ {[1%positive := demo_photo]} 1%positive demo_photo demo_blank);
    reflexivity.
Defined.

Definition demo_logo : WatermarkSettings.t :=
  WatermarkSettings.mk IMAGE TextWatermarkSettings.default
    (ImageWatermarkSettings.mk (Some "logo.png") 0.25%float 70)
    0%float WatermarkLayout.default.

Definition demo_fs_logo : FileSystem := <["logo.png" := RegularFile "PNG"]> demo_fs.



(** The logo is drawn: the first call does not raise. *)
Example logo_is_drawn :
  (out ← demo_apply_watermark demo_fs_logo {[1%positive := demo_photo]} 1%positive
           demo_logo (100, 50)%float (0.5, 0.5)%float;
   Ok (snd out !! fst out))
  = Ok (Some (demo_draw demo_photo (100 - Z2F 50 * 0.5, 50 - Z2F 1 * 0.5)%float (50, 1))).
Proof. vm_compute. reflexivity. Qed.

(** Templates: a name that was never saved, and a blank name. *)
Example load_missing_template :
  load_template (fun _ => None) "templates" demo_fs "My Template!"
  = Raise FileNotFoundError
  /\ _template_path "templates" "My Template!" = Ok "templates/My_Template_.json"
  /\ delete_template "templates" demo_fs "My Template!" = Ok demo_fs
  /\ load_template (fun _ => None) "templates" demo_fs "  " = Raise ValueError.
Proof. repeat split; vm_compute; reflexivity. Qed.

(** The third export of one stem. *)
Example third_collision :
  _determine_output_path ExportSettings.default
    (<["out/a_watermarked.png" := RegularFile "1"]>
       (<["out/a_watermarked_1.png" := RegularFile "2"]> demo_fs))
    "photos/a.jpg" "out"
  = Some "out/a_watermarked_2.png".
Proof. vm_compute. reflexivity. Qed.

(** * The rest of the code, run *)

(** A codec that knows two documents: the template and the state that hold
    the default settings. *)
Definition demo_dumps (v : pyval) : string :=
  match v with
  | PyDict d => if bool_decide (is_Some (d !! "name")) then "template" else "state"
  | _ => "null"
  end.

Definition demo_loads (text : string) : option pyval :=
  if bool_decide (text = "template") then
    Some (jsonify (template_payload " my mark "
                     WatermarkSettings.default ExportSettings.default))
  else if bool_decide (text = "state") then
    Some (jsonify (store_payload WatermarkSettings.default ExportSettings.default))
  else None.

Definition demo_templates : FileSystem := {[ "templates" := Directory 3 ]}.

Definition demo_saved : FileSystem :=
  <["templates/my_mark.json" := RegularFile "template"]> demo_templates.

(** A template saved under a name with spaces is loaded back: the
    default settings, with their two tuples as lists. *)
Lemma X5_template_example :
  load_template demo_loads "templates" demo_saved " my mark "
  = Ok (settings_via_json WatermarkSettings.default, ExportSettings.default)
  /\ settings_via_json WatermarkSettings.default <> WatermarkSettings.default.
Proof.
  split; [|discriminate].
  apply (X5_template_save_then_load demo_dumps demo_loads "templates" " my mark "
           demo_templates demo_saved "templates/my_mark.json").
  - reflexivity.
  - reflexivity.
  - vm_compute. reflexivity.
Defined.

(** The state file, saved and loaded. *)
Lemma X6_store_example :
  settings_store_load demo_loads "home/app_state.json"
    (<["home/app_state.json" := RegularFile "state"]> ∅)
  = Ok (settings_via_json WatermarkSettings.default, ExportSettings.default).
Proof.
  apply (X6_store_save_then_load demo_dumps demo_loads "home/app_state.json" ∅).
  - reflexivity.
  - reflexivity.
  - vm_compute. reflexivity.
Defined.

(** A name with a space and an exclamation mark. *)
Lemma X9_sanitize_example :
  "my_mark_" <> "" /\ all_valid "my_mark_" = true
  /\ _sanitize_name "my_mark_" = Ok "my_mark_".
Proof.
  apply (X9_sanitize_name_idempotent " my mark! " "my_mark_"). reflexivity.
Defined.

(** A name that tries to leave the directory. *)
Lemma X10_template_path_example :
  exists sanitized,
    _sanitize_name "../../etc/passwd" = Ok sanitized
    /\ "templates/_etc_passwd.json" = joinpath "templates" (sanitized +:+ ".json")
    /\ path_parent "templates/_etc_passwd.json" = Path "templates"
    /\ path_name "templates/_etc_passwd.json" = sanitized +:+ ".json"
    /\ path_stem "templates/_etc_passwd.json" = sanitized.
Proof.
  apply (X10_template_path_stays_inside "templates" "../../etc/passwd"
           "templates/_etc_passwd.json").
  reflexivity.
Defined.

(** The saved template is in the list, under its sanitized name. *)
Lemma X11_listed_example :
  exists sanitized,
    _sanitize_name " my mark " = Ok sanitized
    /\ sanitized ∈ list_templates "templates" demo_saved
    /\ _template_path "templates" sanitized = Ok "templates/my_mark.json"
    /\ path_exists demo_saved "templates/my_mark.json" = true.
Proof.
  apply (X11_saved_template_is_listed demo_dumps "templates" " my mark " demo_templates
           demo_saved "templates/my_mark.json"
           WatermarkSettings.default ExportSettings.default).
  vm_compute. reflexivity.
Defined.

(** Deleting it again. *)
Lemma X12_deleted_example :
  load_template demo_loads "templates" demo_templates " my mark "
  = Raise FileNotFoundError
  /\ forall sanitized,
       _sanitize_name " my mark " = Ok sanitized ->
       sanitized ∉ list_templates "templates" demo_templates.
Proof.
  apply (X12_deleted_template_is_gone demo_loads "templates" " my mark " demo_saved
           demo_templates).
  vm_compute. reflexivity.
Defined.

(** The photo given twice, a missing file and a directory: one item. *)
Definition demo_manager : ImageManager (QPixmap := demo_pixmap) :=
  {| _items := [{| path := "photos/a.jpg" |}]; _thumbnail_cache := ∅ |}.

Definition demo_manager_cached : ImageManager (QPixmap := demo_pixmap) :=
  {| _items := [{| path := "photos/a.jpg" |}];
     _thumbnail_cache := {[ "photos/a.jpg" := (96, 96) ]} |}.

Definition demo_paths : list string :=
  ["photos/a.jpg"; "photos/a.jpg"; "photos/missing.png"; "out"].

Lemma X13_add_paths_example :
  _items demo_manager
  = (_items (manager_clear demo_manager)
     ++ ((fun p => {| path := p |}) <$> ["photos/a.jpg"]))%list
  /\ _thumbnail_cache demo_manager = _thumbnail_cache (manager_clear demo_manager)
  /\ (unique (manager_clear demo_manager) -> unique demo_manager)
  /\ (forall p, p ∈ ["photos/a.jpg"] ->
        p ∈ demo_paths /\ is_file demo_fs p = true
        /\ lower (path_suffix p) ∈ SUPPORTED_INPUT_EXTENSIONS
        /\ p ∉ path <$> _items (manager_clear demo_manager))
  /\ add_paths demo_fs demo_manager demo_paths = ([], demo_manager).
Proof.
  apply (X13_add_paths_keeps_paths_distinct demo_fs (manager_clear demo_manager)
           demo_manager demo_paths ["photos/a.jpg"]).
  vm_compute. reflexivity.
Defined.

(** The thumbnail of the photo: made once, then served from the cache. *)
Lemma X14_thumbnail_example :
  _items demo_manager_cached = _items demo_manager
  /\ forall fs2 max_size2,
       load_thumbnail demo_decode (fun pm => negb (demo_truth pm))
         (fun _ w h => (w, h)) fs2 demo_manager_cached "photos/a.jpg" max_size2
       = (Some (96, 96), demo_manager_cached).
Proof.
  apply (X14_thumbnail_is_cached demo_decode (fun pm => negb (demo_truth pm))
           (fun _ w h => (w, h)) demo_fs demo_manager demo_manager_cached
           "photos/a.jpg" 96 (Some (96, 96))).
  vm_compute. reflexivity.
Defined.

(** The collection with its one thumbnail cached keeps its invariants. *)
Lemma X15_collection_example :
  (forall index self',
      remove_index demo_manager_cached index = Ok self' ->
      unique self' /\ coherent self'
      /\ length (_items demo_manager_cached) = S (length (_items self'))
      /\ (exists item, item ∈ _items demo_manager_cached
                        /\ (path item ∉ (path <$> _items self'))
                        /\ _thumbnail_cache self' !! path item = None))
  /\ (unique (manager_clear demo_manager_cached)
      /\ coherent (manager_clear demo_manager_cached))
  /\ (forall paths added self',
        add_paths demo_fs demo_manager_cached paths = (added, self') ->
        unique self' /\ coherent self')
  /\ (forall p max_size thumbnail self',
        p ∈ path <$> _items demo_manager_cached ->
        load_thumbnail demo_decode (fun pm => negb (demo_truth pm))
          (fun _ w h => (w, h)) demo_fs demo_manager_cached p max_size
        = (thumbnail, self') ->
        unique self' /\ coherent self').
Proof.
  apply (X15_collection_invariants demo_decode (fun pm => negb (demo_truth pm))
           (fun _ w h => (w, h)) demo_fs demo_manager_cached).
  - apply NoDup_singleton.
  - intros p [pm Hp]. destruct (decide (p = "photos/a.jpg")) as [->|Hne].
    + apply list_elem_of_singleton. reflexivity.
    + cbn in Hp. rewrite lookup_singleton_ne in Hp by congruence. discriminate.
Defined.

(** A state file and a template that are not JSON. *)
Definition demo_garbled : FileSystem :=
  <["home/app_state.json" := RegularFile "{"]>
    (<["templates/my_mark.json" := RegularFile "{"]> demo_templates).

Lemma X7_garbled_state_example :
  settings_store_load demo_loads "home/app_state.json" demo_garbled
  = Ok (WatermarkSettings.default, ExportSettings.default).
Proof.
  apply (proj1 (X7_store_load_falls_back demo_loads "home/app_state.json" demo_garbled)).
  right. exists "{". split; reflexivity.
Defined.

Lemma X8_garbled_template_example :
  load_template demo_loads "templates" demo_garbled " my mark " = Raise JSONDecodeError.
Proof.
  apply (proj1 (proj2 (X8_load_template_errors demo_loads "templates" demo_garbled
                         " my mark "))
           "templates/my_mark.json" "{"); reflexivity.
Defined.

(** The same two files holding one byte that is no UTF-8. *)
Example files_not_utf8 :
  let bytes := String (ascii_of_N 233) "" in
  settings_store_load demo_loads "home/app_state.json"
    (<["home/app_state.json" := RegularFile bytes]> ∅)
  = Raise UnicodeDecodeError
  /\ load_template demo_loads "templates"
       (<["templates/my_mark.json" := RegularFile bytes]> demo_templates) " my mark "
     = Raise UnicodeDecodeError.
Proof. split; vm_compute; reflexivity. Qed.

(** The photo exported next to an earlier export of it. *)
Definition demo_fs_exported : FileSystem :=
  <["out/a_watermarked.png" := RegularFile "earlier"]> demo_fs.

Definition demo_export_to_out : ExportSettings.t :=
  ExportSettings.mk "png" (Some "out") SUFFIX "wm_" "_watermarked" false 90 NONE None.

Definition demo_outcome : ExportOutcome :=
  {| fs_after := <["out/a_watermarked_1.png" := RegularFile "PNG:4x1"]> demo_fs_exported;
     saves := ["out/a_watermarked_1.png"];
     shown := [StatusExportDone 1] |}.

Lemma X16_export_example :
  exists fs1,
    (fs1 = demo_fs_exported
     \/ exists dir, ExportSettings.output_dir demo_export_to_out = Some dir
                    /\ demo_mkdir demo_fs_exported (Path dir) = Ok fs1)
    /\ fs1 ⊆ fs_after demo_outcome
    /\ Forall (fun p => fs1 !! p = None) (saves demo_outcome)
    /\ (length (saves demo_outcome) <= length [{| path := "photos/a.jpg" |}])%nat.
Proof.
  apply (X16_export_overwrites_nothing demo_truth fst snd
           (fun im : demo_image => fst (fst im)) (fun im : demo_image => snd (fst im))
           demo_decode demo_decode demo_paint_text (fun pm _ => pm)
           (fun pm w => (w, snd pm)) (fun pm _ => pm) demo_draw (fun pm => (pm, []))
           (fun im w h => ((w, h), snd im)) demo_encode demo_mkdir
           WatermarkSettings.default demo_export_to_out demo_fs_exported
           [{| path := "photos/a.jpg" |}] demo_outcome).
  vm_compute. reflexivity.
Defined.

(** Row 0 of a list of two: one save. *)
Lemma X17_export_selected_example :
  (length (saves demo_outcome) <= 1)%nat.
Proof.
  apply (proj2 (proj2 (proj2 (X17_export_selected_one_item demo_truth fst snd
           (fun im : demo_image => fst (fst im)) (fun im : demo_image => snd (fst im))
           demo_decode demo_decode demo_paint_text (fun pm _ => pm)
           (fun pm w => (w, snd pm)) (fun pm _ => pm) demo_draw (fun pm => (pm, []))
           (fun im w h => ((w, h), snd im)) demo_encode demo_mkdir
           WatermarkSettings.default demo_export_to_out demo_fs_exported
           [{| path := "photos/a.jpg" |}; {| path := "photos/b.jpg" |}] 0)))
           demo_outcome).
  vm_compute. reflexivity.
Defined.

(** A logo that is not there, and one that is. *)
Lemma X18_missing_logo_example :
  (forall base_size,
      demo_build_watermark demo_fs base_size demo_logo
      = Ok {| pixmap := None; size := QSize_null |})
  /\ exists result images',
      demo_apply_watermark demo_fs {[1%positive := demo_photo]} 1%positive demo_logo
        (100, 50)%float (0.5, 0.5)%float
      = Ok (result, images')
      /\ result <> 1%positive
      /\ images' !! result = Some demo_photo
      /\ images' !! 1%positive = Some demo_photo
      /\ forall other, other <> result ->
           images' !! other = ({[1%positive := demo_photo]} : gmap positive demo_image) !! other.
Proof.
  apply (X18_unreadable_image_gives_plain_copy demo_truth fst snd
           (fun im : demo_image => fst (fst im)) (fun im : demo_image => snd (fst im))
           demo_decode demo_paint_text (fun pm _ => pm) (fun pm w => (w, snd pm))
           (fun pm _ => pm) demo_draw
           demo_fs {[1%positive := demo_photo]} 1%positive demo_photo demo_logo).
  - reflexivity.
  - intros _ bytes Hfile. vm_compute in Hfile. discriminate.
  - reflexivity.
Defined.

Lemma X19_logo_example :
  _build_image_watermark demo_decode (fun pm _ => pm) (fun pm w => (w, snd pm))
    (fun pm alpha => (fst pm, alpha)) demo_fs_logo (200, 100)
    (ImageWatermarkSettings.mk (Some "logo.png") 0.25%float 70) 0%float
  = Ok (Some (if 70 <? 100 then (50, 255 * 70 / 100) else (50, 1)))
  /\ (70 < 100 -> 0 <= 255 * 70 / 100 < 255).
Proof.
  apply (X19_image_watermark_overlay demo_decode (fun pm _ => pm)
           (fun pm w => (w, snd pm)) (fun pm alpha => (fst pm, alpha)) demo_fs_logo
           (200, 100) (ImageWatermarkSettings.mk (Some "logo.png") 0.25%float 70)
           0%float "logo.png" "PNG" (3, 1) 50);
    first [reflexivity | discriminate | vm_compute; reflexivity].
Defined.

(** The list with its one row: removing row 0 goes through. *)
Definition demo_rows : list (QListWidgetItem (QPixmap := demo_pixmap)) :=
  [{| item_text := "a.jpg"; item_data := "photos/a.jpg"; item_icon := Some (96, 96) |}].

Lemma X20_rows_example :
  exists self' rows',
    _remove_selected_image demo_manager_cached demo_rows 0 = Ok (self', rows').
Proof.
  apply (proj1 (proj2 (proj2 (proj2 (proj2
           (X20_rows_follow_items demo_truth demo_decode (fun pm => negb (demo_truth pm))
              (fun _ w h => (w, h)) (fun _ _ => []) (fun _ _ => [])
              demo_fs demo_manager_cached demo_rows eq_refl)))))).
  reflexivity.
Defined.
